(** * Arbitrage bot: rate graph, Bellman-Ford cycle detection and monitor

    Shallow embedding of [arbitrage_bot/arbitrage_bot.py] and
    [arbitrage_bot/arb/arbitrage_discovery_bot.py].

    Conventions.
    - Python floats used as edge weights are kept abstract behind the
      [Weight] interface (zero, addition, strict comparison): the detector
      only ever adds and compares them.  Arithmetic facts are proved for
      the exact instance on [Z].
    - Reserves and prices are exact rationals ([Q]); [math.log] and
      [math.exp] are parameters of the graph builder and of the monitor.
    - Python exceptions are values of [exn]; a computation returns
      [res A].  The only unbounded loop of the detector ([while True]) is
      run with explicit fuel and yields [OutOfFuel] when it is exhausted. *)

From Stdlib Require Import ZArith QArith Lia.
From stdpp Require Import base option list gmap strings fin_maps.

Local Open Scope Z_scope.
Local Open Scope nat_scope.

(** ** Exceptions and results *)

Inductive exn : Type :=
| KeyError
| IndexError
| TypeError
| StopIteration
| BadFunctionCallOutput
| ContractLogicError
| TransportError.

Inductive res (A : Type) : Type :=
| Ok (a : A)
| Raise (e : exn)
| OutOfFuel.

Arguments Ok {A} a.
Arguments Raise {A} e.
Arguments OutOfFuel {A}.

#[export] Instance res_bind : MBind res := λ A B k m,
  match m with
  | Ok a => k a
  | Raise e => Raise e
  | OutOfFuel => OutOfFuel
  end.

(** [d[k]] on a dict, [l[i]] on a list. *)
Definition dict_get {K : Type} `{Countable K} {V : Type}
    (d : gmap K V) (k : K) : res V :=
  match d !! k with Some v => Ok v | None => Raise KeyError end.

Definition list_get {A : Type} (l : list A) (i : nat) : res A :=
  match l !! i with Some a => Ok a | None => Raise IndexError end.

(** ** Weights *)

Class Weight (W : Type) : Type := {
  wzero : W;
  wadd : W → W → W;
  wlt : W → W → bool
}.

#[export] Instance Z_weight : Weight Z := {
  wzero := 0%Z;
  wadd := Z.add;
  wlt := Z.ltb
}.

(** A graph node is the value of a pool's [token0]/[token1] attribute
    ([Optional[str]]): [None] until the pool has resolved its tokens. *)
Definition token : Type := option string.

(** The predecessor array: [None] or [(index, pool)] per node. *)
Abbreviation parent_t P := (list (option (nat * P))).

(** ** The detector, parts shared by the two files *)

Section Detector.
Context {W : Type} `{Weight W} {P : Type}.

(** An edge [(u, v, w, pool)]. *)
Definition edge : Type := token * token * W * P.


(** [{t: i for i, t in enumerate(nodes)}]: later bindings win. *)
Definition token_to_idx (nodes : list token) : gmap token nat :=
  list_to_map (reverse (imap (λ i t, (t, i)) nodes)).

(** [{i: t for t, i in token_to_idx.items()}] *)
Definition idx_to_token (nodes : list token) : gmap nat token :=
  list_to_map ((λ ti : token * nat, (ti.2, ti.1)) <$>
               map_to_list (token_to_idx nodes)).

(** Body of the relaxation loops:
    [ui, vi = idx[u], idx[v]; if dist[ui] + w < dist[vi]: ...] *)
Definition relax_edge (idx : gmap token nat)
    (st : list W * parent_t P * bool) (e : edge)
    : res (list W * parent_t P * bool) :=
  let '(dist, parent, updated) := st in
  let '(u, v, w, pool) := e in
  ui ← dict_get idx u;
  vi ← dict_get idx v;
  du ← list_get dist ui;
  dv ← list_get dist vi;
  if wlt (wadd du w) dv
  then Ok (<[vi := wadd du w]> dist, <[vi := Some (ui, pool)]> parent, true)
  else Ok (dist, parent, updated).

(** [for u, v, w, pool in edges: ...] *)
Fixpoint relax_pass (idx : gmap token nat) (edges : list edge)
    (st : list W * parent_t P * bool) : res (list W * parent_t P * bool) :=
  match edges with
  | [] => Ok st
  | e :: es => st' ← relax_edge idx st e; relax_pass idx es st'
  end.

(** The test of the verification pass. *)
Definition relaxes (idx : gmap token nat) (dist : list W) (e : edge)
    : res bool :=
  let '(u, v, w, pool) := e in
  ui ← dict_get idx u;
  vi ← dict_get idx v;
  du ← list_get dist ui;
  dv ← list_get dist vi;
  Ok (wlt (wadd du w) dv).

(** The collection loop
    [while True: prev = parent[cur]; if not prev: break; ...;
     cur = prev_idx; if cur == start: break].
    [toks] and [pls] are the Python lists, in append order. *)
Fixpoint collect (fuel : nat) (inv : gmap nat token) (parent : parent_t P)
    (start cur : nat) (toks : list token) (pls : list P)
    : res (list token * list P) :=
  match fuel with
  | 0 => OutOfFuel
  | S fuel' =>
      prev ← list_get parent cur;
      match prev with
      | None => Ok (toks, pls)
      | Some (prev_idx, pl) =>
          t ← dict_get inv cur;
          let toks' := toks ++ [t] in
          let pls' := pls ++ [pl] in
          if decide (prev_idx = start) then Ok (toks', pls')
          else collect fuel' inv parent start prev_idx toks' pls'
      end
  end.

(** From the landing node [start] to the returned pair:
    collect, append [idx_to_token[start]], reverse both lists. *)
Definition extract_cycle (fuel : nat) (inv : gmap nat token)
    (parent : parent_t P) (start : nat) : res (list token * list P) :=
  '(toks, pls) ← collect fuel inv parent start start [] [];
  t ← dict_get inv start;
  Ok (reverse (toks ++ [t]), reverse pls).

(** The verification pass, with the back-walk [back] of either file. *)
Fixpoint scan (back : parent_t P → nat → res nat) (fuel : nat)
    (idx : gmap token nat) (inv : gmap nat token)
    (dist : list W) (parent : parent_t P) (edges : list edge)
    : res (list token * list P) :=
  match edges with
  | [] => Ok ([], [])
  | e :: es =>
      b ← relaxes idx dist e;
      if (b : bool) then
        vi ← dict_get idx e.1.1.2;
        start ← back parent vi;
        extract_cycle fuel inv parent start
      else scan back fuel idx inv dist parent es
  end.
End Detector.

(** ** Pools and the chain-data provider *)

Definition address : Type := string.

(** The remote calls a pool can make, as they appear in the call log. *)
Inductive rpc : Type :=
| RpcToken0 (a : address)
| RpcToken1 (a : address)
| RpcSymbol (t : string)
| RpcDecimals (t : string)
| RpcGetReserves (a : address).

#[export] Instance rpc_eq_dec : EqDecision rpc.
Proof. solve_decision. Defined.

(** The outcome of a call to the outside world: it returns or raises. *)
Inductive answer (A : Type) : Type :=
| Returned (a : A)
| Failed (e : exn).

Arguments Returned {A} a.
Arguments Failed {A} e.

Definition res_of {A : Type} (x : answer A) : res A :=
  match x with Returned a => Ok a | Failed e => Raise e end.

(** What the chain answers during one tick. *)
Record Chain : Type := {
  token0_call : address → answer string;
  token1_call : address → answer string;
  symbol_call : string → answer string;
  decimals_call : string → answer N;
  getReserves_call : address → answer (N * N)
}.

Record Pool : Type := mkPool {
  pool_address : address;
  token0 : token;
  token1 : token;
  token0_decimals : option N;
  token1_decimals : option N;
  token0_symbol : option string;
  token1_symbol : option string;
  reserve0 : Q;
  reserve1 : Q;
  is_valid : bool
}.

(** [Pool(addr)] *)
Definition new_pool (a : address) : Pool :=
  mkPool a None None None None None None 0%Q 0%Q true.

Definition set_token0 (v : token) (p : Pool) : Pool :=
  mkPool (pool_address p) v (token1 p) (token0_decimals p) (token1_decimals p)
    (token0_symbol p) (token1_symbol p) (reserve0 p) (reserve1 p) (is_valid p).
Definition set_token1 (v : token) (p : Pool) : Pool :=
  mkPool (pool_address p) (token0 p) v (token0_decimals p) (token1_decimals p)
    (token0_symbol p) (token1_symbol p) (reserve0 p) (reserve1 p) (is_valid p).
Definition set_token0_decimals (v : option N) (p : Pool) : Pool :=
  mkPool (pool_address p) (token0 p) (token1 p) v (token1_decimals p)
    (token0_symbol p) (token1_symbol p) (reserve0 p) (reserve1 p) (is_valid p).
Definition set_token1_decimals (v : option N) (p : Pool) : Pool :=
  mkPool (pool_address p) (token0 p) (token1 p) (token0_decimals p) v
    (token0_symbol p) (token1_symbol p) (reserve0 p) (reserve1 p) (is_valid p).
Definition set_token0_symbol (v : option string) (p : Pool) : Pool :=
  mkPool (pool_address p) (token0 p) (token1 p) (token0_decimals p)
    (token1_decimals p) v (token1_symbol p) (reserve0 p) (reserve1 p)
    (is_valid p).
Definition set_token1_symbol (v : option string) (p : Pool) : Pool :=
  mkPool (pool_address p) (token0 p) (token1 p) (token0_decimals p)
    (token1_decimals p) (token0_symbol p) v (reserve0 p) (reserve1 p)
    (is_valid p).
Definition set_reserve0 (v : Q) (p : Pool) : Pool :=
  mkPool (pool_address p) (token0 p) (token1 p) (token0_decimals p)
    (token1_decimals p) (token0_symbol p) (token1_symbol p) v (reserve1 p)
    (is_valid p).
Definition set_reserve1 (v : Q) (p : Pool) : Pool :=
  mkPool (pool_address p) (token0 p) (token1 p) (token0_decimals p)
    (token1_decimals p) (token0_symbol p) (token1_symbol p) (reserve0 p) v
    (is_valid p).
Definition set_is_valid (v : bool) (p : Pool) : Pool :=
  mkPool (pool_address p) (token0 p) (token1 p) (token0_decimals p)
    (token1_decimals p) (token0_symbol p) (token1_symbol p) (reserve0 p)
    (reserve1 p) v.

(** *** Methods run on a pool object and the call log *)

Definition M (A : Type) : Type := Pool * list rpc → res A * (Pool * list rpc).

Definition ret {A : Type} (a : A) : M A := λ s, (Ok a, s).

Definition bind {A B : Type} (m : M A) (k : A → M B) : M B := λ s,
  match m s with
  | (Ok a, s') => k a s'
  | (Raise e, s') => (Raise e, s')
  | (OutOfFuel, s') => (OutOfFuel, s')
  end.

Notation "x <- m ;; k" := (bind m (λ x, k))
  (at level 100, m at next level, right associativity).
Notation "m ;; k" := (bind m (λ _, k))
  (at level 100, right associativity).

Definition self : M Pool := λ s, (Ok s.1, s).
Definition assign (f : Pool → Pool) : M unit := λ s, (Ok tt, (f s.1, s.2)).
Definition raise {A : Type} (e : exn) : M A := λ s, (Raise e, s).

(** A remote call: logged, then it returns or raises. *)
Definition remote {A : Type} (r : rpc) (x : answer A) : M A :=
  λ s, (res_of x, (s.1, s.2 ++ [r])).

(** [try: body except <caught>: handler] *)
Definition try_except {A : Type} (caught : exn → bool)
    (body handler : M A) : M A := λ s,
  match body s with
  | (Raise e, s') => if caught e then handler s' else (Raise e, s')
  | r => r
  end.

(** [r / (10 ** d)] *)
Definition scale (r : N) (d : N) : Q :=
  (inject_Z (Z.of_N r) / inject_Z (10 ^ Z.of_N d))%Q.

Definition fee : Q := (997 # 1000)%Q.

(** [0.0 if self.reserve0 == 0 else (self.reserve1 / self.reserve0) * 0.997] *)
Definition price_token0_to_token1 (p : Pool) : Q :=
  if Qeq_bool (reserve0 p) 0 then 0%Q
  else ((reserve1 p / reserve0 p) * fee)%Q.

(** [0.0 if self.reserve1 == 0 else (self.reserve0 / self.reserve1) * 0.997] *)
Definition price_token1_to_token0 (p : Pool) : Q :=
  if Qeq_bool (reserve1 p) 0 then 0%Q
  else ((reserve0 p / reserve1 p) * fee)%Q.

(** [p > 0] on prices. *)
Definition Qpositive (q : Q) : bool := negb (Qle_bool q 0).

(** ** Graph construction, shared by [build_rate_graph] and [build_graph] *)

Section Build.
Context {W : Type} (neg_log : Q → W).

(** The edges one valid pool contributes, in append order. *)
Definition pool_edges (p : Pool) : list (@edge W Pool) :=
  let t0 := token0 p in
  let t1 := token1 p in
  let p01 := price_token0_to_token1 p in
  let p10 := price_token1_to_token0 p in
  (if Qpositive p01 then [(t0, t1, neg_log p01, p)] else []) ++
  (if Qpositive p10 then [(t1, t0, neg_log p10, p)] else []).

(** [for pool in pools: pool.update(); if not pool.is_valid: continue; ...]
    The pool objects are mutated in place: the updated list is returned
    next to the graph, together with the extended call log. *)
Fixpoint build_loop (update : M unit) (pools : list Pool)
    (nodes : gset token) (edges : list (@edge W Pool)) (log : list rpc)
    : res (gset token * list (@edge W Pool)) * list Pool * list rpc :=
  match pools with
  | [] => (Ok (nodes, edges), [], log)
  | p :: ps =>
      match update (p, log) with
      | (Ok _, (p', log')) =>
          let '(r, ps', log'') :=
            if is_valid p'
            then build_loop update ps (nodes ∪ {[token0 p'; token1 p']})
                   (edges ++ pool_edges p') log'
            else build_loop update ps nodes edges log' in
          (r, p' :: ps', log'')
      | (Raise e, (p', log')) => (Raise e, p' :: ps, log')
      | (OutOfFuel, (p', log')) => (OutOfFuel, p' :: ps, log')
      end
  end.
End Build.

(** ** Reporting, shared by the two monitors *)

(** [sep.join(cyc)]; a [None] item raises [TypeError]. *)
Fixpoint join (sep : string) (l : list token) : res string :=
  match l with
  | [] => Ok ""%string
  | [Some t] => Ok t
  | Some t :: l' => s ← join sep l'; Ok (t +:+ sep +:+ s)
  | None :: _ => Raise TypeError
  end.

Section Report.
Context {W : Type} {P : Type}.

(** [next(w for u, v, w, _ in edges if u == cyc[0] and v == cyc[1])] *)
Fixpoint first_edge_weight (cyc : list token) (edges : list (@edge W P))
    : res W :=
  match edges with
  | [] => Raise StopIteration
  | (u, v, w, _) :: es =>
      c0 ← list_get cyc 0;
      if decide (u = c0) then
        c1 ← list_get cyc 1;
        if decide (v = c1) then Ok w else first_edge_weight cyc es
      else first_edge_weight cyc es
  end.
End Report.

(** What a monitor prints, logs or does, in order. *)
Inductive event (G : Type) : Type :=
| Opportunity (key : string) (gain : G) (pools : list Pool)
| LoggedException (e : exn)
| Sleep.

Arguments Opportunity {G} key gain pools.
Arguments LoggedException {G} e.
Arguments Sleep {G}.

Inductive status : Type :=
| Running            (* the loop is still going after the last tick given *)
| Died (e : exn)     (* an exception left the loop *)
| Hung.              (* a tick did not come back *)

Section Emit.
Context {W : Type} {G : Type} (exp_neg : W → G).

(** The body of the reporting branch, once the monitor has decided to
    report: [seen.add(key); gain = math.exp(-next(...)); <print>].
    The key is recorded before the gain is computed. *)
Definition emit_opportunity (key : string) (cyc : list token)
    (cycp : list Pool) (edges : list (@edge W Pool)) (seen : gset string)
    : res (list (event G)) * gset string :=
  (w ← first_edge_weight cyc edges; Ok [Opportunity key (exp_neg w) cycp],
   {[key]} ∪ seen).
End Emit.

(** State a monitor carries from tick to tick. *)
Record mstate : Type := mkState {
  st_pools : list Pool;
  st_seen : gset string;
  st_log : list rpc
}.

(** ** [arbitrage_bot.py] *)

Module ArbitrageBot.

(** Only [BadFunctionCallOutput] is caught by [Pool]. *)
Definition caught (e : exn) : bool :=
  match e with BadFunctionCallOutput => true | _ => false end.

Section Pool.
Context (chain : Chain).

(** [{"symbol": token.functions.symbol().call(),
      "decimals": token.functions.decimals().call()}] *)
Definition fetch_token_info (t : string) : M (string * N) :=
  sym <- remote (RpcSymbol t) (symbol_call chain t);;
  dec <- remote (RpcDecimals t) (decimals_call chain t);;
  ret (sym, dec).

Definition resolve_tokens : M bool :=
  p <- self;;
  match token0 p with
  | None =>
      t0 <- remote (RpcToken0 (pool_address p))
              (token0_call chain (pool_address p));;
      assign (set_token0 (Some t0));;
      t1 <- remote (RpcToken1 (pool_address p))
              (token1_call chain (pool_address p));;
      assign (set_token1 (Some t1));;
      info0 <- fetch_token_info t0;;
      info1 <- fetch_token_info t1;;
      assign (set_token0_decimals (Some info0.2));;
      assign (set_token1_decimals (Some info1.2));;
      assign (set_token0_symbol (Some info0.1));;
      assign (set_token1_symbol (Some info1.1));;
      ret true
  | Some _ => ret true
  end.

(** [10 ** None] raises [TypeError]. *)
Definition decimals_of (d : option N) : M N :=
  match d with Some d => ret d | None => raise TypeError end.

Definition fetch_reserves : M unit :=
  p <- self;;
  r <- remote (RpcGetReserves (pool_address p))
         (getReserves_call chain (pool_address p));;
  d0 <- decimals_of (token0_decimals p);;
  assign (set_reserve0 (scale r.1 d0));;
  d1 <- decimals_of (token1_decimals p);;
  assign (set_reserve1 (scale r.2 d1)).

Definition update_tokens_and_reserves : M unit :=
  p <- self;;
  if negb (is_valid p) then ret tt
  else
    ok <- try_except caught resolve_tokens
            (assign (set_is_valid false);; ret false);;
    if (ok : bool)
    then try_except caught fetch_reserves (assign (set_is_valid false))
    else ret tt.
End Pool.

Definition build_rate_graph {W : Type} (neg_log : Q → W) (chain : Chain)
    (pools : list Pool) (log : list rpc)
    : res (gset token * list (@edge W Pool)) * list Pool * list rpc :=
  build_loop neg_log (update_tokens_and_reserves chain) pools ∅ [] log.

Section Detector.
Context {W : Type} `{Weight W} {P : Type}.

(** [for _ in range(n): updated = False; <pass>; if not updated: break].
    The third component counts the passes performed. *)
Fixpoint relax_loop (n : nat) (idx : gmap token nat)
    (edges : list (@edge W P)) (dist : list W) (parent : parent_t P)
    (passes : nat) : res (list W * parent_t P * nat) :=
  match n with
  | 0 => Ok (dist, parent, passes)
  | S n' =>
      '(dist', parent', updated) ←
         relax_pass idx edges (dist, parent, false);
      if (updated : bool)
      then relax_loop n' idx edges dist' parent' (S passes)
      else Ok (dist', parent', S passes)
  end.

(** [for _ in range(N): prev = parent[start]; if not prev: break;
     start = prev[0]] *)
Fixpoint walk_back (n : nat) (parent : parent_t P) (start : nat)
    : res nat :=
  match n with
  | 0 => Ok start
  | S n' =>
      prev ← list_get parent start;
      match prev with
      | None => Ok start
      | Some (prev_idx, _) => walk_back n' parent prev_idx
      end
  end.

Definition find_negative_cycle_passes (fuel : nat) (nodes : list token)
    (edges : list (@edge W P)) : res (list token * list P * nat) :=
  let idx := token_to_idx nodes in
  let inv := idx_to_token nodes in
  let N := length nodes in
  '(dist, parent, passes) ←
     relax_loop (N - 1) idx edges (replicate N wzero) (replicate N None) 0;
  r ← scan (walk_back N) fuel idx inv dist parent edges;
  Ok (r, passes).

Definition find_negative_cycle (fuel : nat) (nodes : list token)
    (edges : list (@edge W P)) : res (list token * list P) :=
  r ← find_negative_cycle_passes fuel nodes edges; Ok r.1.
End Detector.

Section Monitor.
Context {W : Type} `{Weight W} (neg_log : Q → W).
Context {G : Type} (exp_neg : W → G).

(** [if cycle_tokens: key = ...; if key not in seen_cycles: ...] *)
Definition report (cyc : list token) (cycp : list Pool)
    (edges : list (@edge W Pool)) (seen : gset string)
    : res (list (event G)) * gset string :=
  match cyc with
  | [] => (Ok [], seen)
  | _ =>
      match join " → " cyc with
      | Ok key =>
          if bool_decide (key ∈ seen) then (Ok [], seen)
          else emit_opportunity exp_neg key cyc cycp edges seen
      | Raise e => (Raise e, seen)
      | OutOfFuel => (OutOfFuel, seen)
      end
  end.

(** One iteration of [while True], up to [time.sleep]. *)
Definition tick (chain : Chain) (st : mstate)
    : res (list (event G)) * mstate :=
  let '(g, pools, log) :=
    build_rate_graph neg_log chain (st_pools st) (st_log st) in
  match g with
  | Ok (nodes, edges) =>
      let ns := elements nodes in
      match find_negative_cycle (length ns) ns edges with
      | Ok (cyc, cycp) =>
          let '(r, seen) := report cyc cycp edges (st_seen st) in
          (r, mkState pools seen log)
      | Raise e => (Raise e, mkState pools (st_seen st) log)
      | OutOfFuel => (OutOfFuel, mkState pools (st_seen st) log)
      end
  | Raise e => (Raise e, mkState pools (st_seen st) log)
  | OutOfFuel => (OutOfFuel, mkState pools (st_seen st) log)
  end.

(** [while True: <tick>; time.sleep(poll_interval)], one chain answer per
    tick; nothing in the loop catches an exception. *)
Fixpoint monitor_loop (chains : list Chain) (st : mstate)
    (trace : list (event G)) : list (event G) * mstate * status :=
  match chains with
  | [] => (trace, st, Running)
  | c :: cs =>
      match tick c st with
      | (Ok evs, st') => monitor_loop cs st' (trace ++ evs ++ [Sleep])
      | (Raise e, st') => (trace, st', Died e)
      | (OutOfFuel, st') => (trace, st', Hung)
      end
  end.

(** [pools = [Pool(addr) for addr in POOL_ADDRESSES]; seen_cycles = set()] *)
Definition monitor_arbitrage (POOL_ADDRESSES : list address)
    (chains : list Chain) : list (event G) * mstate * status :=
  monitor_loop chains (mkState (new_pool <$> POOL_ADDRESSES) ∅ []) [].
End Monitor.
End ArbitrageBot.

(** ** [arb/arbitrage_discovery_bot.py] *)

Module DiscoveryBot.

(** [except (BadFunctionCallOutput, ContractLogicError)] *)
Definition caught (e : exn) : bool :=
  match e with
  | BadFunctionCallOutput | ContractLogicError => true
  | _ => false
  end.

(** What one tick sees of the outside world: the chain and the outcome of
    [load_pool_addresses()]. *)
Record Env : Type := mkEnv {
  env_chain : Chain;
  env_addresses : answer (list address)
}.

Section Pool.
Context (chain : Chain).

(** Each of the two calls has its own [try]; a caught failure gives
    [None]. *)
Definition fetch_token_info (t : string) : M (option string * option N) :=
  sym <- try_except caught
           (s <- remote (RpcSymbol t) (symbol_call chain t);; ret (Some s))
           (ret None);;
  dec <- try_except caught
           (d <- remote (RpcDecimals t) (decimals_call chain t);;
            ret (Some d))
           (ret None);;
  ret (sym, dec).

Definition resolve_tokens : M bool :=
  p <- self;;
  t0 <- remote (RpcToken0 (pool_address p))
          (token0_call chain (pool_address p));;
  assign (set_token0 (Some t0));;
  t1 <- remote (RpcToken1 (pool_address p))
          (token1_call chain (pool_address p));;
  assign (set_token1 (Some t1));;
  i0 <- fetch_token_info t0;;
  i1 <- fetch_token_info t1;;
  assign (set_token0_symbol i0.1);;
  assign (set_token0_decimals i0.2);;
  assign (set_token1_symbol i1.1);;
  assign (set_token1_decimals i1.2);;
  ret true.

(** [if d: r /= 10 ** d]: no scaling for [None] and for [0]. *)
Definition scale_if (r : N) (d : option N) : Q :=
  match d with
  | Some d => if (d =? 0)%N then inject_Z (Z.of_N r) else scale r d
  | None => inject_Z (Z.of_N r)
  end.

Definition fetch_reserves : M unit :=
  p <- self;;
  r <- remote (RpcGetReserves (pool_address p))
         (getReserves_call chain (pool_address p));;
  let r0 := scale_if r.1 (token0_decimals p) in
  let r1 := scale_if r.2 (token1_decimals p) in
  assign (set_reserve0 r0);;
  assign (set_reserve1 r1).

Definition update : M unit :=
  p <- self;;
  if negb (is_valid p) then ret tt
  else
    ok <- match token0 p with
          | None => try_except caught resolve_tokens
                      (assign (set_is_valid false);; ret false)
          | Some _ => ret true
          end;;
    if (ok : bool)
    then try_except caught fetch_reserves (assign (set_is_valid false))
    else ret tt.
End Pool.

Definition build_graph {W : Type} (neg_log : Q → W) (chain : Chain)
    (pools : list Pool) (log : list rpc)
    : res (gset token * list (@edge W Pool)) * list Pool * list rpc :=
  build_loop neg_log (update chain) pools ∅ [] log.

Section Detector.
Context {W : Type} `{Weight W} {P : Type}.

(** [for _ in range(len(nodes)-1): <pass>] *)
Fixpoint relax_loop (n : nat) (idx : gmap token nat)
    (edges : list (@edge W P)) (dist : list W) (parent : parent_t P)
    (passes : nat) : res (list W * parent_t P * nat) :=
  match n with
  | 0 => Ok (dist, parent, passes)
  | S n' =>
      '(dist', parent', _) ←
         relax_pass idx edges (dist, parent, false);
      relax_loop n' idx edges dist' parent' (S passes)
  end.

(** [for _ in range(len(nodes)): vi = parent[vi][0]];
    subscripting [None] raises [TypeError]. *)
Fixpoint walk_back (n : nat) (parent : parent_t P) (vi : nat)
    : res nat :=
  match n with
  | 0 => Ok vi
  | S n' =>
      prev ← list_get parent vi;
      match prev with
      | None => Raise TypeError
      | Some (prev_idx, _) => walk_back n' parent prev_idx
      end
  end.

Definition find_negative_cycle_passes (fuel : nat) (nodes : list token)
    (edges : list (@edge W P)) : res (list token * list P * nat) :=
  let idx := token_to_idx nodes in
  let inv := idx_to_token nodes in
  let N := length nodes in
  '(dist, parent, passes) ←
     relax_loop (N - 1) idx edges (replicate N wzero) (replicate N None) 0;
  r ← scan (walk_back N) fuel idx inv dist parent edges;
  Ok (r, passes).

Definition find_negative_cycle (fuel : nat) (nodes : list token)
    (edges : list (@edge W P)) : res (list token * list P) :=
  r ← find_negative_cycle_passes fuel nodes edges; Ok r.1.
End Detector.

Section Monitor.
Context {W : Type} `{Weight W} (neg_log : Q → W).
Context {G : Type} (exp_neg : W → G).
Context (LOG_ARBITRAGE : bool).

(** [if cyc: key = ...; if key not in seen or LOG_ARBITRAGE: ...] *)
Definition report (cyc : list token) (cycp : list Pool)
    (edges : list (@edge W Pool)) (seen : gset string)
    : res (list (event G)) * gset string :=
  match cyc with
  | [] => (Ok [], seen)
  | _ =>
      match join "→" cyc with
      | Ok key =>
          if negb (bool_decide (key ∈ seen)) || LOG_ARBITRAGE
          then emit_opportunity exp_neg key cyc cycp edges seen
          else (Ok [], seen)
      | Raise e => (Raise e, seen)
      | OutOfFuel => (OutOfFuel, seen)
      end
  end.

(** The graph and the detector's answer of one tick:
    [pools = [Pool(a) for a in load_pool_addresses()];
     nodes, edges = build_graph(pools);
     cyc, cycp = find_negative_cycle(nodes, edges)] *)
Definition tick_build (env : Env) (log : list rpc)
    : res (gset token * list (@edge W Pool)) * list Pool * list rpc :=
  match env_addresses env with
  | Returned addrs =>
      build_graph neg_log (env_chain env) (new_pool <$> addrs) log
  | Failed e => (Raise e, [], log)
  end.

Definition tick_detect (env : Env) (log : list rpc)
    : res (list token * list Pool * list (@edge W Pool)) * list rpc :=
  let '(g, _, log') := tick_build env log in
  ('(nodes, edges) ← g;
   let ns := elements nodes in
   '(cyc, cycp) ← find_negative_cycle (length ns) ns edges;
   Ok (cyc, cycp, edges),
   log').

(** The body of [try:] in the loop. *)
Definition tick (env : Env) (st : mstate)
    : res (list (event G)) * mstate :=
  match tick_detect env (st_log st) with
  | (Ok (cyc, cycp, edges), log) =>
      let '(r, seen) := report cyc cycp edges (st_seen st) in
      (r, mkState [] seen log)
  | (Raise e, log) => (Raise e, mkState [] (st_seen st) log)
  | (OutOfFuel, log) => (OutOfFuel, mkState [] (st_seen st) log)
  end.

(** [while True: try: <tick> except Exception: log.exception(...);
     time.sleep(interval)] *)
Fixpoint monitor_loop (envs : list Env) (st : mstate)
    (trace : list (event G)) : list (event G) * mstate * status :=
  match envs with
  | [] => (trace, st, Running)
  | env :: envs' =>
      match tick env st with
      | (Ok evs, st') => monitor_loop envs' st' (trace ++ evs ++ [Sleep])
      | (Raise e, st') =>
          monitor_loop envs' st' (trace ++ [LoggedException e; Sleep])
      | (OutOfFuel, st') => (trace, st', Hung)
      end
  end.

(** [seen = set()]; the pools live inside a tick only. *)
Definition monitor (envs : list Env)
    : list (event G) * mstate * status :=
  monitor_loop envs (mkState [] ∅ []) [].
End Monitor.
End DiscoveryBot.

(** ** An exact weight instance for rational prices

    The weight [-ln p] of a positive rational price [p] is represented by
    [p] itself: adding weights multiplies prices, and [-ln p < -ln q]
    exactly when [q < p].  With it [math.log] and [math.exp] are the
    identity on representations. *)
Definition Qltb (a b : Q) : bool := negb (Qle_bool b a).

Definition price_weight : Weight Q := {|
  wzero := 1%Q;
  wadd := λ a b, Qred (a * b);
  wlt := λ a b, Qltb b a
|}.

Definition neg_log_price (p : Q) : Q := Qred p.
Definition exp_neg_price (w : Q) : Q := w.

(** ** Example data *)

Definition tok (s : string) : token := Some s.

Definition static_chain (pairs : list (address * (string * string * N * N)))
    : Chain := {|
  token0_call := λ a,
    match list_to_map (M := gmap address _) pairs !! a with
    | Some (t0, _, _, _) => Returned t0
    | None => Failed BadFunctionCallOutput
    end;
  token1_call := λ a,
    match list_to_map (M := gmap address _) pairs !! a with
    | Some (_, t1, _, _) => Returned t1
    | None => Failed BadFunctionCallOutput
    end;
  symbol_call := λ t, Returned t;
  decimals_call := λ t, Returned 0%N;
  getReserves_call := λ a,
    match list_to_map (M := gmap address _) pairs !! a with
    | Some (_, _, r0, r1) => Returned (r0, r1)
    | None => Failed BadFunctionCallOutput
    end
|}.

(** A provider that cannot be reached. *)
Definition down_chain : Chain := {|
  token0_call := λ _, Failed TransportError;
  token1_call := λ _, Failed TransportError;
  symbol_call := λ _, Failed TransportError;
  decimals_call := λ _, Failed TransportError;
  getReserves_call := λ _, Failed TransportError
|}.

(** Scenario C of the specification: [reserve0 = 0], [reserve1 = 100]. *)
Definition zero_reserve_chain : Chain :=
  static_chain [("P", ("A", "B", 0, 100)%N)]%string.

(** Scenario A of the specification: raw prices 2.0, 1.5 and 0.4. *)
Definition triangle_chain : Chain :=
  static_chain [("P1", ("A", "B", 1000, 2000)%N);
                ("P2", ("B", "C", 1000, 1500)%N);
                ("P3", ("C", "A", 1000, 400)%N)]%string.

(** Two pools on the same pair quoting different prices. *)
Definition two_pool_chain : Chain :=
  static_chain [("P1", ("U", "V", 1000, 500)%N);
                ("P2", ("U", "V", 1000, 100)%N)]%string.


(** A pair contract that does not answer at first and answers later. *)
Definition silent_chain : Chain := static_chain [].
Definition late_chain : Chain :=
  static_chain [("P", ("A", "B", 1000, 2000)%N)]%string.

(** The two monitors on exact rational prices. *)
Definition arb_monitor (addrs : list address) (chains : list Chain)
    : list (event Q) * mstate * status :=
  @ArbitrageBot.monitor_arbitrage Q price_weight neg_log_price Q
    exp_neg_price addrs chains.

Definition disc_monitor (verbose : bool) (envs : list DiscoveryBot.Env)
    : list (event Q) * mstate * status :=
  @DiscoveryBot.monitor Q price_weight neg_log_price Q exp_neg_price
    verbose envs.

Definition tick_env (chain : Chain) (addrs : list address)
    : DiscoveryBot.Env :=
  DiscoveryBot.mkEnv chain (Returned addrs).

(** Scenario A as a graph with integer weights (thousandths of [-ln]). *)
Definition triangle_edges : list (@edge Z nat) :=
  [(tok "A", tok "B", (-690)%Z, 1); (tok "B", tok "A", 696%Z, 1);
   (tok "B", tok "C", (-402)%Z, 2); (tok "C", tok "B", 408%Z, 2);
   (tok "C", tok "A", 919%Z, 3); (tok "A", tok "C", (-913)%Z, 3)].

Definition triangle_nodes : list token := [tok "A"; tok "B"; tok "C"].

(** Three balanced pools: every hop only pays the fee. *)
Definition balanced_edges : list (@edge Z nat) :=
  [(tok "A", tok "B", 3%Z, 1); (tok "B", tok "A", 3%Z, 1);
   (tok "B", tok "C", 3%Z, 2); (tok "C", tok "B", 3%Z, 2);
   (tok "C", tok "A", 3%Z, 3); (tok "A", tok "C", 3%Z, 3)].

(** Two pools on one pair, the second quoting a much lower price for U. *)
Definition two_pool_edges : list (@edge Z nat) :=
  [(tok "U", tok "V", 696%Z, 1); (tok "V", tok "U", (-690)%Z, 1);
   (tok "U", tok "V", 2306%Z, 2); (tok "V", tok "U", (-2300)%Z, 2)].

Definition two_pool_nodes : list token := [tok "U"; tok "V"].

(** ** Reading a trace *)

Definition is_sleep {G : Type} (ev : event G) : bool :=
  match ev with Sleep => true | _ => false end.

Definition is_opportunity {G : Type} (key : string) (ev : event G) : bool :=
  match ev with
  | Opportunity k _ _ => bool_decide (k = key)
  | _ => false
  end.

(** How often the monitor slept, and how many opportunity events carry the
    signature [key]. *)
Definition sleeps {G : Type} (trace : list (event G)) : nat :=
  length (filter (λ ev, is_sleep ev = true) trace).

Definition opportunities {G : Type} (key : string) (trace : list (event G))
    : nat :=
  length (filter (λ ev, is_opportunity key ev = true) trace).

(** ** Vocabulary of the statements *)

Section Vocabulary.
Context {W P : Type}.

Definition src (e : @edge W P) : token := e.1.1.1.
Definition dst (e : @edge W P) : token := e.1.1.2.
Definition weight (e : @edge W P) : W := e.1.2.
Definition backing (e : @edge W P) : P := e.2.

(** Every edge joins two nodes of the node set. *)
Definition closed_graph (nodes : list token) (E : list (@edge W P)) : Prop :=
  ∀ e, e ∈ E → src e ∈ nodes ∧ dst e ∈ nodes.

(** [walk E a p b]: the edges [p], all taken from [E], lead from [a] to
    [b], each one starting where the previous one ends. *)
Inductive walk (E : list (@edge W P))
    : token → list (@edge W P) → token → Prop :=
| walk_nil a : walk E a [] a
| walk_cons e p b :
    e ∈ E → walk E (dst e) p b → walk E (src e) (e :: p) b.

(** Every recorded predecessor comes from an edge of the graph. *)
Definition parent_ok (idx : gmap token nat) (E : list (@edge W P))
    (N : nat) (parent : parent_t P) : Prop :=
  length parent = N ∧
  ∀ vi ui p, parent !! vi = Some (Some (ui, p)) →
    ∃ u v w, (u, v, w, p) ∈ E ∧ idx !! u = Some ui ∧ idx !! v = Some vi.

(** One step, and [n] steps, along the predecessor links. *)
Definition pstep (parent : parent_t P) (i : nat) : option nat :=
  match parent !! i with
  | Some (Some (j, _)) => Some j
  | _ => None
  end.

Fixpoint piter (n : nat) (parent : parent_t P) (i : nat) : option nat :=
  match n with
  | 0 => Some i
  | S n' => pstep parent i ≫= piter n' parent
  end.

(** The nodes and pools met from [cur] along the predecessor links, up
    to [fin]. *)
Inductive pchain (inv : gmap nat token) (parent : parent_t P)
    : nat → list token → list P → nat → Prop :=
| pchain_nil cur : pchain inv parent cur [] [] cur
| pchain_cons cur prev pl t toks pls fin :
    parent !! cur = Some (Some (prev, pl)) →
    inv !! cur = Some t →
    pchain inv parent prev toks pls fin →
    pchain inv parent cur (t :: toks) (pl :: pls) fin.

(** What the detector owes its caller for a non-empty answer: the token
    sequence is closed, one longer than the pool sequence, and pool [i]
    backs an edge from token [i] to token [i+1]. *)
Definition cycle_shape (E : list (@edge W P)) (toks : list token)
    (pls : list P) : Prop :=
  head toks = last toks ∧
  length toks = S (length pls) ∧
  ∀ i p, pls !! i = Some p →
    ∃ u v w, toks !! i = Some u ∧ toks !! S i = Some v ∧
             (u, v, w, p) ∈ E.
End Vocabulary.

(** The landing node of the back-walk has no predecessor, or it lies on a
    loop of predecessor links. *)
Definition landing_ok {P : Type} (nodes : list token) (parent : parent_t P)
    (start : nat) : Prop :=
  parent !! start = Some None ∨
  ∃ c, 1 ≤ c ≤ length nodes ∧ piter c parent start = Some start.

(** The nodes a walk from [a] along [p] passes through, in order. *)
Definition visited {W P : Type} (a : token) (p : list (@edge W P))
    : list token :=
  a :: (dst <$> p).

(** Total weight of a list of edges, and graphs without a negative cycle,
    for exact integer weights. *)
Definition wsum {P : Type} (p : list (@edge Z P)) : Z :=
  foldr (λ e acc, (weight e + acc)%Z) 0%Z p.

Definition no_negative_cycle {P : Type} (E : list (@edge Z P)) : Prop :=
  ∀ a p, walk E a p a → (0 ≤ wsum p)%Z.

(** [dist] never undercuts a real walk ... *)
Definition LB {P : Type} (nodes : list token) (E : list (@edge Z P))
    (dist : list Z) : Prop :=
  ∀ v vi d, token_to_idx nodes !! v = Some vi → dist !! vi = Some d →
    ∃ a p, walk E a p v ∧ wsum p = d.

(** ... and after [k] passes it is at most the weight of every walk of at
    most [k] edges. *)
Definition UB {P : Type} (nodes : list token) (E : list (@edge Z P))
    (k : nat) (dist : list Z) : Prop :=
  ∀ a p v vi d, walk E a p v → length p ≤ k →
    token_to_idx nodes !! v = Some vi → dist !! vi = Some d →
    (d ≤ wsum p)%Z.

(** No edge relaxes any more. *)
Definition quiet {P : Type} (nodes : list token) (E : list (@edge Z P))
    (dist : list Z) : Prop :=
  ∀ e, e ∈ E → relaxes (token_to_idx nodes) dist e = Ok false.

(** State of a relaxation pass started at [dist0] after the edges [done]. *)
Record PI {P : Type} (nodes : list token) (E : list (@edge Z P))
    (dist0 : list Z) (done : list (@edge Z P)) (dist : list Z) : Prop := {
  pi_len0 : length dist0 = length nodes;
  pi_len : length dist = length nodes;
  pi_mono : ∀ i d0 d, dist0 !! i = Some d0 → dist !! i = Some d →
              (d ≤ d0)%Z;
  pi_done : ∀ u v w pl ui vi du0 dv,
      (u, v, w, pl) ∈ done →
      token_to_idx nodes !! u = Some ui →
      token_to_idx nodes !! v = Some vi →
      dist0 !! ui = Some du0 → dist !! vi = Some dv → (dv ≤ du0 + w)%Z;
  pi_lb : LB nodes E dist
}.

(** A pool that is valid after its update. *)
Definition valid (p : Pool) : Prop := is_valid p = true.

(** A pool method that comes back, with a value or an exception. *)
Definition m_returns {A : Type} (m : M A) : Prop :=
  ∀ s, (m s).1 ≠ OutOfFuel.

(** The tick of the discovery monitor run in [env] finds a cycle whose
    signature is [key], whatever the call log so far. *)
Definition finds {W : Type} `{Weight W} (neg_log : Q → W)
    (env : DiscoveryBot.Env) (key : string) : Prop :=
  ∀ log, ∃ cyc cycp edges log',
    DiscoveryBot.tick_detect neg_log env log = (Ok (cyc, cycp, edges), log') ∧
    cyc ≠ [] ∧ join "→" cyc = Ok key.

(** Weight collected over [n] predecessor links from [i], when [pw] gives
    the weight of the edge recorded as predecessor link of each node. *)
Fixpoint chainw {P : Type} (n : nat) (parent : parent_t P) (pw : nat → Z)
    (i : nat) : Z :=
  match n with
  | 0 => 0%Z
  | S n' =>
      match pstep parent i with
      | Some j => (pw i + chainw n' parent pw j)%Z
      | None => 0%Z
      end
  end.

(** Every predecessor link comes from an edge of weight [pw] that was
    relaxed: the distance of the predecessor plus that weight is at most
    the distance of the node. *)
Definition pw_ok {P : Type} (idx : gmap token nat) (E : list (@edge Z P))
    (dist : list Z) (parent : parent_t P) (pw : nat → Z) : Prop :=
  ∀ vi ui p, parent !! vi = Some (Some (ui, p)) →
    ∃ u v du dv,
      (u, v, pw vi, p) ∈ E ∧ idx !! u = Some ui ∧ idx !! v = Some vi ∧
      dist !! ui = Some du ∧ dist !! vi = Some dv ∧ (du + pw vi ≤ dv)%Z.

(** Every loop of predecessor links has negative weight. *)
Definition loops_negative {P : Type} (parent : parent_t P) (pw : nat → Z)
    : Prop :=
  ∀ s c, 1 ≤ c → piter c parent s = Some s → (chainw c parent pw s < 0)%Z.

(** What the relaxation keeps true of distances and predecessors. *)
Definition bf_inv {P : Type} (idx : gmap token nat) (E : list (@edge Z P))
    (N : nat) (dist : list Z) (parent : parent_t P) : Prop :=
  length dist = N ∧ length parent = N ∧
  ∃ pw, pw_ok idx E dist parent pw ∧ loops_negative parent pw.

(** A pool method that lets no exception of the class [caught] out. *)
Definition contains {A : Type} (caught : exn → bool) (m : M A) : Prop :=
  ∀ s e, (m s).1 = Raise e → caught e = false.

(** What no pool method changes: the address stays, an invalid pool stays
    invalid, and the call log only grows. *)
Definition keeps {A : Type} (m : M A) : Prop :=
  ∀ s,
    pool_address (m s).2.1 = pool_address s.1 ∧
    (is_valid (m s).2.1 = true → is_valid s.1 = true) ∧
    s.2 `prefix_of` (m s).2.2.

(** A chain on which [decimals()] of every token fails as a call to a
    contract without that function does. *)
Definition no_decimals_chain : Chain := {|
  token0_call := token0_call triangle_chain;
  token1_call := token1_call triangle_chain;
  symbol_call := symbol_call triangle_chain;
  decimals_call := λ _, Failed BadFunctionCallOutput;
  getReserves_call := getReserves_call triangle_chain
|}.

(** * Properties *)

(** ** Results *)

Lemma bind_Ok {A B : Type} (m : res A) (k : A → res B) (b : B) :
  m ≫= k = Ok b → ∃ a, m = Ok a ∧ k a = Ok b.
Proof. destruct m; simpl; intros; eauto; discriminate. Qed.

Lemma dict_get_Ok {K : Type} `{Countable K} {V : Type}
    (d : gmap K V) (k : K) (v : V) :
  dict_get d k = Ok v ↔ d !! k = Some v.
Proof. unfold dict_get. destruct (d !! k); split; intros; congruence. Qed.

Lemma list_get_Ok {A : Type} (l : list A) (i : nat) (a : A) :
  list_get l i = Ok a ↔ l !! i = Some a.
Proof. unfold list_get. destruct (l !! i); split; intros; congruence. Qed.

(** Turn a successful run of monadic code in a hypothesis into equations. *)
Ltac inv_res :=
  repeat match goal with
  | H : _ ≫= _ = Ok _ |- _ =>
      apply bind_Ok in H; destruct H as (? & ? & H)
  | H : dict_get _ _ = Ok _ |- _ => apply dict_get_Ok in H
  | H : list_get _ _ = Ok _ |- _ => apply list_get_Ok in H
  | H : Ok _ = Ok _ |- _ => injection H as H
  | H : Raise _ = Ok _ |- _ => discriminate H
  | H : OutOfFuel = Ok _ |- _ => discriminate H
  end.

(** ** The two index dictionaries *)

Section Index.
Implicit Types (nodes : list token) (t : token) (i : nat).

Lemma token_to_idx_nodes nodes t i :
  token_to_idx nodes !! t = Some i → nodes !! i = Some t.
Proof.
  intros Hl. apply elem_of_list_to_map_2 in Hl.
  apply elem_of_reverse, elem_of_lookup_imap in Hl.
  destruct Hl as (j & y & Heq & Hj). by simplify_eq.
Qed.

Lemma token_to_idx_lt nodes t i :
  token_to_idx nodes !! t = Some i → i < length nodes.
Proof. intros Hl. eapply lookup_lt_Some, token_to_idx_nodes, Hl. Qed.

Lemma token_to_idx_inj nodes t t' i :
  token_to_idx nodes !! t = Some i → token_to_idx nodes !! t' = Some i →
  t = t'.
Proof.
  intros H1%token_to_idx_nodes H2%token_to_idx_nodes. congruence.
Qed.

Lemma token_to_idx_NoDup nodes t i :
  NoDup nodes → nodes !! i = Some t → token_to_idx nodes !! t = Some i.
Proof.
  intros Hnd Hl. apply elem_of_list_to_map_1.
  - rewrite fmap_reverse, fmap_imap, reverse_Permutation.
    replace (imap (λ n, fst ∘ (λ t0 : token, (t0, n))) nodes) with nodes;
      [done|].
    apply list_eq. intros k. rewrite list_lookup_imap.
    by destruct (nodes !! k).
  - apply elem_of_reverse. by apply (elem_of_lookup_imap_2 (λ i t, (t, i))).
Qed.

Lemma idx_to_token_spec nodes t i :
  idx_to_token nodes !! i = Some t ↔ token_to_idx nodes !! t = Some i.
Proof.
  unfold idx_to_token.
  rewrite <- elem_of_list_to_map.
  - rewrite list_elem_of_fmap. split.
    + intros ([t' i'] & Heq & Hin). simpl in Heq. simplify_eq.
      by apply elem_of_map_to_list in Hin.
    + intros Hl. exists (t, i). split; [done|].
      by apply elem_of_map_to_list.
  - rewrite <- list_fmap_compose.
    apply NoDup_fmap_2_strong; [|apply NoDup_map_to_list].
    intros [t1 i1] [t2 i2] H1%elem_of_map_to_list H2%elem_of_map_to_list.
    simpl. intros ->. f_equal. eapply token_to_idx_inj; eauto.
Qed.
End Index.

(** ** Invariants of the relaxation loops *)

Section Relaxation.
Context {W : Type} `{Weight W} {P : Type}.
Context (idx : gmap token nat) (E : list (@edge W P)) (N : nat).
Hypothesis idx_lt : ∀ t i, idx !! t = Some i → i < N.

Lemma relax_edge_inv dist parent b e dist' parent' b' :
  e ∈ E → length dist = N → parent_ok idx E N parent →
  relax_edge idx (dist, parent, b) e = Ok (dist', parent', b') →
  length dist' = N ∧ parent_ok idx E N parent'.
Proof.
  intros He Hd [Hp Hpar] Hr. destruct e as [[[u v] w] pool].
  simpl in Hr. inv_res.
  destruct (wlt _ _); simplify_eq; [|done].
  split; [by rewrite length_insert|]. split; [by rewrite length_insert|].
  intros vi ui p Hl.
  destruct (decide (vi = x0)) as [->|Hne].
  - rewrite list_lookup_insert_eq in Hl by (rewrite Hp; eauto).
    simplify_eq. eauto 10.
  - rewrite list_lookup_insert_ne in Hl by done. eauto.
Qed.

Lemma relax_pass_inv es dist parent b dist' parent' b' :
  (∀ e, e ∈ es → e ∈ E) → length dist = N →
  parent_ok idx E N parent →
  relax_pass idx es (dist, parent, b) = Ok (dist', parent', b') →
  length dist' = N ∧ parent_ok idx E N parent'.
Proof.
  revert dist parent b.
  induction es as [|e es IH]; intros dist parent b Hsub Hd Hp Hr; simpl in Hr.
  - by simplify_eq.
  - inv_res. destruct x as [[d1 p1] b1].
    destruct (relax_edge_inv _ _ _ _ _ _ _ (Hsub e ltac:(left)) Hd Hp H0)
      as [Hd1 Hp1].
    eapply IH; [|done..|apply Hr]. intros e' He'. apply Hsub. by right.
Qed.

Lemma arb_relax_loop_inv n dist parent k dist' parent' k' :
  length dist = N → parent_ok idx E N parent →
  ArbitrageBot.relax_loop n idx E dist parent k = Ok (dist', parent', k') →
  length dist' = N ∧ parent_ok idx E N parent'.
Proof.
  revert dist parent k.
  induction n as [|n IH]; intros dist parent k Hd Hp Hr; simpl in Hr.
  - by simplify_eq.
  - inv_res. destruct x as [[d1 p1] b1].
    eapply relax_pass_inv in H0 as [Hd1 Hp1]; [|done..].
    destruct b1; [by eapply IH|by simplify_eq].
Qed.

Lemma disc_relax_loop_inv n dist parent k dist' parent' k' :
  length dist = N → parent_ok idx E N parent →
  DiscoveryBot.relax_loop n idx E dist parent k = Ok (dist', parent', k') →
  length dist' = N ∧ parent_ok idx E N parent'.
Proof.
  revert dist parent k.
  induction n as [|n IH]; intros dist parent k Hd Hp Hr; simpl in Hr.
  - by simplify_eq.
  - inv_res. destruct x as [[d1 p1] b1].
    eapply relax_pass_inv in H0 as [Hd1 Hp1]; [|done..].
    by eapply IH.
Qed.

Lemma parent_ok_init : parent_ok idx E N (replicate N None).
Proof.
  split; [by rewrite length_replicate|].
  intros vi ui p [Hl _]%lookup_replicate. discriminate.
Qed.

(** The number of passes: at most [n] with the early exit, exactly [n]
    without. *)
Lemma arb_relax_loop_passes n dist parent k r :
  ArbitrageBot.relax_loop n idx E dist parent k = Ok r →
  k ≤ r.2 ≤ k + n.
Proof.
  revert dist parent k.
  induction n as [|n IH]; intros dist parent k Hr; simpl in Hr.
  - simplify_eq. simpl. lia.
  - inv_res. destruct x as [[d1 p1] b1]. destruct b1.
    + apply IH in Hr. lia.
    + simplify_eq. simpl. lia.
Qed.

Lemma disc_relax_loop_passes n dist parent k r :
  DiscoveryBot.relax_loop n idx E dist parent k = Ok r →
  r.2 = k + n.
Proof.
  revert dist parent k.
  induction n as [|n IH]; intros dist parent k Hr; simpl in Hr.
  - simplify_eq. simpl. lia.
  - inv_res. destruct x as [[d1 p1] b1].
    apply IH in Hr. lia.
Qed.
End Relaxation.

(** ** Walking the predecessor links *)

Section ParentLinks.
Context {P : Type}.
Implicit Types (parent : parent_t P) (i j n : nat).

Lemma piter_add a b parent i :
  piter (a + b) parent i = piter a parent i ≫= piter b parent.
Proof.
  revert i. induction a as [|a IH]; intros i; simpl; [done|].
  destruct (pstep parent i) as [j|]; simpl; [apply IH|done].
Qed.

Lemma piter_prefix a b parent i :
  is_Some (piter (a + b) parent i) → is_Some (piter a parent i).
Proof.
  rewrite piter_add. destruct (piter a parent i); [eauto|].
  simpl. by intros [? ?].
Qed.

Lemma pstep_lt parent i j : pstep parent i = Some j → i < length parent.
Proof.
  unfold pstep. destruct (parent !! i) eqn:Hl; [|done].
  intros _. by eapply lookup_lt_Some.
Qed.

(** A node met twice within [N] steps puts the landing node on a loop. *)
Lemma piter_repeat N parent v s a b x :
  a < b → b ≤ N →
  piter a parent v = Some x → piter b parent v = Some x →
  piter N parent v = Some s →
  piter (b - a) parent s = Some s.
Proof.
  intros Hab HbN Ha Hb HN.
  assert (Hc : piter (b - a) parent x = Some x).
  { replace b with (a + (b - a)) in Hb by lia.
    rewrite piter_add, Ha in Hb. done. }
  assert (Hs : piter (N - a) parent x = Some s).
  { replace N with (a + (N - a)) in HN by lia.
    rewrite piter_add, Ha in HN. done. }
  assert (H1 : piter ((N - a) + (b - a)) parent x = piter (b - a) parent s).
  { rewrite piter_add, Hs. done. }
  assert (H2 : piter ((b - a) + (N - a)) parent x = Some s).
  { rewrite piter_add, Hc. done. }
  rewrite <- H1. rewrite Nat.add_comm. done.
Qed.

(** Pigeonhole: [N] defined steps among [N] nodes end on a loop. *)
Lemma piter_lands_on_loop N parent v s :
  (∀ i j, pstep parent i = Some j → j < N) → v < N →
  piter N parent v = Some s →
  ∃ c, 1 ≤ c ≤ N ∧ piter c parent s = Some s.
Proof.
  intros Hrange Hv HN.
  destruct (decide (Exists (λ c, piter c parent s = Some s) (seq 1 N)))
    as [Hex|Hno].
  { apply Exists_exists in Hex as (c & Hc%elem_of_seq & Hcs).
    exists c. split; [lia|done]. }
  exfalso.
  assert (Hdef : ∀ k, k ≤ N → ∃ x, piter k parent v = Some x ∧ x < N).
  { intros k Hk.
    assert (Hs : is_Some (piter k parent v)).
    { apply (piter_prefix k (N - k)).
      replace (k + (N - k)) with N by lia. eauto. }
    destruct Hs as [x Hx]. exists x. split; [done|].
    destruct k as [|k]; [simpl in Hx; by simplify_eq|].
    replace (S k) with (k + 1) in Hx by lia.
    rewrite piter_add in Hx.
    destruct (piter k parent v) as [y|]; [|done]. simpl in Hx.
    destruct (pstep parent y) as [z|] eqn:Hz; [|done].
    simpl in Hx. simplify_eq. eauto. }
  set (f := λ k, default 0 (piter k parent v)).
  assert (Hnd : NoDup (f <$> seq 0 (S N))).
  { apply NoDup_fmap_2_strong; [|apply NoDup_seq].
    intros a b Ha%elem_of_seq Hb%elem_of_seq Hf.
    destruct (Hdef a) as (xa & Hxa & _); [lia|].
    destruct (Hdef b) as (xb & Hxb & _); [lia|].
    unfold f in Hf. rewrite Hxa, Hxb in Hf. simpl in Hf. subst xb.
    destruct (decide (a = b)) as [|Hne]; [done|]. exfalso. apply Hno.
    apply Exists_exists.
    destruct (decide (a < b)).
    - exists (b - a). split; [apply elem_of_seq; lia|].
      eapply (piter_repeat N); eauto; lia.
    - exists (a - b). split; [apply elem_of_seq; lia|].
      eapply (piter_repeat N); eauto; lia. }
  assert (Hsub : f <$> seq 0 (S N) ⊆+ seq 0 N).
  { apply NoDup_submseteq; [done|].
    intros x (k & -> & Hk%elem_of_seq)%list_elem_of_fmap.
    destruct (Hdef k) as (y & Hy & Hlt); [lia|].
    unfold f. rewrite Hy. simpl. apply elem_of_seq. lia. }
  apply submseteq_length in Hsub.
  rewrite length_fmap, !length_seq in Hsub. lia.
Qed.

(** On a loop every further step is defined. *)
Lemma piter_loop_defined c parent s k :
  1 ≤ c → piter c parent s = Some s → is_Some (piter k parent s).
Proof.
  intros Hc Hs. induction (lt_wf k) as [k _ IH].
  destruct (decide (k < c)) as [Hlt|Hge].
  - apply (piter_prefix k (c - k)).
    replace (k + (c - k)) with c by lia. eauto.
  - replace k with (c + (k - c)) by lia.
    rewrite piter_add, Hs. simpl. apply IH. lia.
Qed.

Lemma pchain_piter inv parent cur toks pls fin :
  pchain inv parent cur toks pls fin →
  length toks = length pls ∧ piter (length toks) parent cur = Some fin.
Proof.
  induction 1 as [cur|cur prev pl t toks pls fin Hp Hi _ [IH1 IH2]];
    simpl; [done|].
  split; [by rewrite IH1|].
  unfold pstep. rewrite Hp. simpl. done.
Qed.

Lemma pchain_head inv parent cur toks pls fin tf :
  pchain inv parent cur toks pls fin → inv !! fin = Some tf →
  ∃ t, inv !! cur = Some t ∧ (toks ++ [tf]) !! 0 = Some t.
Proof. destruct 1; intros Hf; simpl; eauto. Qed.

(** Every collected pool sits on a predecessor link between the node
    collected with it and the next one. *)
Lemma pchain_hops inv parent cur toks pls fin tf :
  pchain inv parent cur toks pls fin → inv !! fin = Some tf →
  ∀ j p, pls !! j = Some p →
    ∃ y y' ty ty',
      parent !! y = Some (Some (y', p)) ∧
      inv !! y = Some ty ∧ inv !! y' = Some ty' ∧
      toks !! j = Some ty ∧ (toks ++ [tf]) !! S j = Some ty'.
Proof.
  induction 1 as [cur|cur prev pl t toks pls fin Hp Hi Hch IH];
    intros Hf j p Hj; [done|].
  destruct j as [|j]; simpl in *.
  - simplify_eq.
    destruct (pchain_head _ _ _ _ _ _ _ Hch Hf) as (t' & Ht' & Hh).
    exists cur, prev, t, t'. done.
  - eauto.
Qed.

Lemma collect_spec fuel inv parent start cur toks pls r :
  collect fuel inv parent start cur toks pls = Ok r →
  ∃ toks2 pls2 fin,
    r = (toks ++ toks2, pls ++ pls2) ∧
    pchain inv parent cur toks2 pls2 fin ∧
    ((toks2 ≠ [] ∧ fin = start) ∨ parent !! fin = Some None).
Proof.
  revert cur toks pls.
  induction fuel as [|fuel IH]; intros cur toks pls Hc; simpl in Hc;
    [done|].
  inv_res. destruct x as [[prev pl]|].
  - inv_res. destruct (decide (prev = start)) as [->|Hne].
    + simplify_eq. exists [x], [pl], start. split; [done|].
      split; [|by left]. econstructor; eauto. constructor.
    + apply IH in Hc as (toks2 & pls2 & fin & -> & Hch & Hfin).
      exists (x :: toks2), (pl :: pls2), fin.
      rewrite <- !app_assoc. split; [done|]. split.
      * econstructor; eauto.
      * destruct Hfin as [[_ ->]|?]; [left|right]; done.
  - simplify_eq. exists [], [], cur. rewrite !app_nil_r.
    split; [done|]. split; [constructor|by right].
Qed.
End ParentLinks.

(** ** Shape of a non-empty answer *)

Section Shape.
Context {W : Type} `{Weight W} {P : Type}.
Context (nodes : list token) (E : list (@edge W P)).

Let idx := token_to_idx nodes.
Let inv := idx_to_token nodes.

Lemma extract_cycle_shape fuel (parent : parent_t P) start toks pls :
  parent_ok idx E (length nodes) parent →
  landing_ok nodes parent start →
  extract_cycle fuel inv parent start = Ok (toks, pls) →
  cycle_shape E toks pls.
Proof.
  intros [Hlen Hpar] Hland Hx. unfold extract_cycle in Hx. inv_res.
  destruct x as [toks2 pls2]. inv_res. subst toks pls.
  apply collect_spec in H0 as (t2 & p2 & fin & Heq & Hch & Hfin).
  simpl in Heq. simplify_eq.
  destruct (pchain_piter _ _ _ _ _ _ Hch) as [Hl Hit].
  assert (Hclosed : t2 = [] ∨ (t2 ≠ [] ∧ fin = start)).
  { destruct Hfin as [?|Hnone]; [by right|].
    destruct t2 as [|t t2]; [by left|]. exfalso.
    destruct Hland as [Hs|(c & Hc & Hloop)].
    - inversion Hch; simplify_eq.
    - destruct (piter_loop_defined c parent start (S (length (t :: t2))))
        as [z Hz]; [lia|done|].
      replace (S (length (t :: t2))) with (length (t :: t2) + 1) in Hz
        by lia.
      rewrite piter_add, Hit in Hz. simpl in Hz.
      unfold pstep in Hz. rewrite Hnone in Hz. done. }
  destruct Hclosed as [->|[Hne ->]].
  { destruct p2; [|done]. repeat split; try done. }
  split; [|split].
  - rewrite head_reverse, last_snoc, last_reverse.
    inversion Hch; simplify_eq. simpl. congruence.
  - rewrite !length_reverse, length_app. simpl. lia.
  - intros i p Hi.
    assert (Hlt : i < length p2).
    { apply lookup_lt_Some in Hi. by rewrite length_reverse in Hi. }
    rewrite reverse_lookup in Hi by done.
    destruct (pchain_hops _ _ _ _ _ _ _ Hch H1 _ _ Hi)
      as (y & y' & ty & ty' & Hy & Hty & Hty' & Hj & HSj).
    destruct (Hpar _ _ _ Hy) as (u & v & w & HE & Hu & Hv).
    apply idx_to_token_spec in Hty, Hty'.
    assert (u = ty') by (eapply token_to_idx_inj; eauto).
    assert (v = ty) by (eapply token_to_idx_inj; eauto).
    subst u v. exists ty', ty, w. split; [|split; [|done]].
    + rewrite reverse_lookup by (rewrite length_app; simpl; lia).
      rewrite length_app. simpl.
      replace (length t2 + 1 - S i) with (S (length p2 - S i)) by lia.
      done.
    + rewrite reverse_lookup by (rewrite length_app; simpl; lia).
      rewrite length_app. simpl.
      replace (length t2 + 1 - S (S i)) with (length p2 - S i) by lia.
      rewrite lookup_app_l; [done|]. by eapply lookup_lt_Some.
Qed.

(** The verification pass answers with nothing, or with what the
    extraction makes of the landing node. *)
Lemma scan_spec back fuel (dist : list W) (parent : parent_t P)
    (es : list (@edge W P)) toks pls :
  scan back fuel idx inv dist parent es = Ok (toks, pls) →
  (toks = [] ∧ pls = []) ∨
  ∃ vi start, vi < length nodes ∧ back parent vi = Ok start ∧
              extract_cycle fuel inv parent start = Ok (toks, pls).
Proof.
  induction es as [|e es IH]; simpl; intros Hs.
  - left. by simplify_eq.
  - inv_res. destruct x.
    + inv_res. right. exists x, x0. split; [|done].
      by eapply token_to_idx_lt.
    + by apply IH.
Qed.

Lemma parent_range (parent : parent_t P) :
  parent_ok idx E (length nodes) parent →
  ∀ i j, pstep parent i = Some j → j < length nodes.
Proof.
  intros [_ Hpar] i j Hs. unfold pstep in Hs.
  destruct (parent !! i) as [[[j' p]|]|] eqn:Hl; simplify_eq.
  destruct (Hpar _ _ _ Hl) as (u & v & w & _ & Hu & _).
  by eapply token_to_idx_lt.
Qed.

Lemma arb_walk_back_spec n (parent : parent_t P) v s :
  ArbitrageBot.walk_back n parent v = Ok s →
  parent !! s = Some None ∨ piter n parent v = Some s.
Proof.
  revert v. induction n as [|n IH]; intros v Hw; simpl in Hw.
  - right. by simplify_eq.
  - inv_res. destruct x as [[j p]|].
    + destruct (IH _ Hw) as [?|Hit]; [by left|right].
      simpl. unfold pstep. by rewrite H0.
    + left. by simplify_eq.
Qed.

Lemma disc_walk_back_spec n (parent : parent_t P) v s :
  DiscoveryBot.walk_back n parent v = Ok s → piter n parent v = Some s.
Proof.
  revert v. induction n as [|n IH]; intros v Hw; simpl in Hw.
  - by simplify_eq.
  - inv_res. destruct x as [[j p]|]; [|done].
    simpl. unfold pstep. rewrite H0. simpl. by apply IH.
Qed.

Lemma arb_landing (parent : parent_t P) v s :
  parent_ok idx E (length nodes) parent → v < length nodes →
  ArbitrageBot.walk_back (length nodes) parent v = Ok s →
  landing_ok nodes parent s.
Proof.
  intros Hp Hv [?|Hit]%arb_walk_back_spec; [by left|right].
  eapply piter_lands_on_loop; eauto using parent_range.
Qed.

Lemma disc_landing (parent : parent_t P) v s :
  parent_ok idx E (length nodes) parent → v < length nodes →
  DiscoveryBot.walk_back (length nodes) parent v = Ok s →
  landing_ok nodes parent s.
Proof.
  intros Hp Hv Hit%disc_walk_back_spec. right.
  eapply piter_lands_on_loop; eauto using parent_range.
Qed.

Lemma arb_find_shape fuel toks pls :
  ArbitrageBot.find_negative_cycle fuel nodes E = Ok (toks, pls) →
  toks ≠ [] → cycle_shape E toks pls.
Proof.
  unfold ArbitrageBot.find_negative_cycle,
    ArbitrageBot.find_negative_cycle_passes.
  intros Hf Hne. inv_res. destruct x0 as [[dist parent] k]. inv_res.
  subst x. simpl in Hf. subst x0.
  eapply arb_relax_loop_inv in H1 as [_ Hp];
    [|by eapply token_to_idx_lt|by rewrite length_replicate
     |apply parent_ok_init].
  apply scan_spec in H2 as [[-> _]|(vi & start & Hvi & Hb & Hx)]; [done|].
  eapply extract_cycle_shape; eauto using arb_landing.
Qed.

Lemma disc_find_shape fuel toks pls :
  DiscoveryBot.find_negative_cycle fuel nodes E = Ok (toks, pls) →
  toks ≠ [] → cycle_shape E toks pls.
Proof.
  unfold DiscoveryBot.find_negative_cycle,
    DiscoveryBot.find_negative_cycle_passes.
  intros Hf Hne. inv_res. destruct x0 as [[dist parent] k]. inv_res.
  subst x. simpl in Hf. subst x0.
  eapply disc_relax_loop_inv in H1 as [_ Hp];
    [|by eapply token_to_idx_lt|by rewrite length_replicate
     |apply parent_ok_init].
  apply scan_spec in H2 as [[-> _]|(vi & start & Hvi & Hb & Hx)]; [done|].
  eapply extract_cycle_shape; eauto using disc_landing.
Qed.
End Shape.

(** ** The detector always comes back *)

Lemma bind_returns {A B : Type} (m : res A) (k : A → res B) :
  m ≠ OutOfFuel → (∀ a, m = Ok a → k a ≠ OutOfFuel) →
  m ≫= k ≠ OutOfFuel.
Proof. destruct m; simpl; intros Hm Hk; [by apply Hk|done|done]. Qed.

Lemma dict_get_returns {K : Type} `{Countable K} {V : Type}
    (d : gmap K V) (k : K) : dict_get d k ≠ OutOfFuel.
Proof. unfold dict_get. by destruct (d !! k). Qed.

Lemma list_get_returns {A : Type} (l : list A) (i : nat) :
  list_get l i ≠ OutOfFuel.
Proof. unfold list_get. by destruct (l !! i). Qed.

Create HintDb returns.
#[local] Hint Resolve dict_get_returns list_get_returns : returns.

Ltac returns_step :=
  repeat first
    [ apply bind_returns; [auto with returns|intros ? ?]
    | progress auto with returns ].

Section Termination.
Context {W : Type} `{Weight W} {P : Type}.
Context (nodes : list token) (E : list (@edge W P)).

Let idx := token_to_idx nodes.
Let inv := idx_to_token nodes.

Lemma relax_edge_returns st (e : @edge W P) :
  relax_edge idx st e ≠ OutOfFuel.
Proof.
  destruct st as [[dist parent] b], e as [[[u v] w] pool]. simpl.
  returns_step. by destruct (wlt _ _).
Qed.

Lemma relax_pass_returns (es : list (@edge W P)) st :
  relax_pass idx es st ≠ OutOfFuel.
Proof.
  revert st. induction es as [|e es IH]; intros st; simpl; [done|].
  apply bind_returns; [apply relax_edge_returns|auto].
Qed.

Lemma arb_relax_loop_returns n dist (parent : parent_t P) k :
  ArbitrageBot.relax_loop n idx E dist parent k ≠ OutOfFuel.
Proof.
  revert dist parent k. induction n as [|n IH]; intros; simpl; [done|].
  apply bind_returns; [apply relax_pass_returns|].
  intros [[d p] b] _. by destruct b.
Qed.

Lemma disc_relax_loop_returns n dist (parent : parent_t P) k :
  DiscoveryBot.relax_loop n idx E dist parent k ≠ OutOfFuel.
Proof.
  revert dist parent k. induction n as [|n IH]; intros; simpl; [done|].
  apply bind_returns; [apply relax_pass_returns|].
  by intros [[d p] b] _.
Qed.

Lemma relaxes_returns dist (e : @edge W P) : relaxes idx dist e ≠ OutOfFuel.
Proof. destruct e as [[[u v] w] pool]. simpl. returns_step. Qed.

Lemma arb_walk_back_returns n (parent : parent_t P) v :
  ArbitrageBot.walk_back n parent v ≠ OutOfFuel.
Proof.
  revert v. induction n as [|n IH]; intros v; simpl; [done|].
  returns_step. by destruct a as [[j p]|].
Qed.

Lemma disc_walk_back_returns n (parent : parent_t P) v :
  DiscoveryBot.walk_back n parent v ≠ OutOfFuel.
Proof.
  revert v. induction n as [|n IH]; intros v; simpl; [done|].
  returns_step. by destruct a as [[j p]|].
Qed.

(** [m] more links lead back to [start]: [m] rounds of fuel are enough. *)
Lemma collect_returns fuel (parent : parent_t P) start cur toks pls m :
  1 ≤ m ≤ fuel → piter m parent cur = Some start →
  collect fuel inv parent start cur toks pls ≠ OutOfFuel.
Proof.
  revert cur toks pls m.
  induction fuel as [|fuel IH]; intros cur toks pls m Hm Hit; [lia|].
  simpl. returns_step.
  destruct a as [[prev pl]|]; [|done].
  returns_step. destruct (decide (prev = start)) as [|Hne]; [done|].
  destruct m as [|m]; [lia|]. simpl in Hit. unfold pstep in Hit.
  apply list_get_Ok in H0. rewrite H0 in Hit. simpl in Hit.
  apply (IH _ _ _ m); [|done].
  destruct m; [simpl in Hit; by simplify_eq|lia].
Qed.

Lemma extract_cycle_returns fuel (parent : parent_t P) start :
  1 ≤ length nodes ≤ fuel → landing_ok nodes parent start →
  extract_cycle fuel inv parent start ≠ OutOfFuel.
Proof.
  intros Hf Hland. unfold extract_cycle. apply bind_returns.
  - destruct Hland as [Hnone|(c & Hc & Hloop)].
    + destruct fuel as [|fuel]; [lia|]. simpl.
      unfold list_get. by rewrite Hnone.
    + eapply collect_returns; [|done]. lia.
  - intros [t p] _. returns_step.
Qed.

Lemma scan_returns back fuel dist (parent : parent_t P)
    (es : list (@edge W P)) :
  length nodes ≤ fuel →
  (∀ v, back parent v ≠ OutOfFuel) →
  (∀ v s, v < length nodes → back parent v = Ok s →
          landing_ok nodes parent s) →
  scan back fuel idx inv dist parent es ≠ OutOfFuel.
Proof.
  intros Hf Hb Hland. induction es as [|e es IH]; simpl; [done|].
  apply bind_returns; [apply relaxes_returns|]. intros b _.
  destruct b; [|done].
  apply bind_returns; [auto with returns|]. intros vi Hvi.
  apply dict_get_Ok, token_to_idx_lt in Hvi.
  apply bind_returns; [done|]. intros s Hs.
  apply extract_cycle_returns; [lia|eauto].
Qed.

Lemma arb_find_returns fuel :
  length nodes ≤ fuel →
  ArbitrageBot.find_negative_cycle fuel nodes E ≠ OutOfFuel.
Proof.
  intros Hf. unfold ArbitrageBot.find_negative_cycle,
    ArbitrageBot.find_negative_cycle_passes.
  apply bind_returns; [|done].
  apply bind_returns; [apply arb_relax_loop_returns|].
  intros [[dist parent] k] Hr.
  eapply arb_relax_loop_inv in Hr as [_ Hp];
    [|by eapply token_to_idx_lt|by rewrite length_replicate
     |apply parent_ok_init].
  apply bind_returns; [|done].
  apply scan_returns; [done|apply arb_walk_back_returns|].
  intros v s Hv Hs. eapply arb_landing; eauto.
Qed.

Lemma disc_find_returns fuel :
  length nodes ≤ fuel →
  DiscoveryBot.find_negative_cycle fuel nodes E ≠ OutOfFuel.
Proof.
  intros Hf. unfold DiscoveryBot.find_negative_cycle,
    DiscoveryBot.find_negative_cycle_passes.
  apply bind_returns; [|done].
  apply bind_returns; [apply disc_relax_loop_returns|].
  intros [[dist parent] k] Hr.
  eapply disc_relax_loop_inv in Hr as [_ Hp];
    [|by eapply token_to_idx_lt|by rewrite length_replicate
     |apply parent_ok_init].
  apply bind_returns; [|done].
  apply scan_returns; [done|apply disc_walk_back_returns|].
  intros v s Hv Hs. eapply disc_landing; eauto.
Qed.
End Termination.

(** ** Walks *)

Lemma not_NoDup_split {A : Type} `{EqDecision A} (l : list A) :
  ¬ NoDup l → ∃ x l1 l2 l3, l = l1 ++ x :: l2 ++ x :: l3.
Proof.
  induction l as [|a l IH]; intros Hnd.
  - destruct Hnd. constructor.
  - destruct (decide (a ∈ l)) as [Hin|Hnin].
    + apply list_elem_of_split in Hin as (l2 & l3 & ->).
      by exists a, [], l2, l3.
    + destruct IH as (x & l1 & l2 & l3 & ->).
      { intros Hl. apply Hnd. by constructor. }
      by exists x, (a :: l1), l2, l3.
Qed.

Section Walks.
Context {W P : Type}.
Context (E : list (@edge W P)).
Implicit Types (p q : list (@edge W P)) (a b x : token).

Lemma walk_app a p x q b :
  walk E a p x → walk E x q b → walk E a (p ++ q) b.
Proof. induction 1; simpl; [done|]. intros. constructor; auto. Qed.

Lemma walk_snoc a p e :
  walk E a p (src e) → e ∈ E → walk E a (p ++ [e]) (dst e).
Proof.
  intros Hp He. eapply walk_app; [done|]. constructor; [done|constructor].
Qed.

Lemma walk_snoc_inv a p e b :
  walk E a (p ++ [e]) b → walk E a p (src e) ∧ e ∈ E ∧ dst e = b.
Proof.
  revert a. induction p as [|e' p IH]; simpl; intros a Hw.
  - inversion Hw as [|? ? ? He Hr]; subst. inversion Hr; subst.
    split; [constructor|done].
  - inversion Hw as [|? ? ? He Hr]; subst.
    destruct (IH _ Hr) as (Hp & He' & Hb).
    split; [by constructor|done].
Qed.

Lemma walk_split a p b i x :
  walk E a p b → visited a p !! i = Some x →
  walk E a (take i p) x ∧ walk E x (drop i p) b.
Proof.
  intros Hw. revert i. induction Hw as [a|e p b He Hw IH]; intros i Hi.
  - destruct i as [|i]; simpl in Hi; simplify_eq.
    split; constructor.
  - destruct i as [|i]; simpl in Hi.
    + simplify_eq. split; [constructor|by constructor].
    + destruct (IH i Hi) as [H1 H2]. split; [by constructor|done].
Qed.

Lemma walk_visited_nodes nodes a p b :
  closed_graph nodes E → walk E a p b → a ∈ nodes →
  ∀ t, t ∈ visited a p → t ∈ nodes.
Proof.
  intros Hcl Hw. induction Hw as [a|e p b He Hw IH]; intros Ha t Ht.
  - apply list_elem_of_singleton in Ht. by subst.
  - apply elem_of_cons in Ht as [->|Ht]; [done|].
    apply IH; [apply (Hcl e He)|done].
Qed.

Lemma walk_edges a p b e : walk E a p b → e ∈ p → e ∈ E.
Proof.
  induction 1 as [|e' p b He Hw IH]; intros Hin; [by inversion Hin|].
  apply elem_of_cons in Hin as [->|?]; auto.
Qed.
End Walks.

(** ** Bellman-Ford on exact weights *)

Lemma wsum_app {P : Type} (p q : list (@edge Z P)) :
  wsum (p ++ q) = (wsum p + wsum q)%Z.
Proof. induction p as [|e p IH]; simpl; [done|]. rewrite IH. lia. Qed.

Section BellmanFord.
Context {P : Type}.
Context (nodes : list token) (E : list (@edge Z P)).
Hypothesis nodes_NoDup : NoDup nodes.
Hypothesis graph_closed : closed_graph nodes E.

Local Abbreviation idx := (token_to_idx nodes).
Local Abbreviation N := (length nodes).

Lemma idx_defined t : t ∈ nodes → ∃ i, idx !! t = Some i ∧ i < N.
Proof.
  intros (i & Hi)%list_elem_of_lookup. exists i.
  split; [by apply token_to_idx_NoDup|by eapply lookup_lt_Some].
Qed.

(** Removing loops: without a negative cycle, a walk can be replaced by
    one of fewer than [N] edges that is no heavier. *)
Lemma walk_shorten a p b :
  no_negative_cycle E → walk E a p b →
  ∃ a' p', walk E a' p' b ∧ length p' ≤ N - 1 ∧ (wsum p' ≤ wsum p)%Z.
Proof.
  intros Hnn. remember (length p) as n eqn:Hn. revert p a Hn.
  induction (lt_wf n) as [n _ IH]. intros p a Hn Hw.
  destruct (decide (length p ≤ N - 1)) as [|Hlong].
  { exists a, p. split; [done|]. split; [done|lia]. }
  assert (Ha : a ∈ nodes).
  { inversion Hw as [|e0 p0 ? He0 ?]; subst; [simpl in Hlong; lia|].
    apply (graph_closed e0). done. }
  assert (Hvis : ∀ t, t ∈ visited a p → t ∈ nodes)
    by (by eapply walk_visited_nodes).
  destruct (decide (NoDup (visited a p))) as [Hnd|Hdup].
  { apply (NoDup_submseteq _ nodes) in Hnd; [|done].
    apply submseteq_length in Hnd. unfold visited in Hnd. simpl in Hnd.
    rewrite length_fmap in Hnd. fold N in Hnd. lia. }
  apply not_NoDup_split in Hdup as (x & l1 & l2 & l3 & Hv).
  assert (Hlenv : length (visited a p) = S (length p)).
  { unfold visited. simpl. by rewrite length_fmap. }
  assert (Hll : length l1 + S (length l2) + S (length l3) = S (length p)).
  { rewrite <- Hlenv, Hv. rewrite !length_app. simpl.
    rewrite length_app. simpl. lia. }
  assert (Hi : visited a p !! length l1 = Some x).
  { rewrite Hv. by rewrite list_lookup_middle. }
  destruct (walk_split E _ _ _ _ _ Hw Hi) as [Hw1 Hw2].
  assert (Hj : visited x (drop (length l1) p) !! S (length l2) = Some x).
  { unfold visited. rewrite fmap_drop.
    assert (Hd : drop (S (length l1)) (visited a p) = l2 ++ x :: l3).
    { rewrite Hv. rewrite (cons_middle x l1), app_assoc.
      rewrite drop_app_length'; [done|].
      rewrite length_app. simpl. lia. }
    unfold visited in Hd. simpl in Hd. simpl. rewrite Hd.
    by rewrite list_lookup_middle. }
  destruct (walk_split E _ _ _ _ _ Hw2 Hj) as [Hc Hw3].
  set (p1 := take (length l1) p) in *.
  set (c := take (S (length l2)) (drop (length l1) p)) in *.
  set (p3 := drop (S (length l2)) (drop (length l1) p)) in *.
  assert (Hdec : p = p1 ++ c ++ p3).
  { unfold p1, c, p3. by rewrite !take_drop. }
  assert (Hc0 : (0 ≤ wsum c)%Z) by (by eapply Hnn).
  assert (Hcl : length c = S (length l2)).
  { unfold c. rewrite length_take, length_drop. lia. }
  destruct (IH (length (p1 ++ p3))) with (p := p1 ++ p3) (a := a)
    as (a' & p' & Hw' & Hl' & Hs').
  - rewrite Hn, Hdec. rewrite !length_app. lia.
  - done.
  - by eapply walk_app.
  - exists a', p'. split; [done|]. split; [done|].
    rewrite Hdec. rewrite !wsum_app in *. lia.
Qed.

Lemma relax_edge_eq dist (parent : parent_t P) b u v w pool :
  (u, v, w, pool) ∈ E → length dist = N →
  ∃ ui vi du dv,
    idx !! u = Some ui ∧ idx !! v = Some vi ∧
    dist !! ui = Some du ∧ dist !! vi = Some dv ∧
    relax_edge idx (dist, parent, b) (u, v, w, pool) =
      Ok (if (du + w <? dv)%Z
          then (<[vi := (du + w)%Z]> dist,
                <[vi := Some (ui, pool)]> parent, true)
          else (dist, parent, b)) ∧
    relaxes idx dist (u, v, w, pool) = Ok (du + w <? dv)%Z.
Proof.
  intros He Hlen. destruct (graph_closed _ He) as [Hu Hv].
  apply idx_defined in Hu as (ui & Hui & Hlu).
  apply idx_defined in Hv as (vi & Hvi & Hlv).
  unfold src, dst in Hui, Hvi. simpl in Hui, Hvi.
  destruct (lookup_lt_is_Some_2 dist ui) as [du Hdu]; [lia|].
  destruct (lookup_lt_is_Some_2 dist vi) as [dv Hdv]; [lia|].
  exists ui, vi, du, dv. repeat split; try done.
  - simpl. unfold dict_get, list_get. fold idx.
    rewrite Hui, Hvi. simpl. rewrite Hdu. simpl. rewrite Hdv. simpl.
    by destruct (du + w <? dv)%Z.
  - simpl. unfold dict_get, list_get. fold idx.
    rewrite Hui, Hvi. simpl. rewrite Hdu. simpl. by rewrite Hdv.
Qed.

Lemma relax_edge_PI dist0 done dist (parent : parent_t P) b e :
  PI nodes E dist0 done dist → e ∈ E →
  ∃ dist' parent' b',
    relax_edge idx (dist, parent, b) e = Ok (dist', parent', b') ∧
    PI nodes E dist0 (done ++ [e]) dist'.
Proof.
  intros [Hl0 Hl Hmono Hdone Hlb] He. destruct e as [[[u v] w] pool].
  destruct (relax_edge_eq dist parent b _ _ _ _ He Hl)
    as (ui & vi & du & dv & Hui & Hvi & Hdu & Hdv & Heq & _).
  rewrite Heq. clear Heq.
  assert (Hdu0 : ∃ du0, dist0 !! ui = Some du0 ∧ (du ≤ du0)%Z).
  { destruct (lookup_lt_is_Some_2 dist0 ui) as [du0 Hdu0].
    - rewrite Hl0, <- Hl. by eapply lookup_lt_Some.
    - eauto. }
  destruct Hdu0 as (du0 & Hdu0 & Hle0).
  destruct (du + w <? dv)%Z eqn:Hcmp.
  - apply Z.ltb_lt in Hcmp.
    eexists _, _, _. split; [done|]. split.
    + done.
    + by rewrite length_insert.
    + intros i d0 d Hi0 Hi. destruct (decide (i = vi)) as [->|Hne].
      * rewrite list_lookup_insert_eq in Hi by (by eapply lookup_lt_Some).
        simplify_eq. specialize (Hmono _ _ _ Hi0 Hdv). lia.
      * rewrite list_lookup_insert_ne in Hi by done. eauto.
    + intros u' v' w' pl' ui' vi' du0' dv' Hin Hu' Hv' Hd0' Hd'.
      assert (Hnew : vi' = vi → dv' = (du + w)%Z).
      { intros ->.
        rewrite list_lookup_insert_eq in Hd' by (by eapply lookup_lt_Some).
        by simplify_eq. }
      apply elem_of_app in Hin as [Hin|Hin%list_elem_of_singleton].
      * destruct (decide (vi' = vi)) as [Heq|Hne].
        -- rewrite (Hnew Heq). subst vi'.
           specialize (Hdone _ _ _ _ _ _ _ _ Hin Hu' Hv' Hd0' Hdv). lia.
        -- rewrite list_lookup_insert_ne in Hd' by done. eauto.
      * simplify_eq. rewrite (Hnew eq_refl). lia.
    + intros v' vi' d Hv' Hd'. destruct (decide (vi' = vi)) as [->|Hne].
      * rewrite list_lookup_insert_eq in Hd' by (by eapply lookup_lt_Some).
        simplify_eq.
        assert (v' = v) as -> by (eapply token_to_idx_inj; eauto).
        destruct (Hlb _ _ _ Hui Hdu) as (a & q & Hq & Hs).
        exists a, (q ++ [(u, v, w, pool)]). split.
        -- by apply (walk_snoc E a q (u, v, w, pool)).
        -- rewrite wsum_app. simpl. unfold weight. simpl. lia.
      * rewrite list_lookup_insert_ne in Hd' by done. eauto.
  - apply Z.ltb_ge in Hcmp.
    eexists _, _, _. split; [done|]. split; try done.
    intros u' v' w' pl' ui' vi' du0' dv' Hin Hu' Hv' Hd0' Hd'.
    apply elem_of_app in Hin as [Hin|Hin%list_elem_of_singleton];
      [eauto|].
    simplify_eq. lia.
Qed.

Lemma relax_pass_PI es dist0 done dist (parent : parent_t P) b :
  PI nodes E dist0 done dist → (∀ e, e ∈ es → e ∈ E) →
  ∃ dist' parent' b',
    relax_pass idx es (dist, parent, b) = Ok (dist', parent', b') ∧
    PI nodes E dist0 (done ++ es) dist'.
Proof.
  revert done dist parent b.
  induction es as [|e es IH]; intros done dist parent b HPI Hsub;
    cbn [relax_pass].
  - rewrite app_nil_r. eauto.
  - destruct (relax_edge_PI _ _ _ parent b e HPI) as (d1 & p1 & b1 & -> & H1).
    { apply Hsub. by left. }
    cbn [mbind res_bind].
    destruct (IH _ _ p1 b1 H1) as (d2 & p2 & b2 & -> & H2).
    { intros e' He'. apply Hsub. by right. }
    rewrite <- app_assoc in H2. simpl in H2. eauto.
Qed.

(** One full pass extends the bound by one edge. *)
Lemma relax_pass_UB k dist (parent : parent_t P) b :
  length dist = N → LB nodes E dist → UB nodes E k dist →
  ∃ dist' parent' b',
    relax_pass idx E (dist, parent, b) = Ok (dist', parent', b') ∧
    length dist' = N ∧ LB nodes E dist' ∧ UB nodes E (S k) dist'.
Proof.
  intros Hl Hlb Hub.
  assert (HPI : PI nodes E dist [] dist).
  { split; try done.
    - intros i d0 d ? ?. simplify_eq. lia.
    - intros ? ? ? ? ? ? ? ? Hin. by inversion Hin. }
  destruct (relax_pass_PI E _ _ _ parent b HPI) as (d' & p' & b' & Hr & HPI');
    [done|].
  exists d', p', b'. split; [done|].
  destruct HPI' as [_ Hl' Hmono Hdone Hlb']. simpl in Hdone.
  split; [done|]. split; [done|].
  intros a p v vi d Hw Hlen Hv Hd.
  assert (Hvi : ∃ d0, dist !! vi = Some d0 ∧ (d ≤ d0)%Z).
  { destruct (lookup_lt_is_Some_2 dist vi) as [d0 Hd0].
    - rewrite Hl, <- Hl'. by eapply lookup_lt_Some.
    - eauto. }
  destruct Hvi as (d0 & Hd0 & Hle).
  destruct p as [|e0 p0] using rev_ind.
  - specialize (Hub a [] v vi d0 Hw). simpl in Hub.
    etrans; [done|]. apply Hub; [lia|done..].
  - clear IHp0.
    apply walk_snoc_inv in Hw as (Hw & He0 & Hdst).
    destruct e0 as [[[u v'] w] pl]. unfold src, dst in *. simpl in *.
    subst v'.
    destruct (graph_closed _ He0) as [Hu _].
    apply idx_defined in Hu as (ui & Hui & Hlu). unfold src in Hui.
    simpl in Hui.
    destruct (lookup_lt_is_Some_2 dist ui) as [du0 Hdu0]; [lia|].
    rewrite length_app in Hlen. simpl in Hlen.
    assert (du0 ≤ wsum p0)%Z by (eapply Hub; eauto; lia).
    assert (d ≤ du0 + w)%Z by (eapply Hdone; eauto).
    rewrite wsum_app. simpl. unfold weight. simpl. lia.
Qed.

Lemma UB_mono k k' dist : k' ≤ k → UB nodes E k dist → UB nodes E k' dist.
Proof. intros Hk Hub a p v vi d Hw Hl. eapply Hub; [done|lia]. Qed.

(** After [N - 1] full passes nothing relaxes. *)
Lemma UB_quiet dist :
  no_negative_cycle E → length dist = N → LB nodes E dist →
  UB nodes E (N - 1) dist →
  quiet nodes E dist.
Proof.
  intros Hnn Hl Hlb Hub [[[u v] w] pool] He.
  destruct (relax_edge_eq dist [] false _ _ _ _ He Hl)
    as (ui & vi & du & dv & Hui & Hvi & Hdu & Hdv & _ & ->).
  f_equal. apply Z.ltb_ge.
  destruct (Hlb _ _ _ Hui Hdu) as (a & q & Hq & Hs).
  assert (Hw : walk E a (q ++ [(u, v, w, pool)]) v)
    by (by apply (walk_snoc E a q (u, v, w, pool))).
  destruct (walk_shorten _ _ _ Hnn Hw) as (a' & p' & Hw' & Hl' & Hs').
  specialize (Hub _ _ _ _ _ Hw' Hl' Hvi Hdv).
  rewrite wsum_app in Hs'. simpl in Hs'. unfold weight in Hs'.
  simpl in Hs'. lia.
Qed.

Lemma init_LB : LB nodes E (replicate N 0%Z).
Proof.
  intros v vi d _ [-> _]%lookup_replicate. exists v, [].
  split; [constructor|done].
Qed.

Lemma init_UB : UB nodes E 0 (replicate N 0%Z).
Proof.
  intros a p v vi d Hw Hl _ [-> _]%lookup_replicate.
  destruct p; [done|simpl in Hl; lia].
Qed.
End BellmanFord.

(** ** A pass without an update, and a verification pass without a hit *)

Section Quiet.
Context {W : Type} `{Weight W} {P : Type}.
Context (idx : gmap token nat).
Implicit Types (es : list (@edge W P)) (parent : parent_t P).

Lemma relax_edge_cases dist parent b (e : @edge W P) dist' parent' b' :
  relax_edge idx (dist, parent, b) e = Ok (dist', parent', b') →
  (relaxes idx dist e = Ok true ∧ b' = true) ∨
  (relaxes idx dist e = Ok false ∧
   dist' = dist ∧ parent' = parent ∧ b' = b).
Proof.
  destruct e as [[[u v] w] pool]. simpl. intros Hr. inv_res.
  apply dict_get_Ok in H0, H1. apply list_get_Ok in H2, H3.
  rewrite H0. simpl. rewrite H1. simpl. rewrite H2. simpl. rewrite H3. simpl.
  destruct (wlt _ _); simplify_eq; auto.
Qed.

Lemma relax_pass_flag es dist parent dist' parent' b' :
  relax_pass idx es (dist, parent, true) = Ok (dist', parent', b') →
  b' = true.
Proof.
  revert dist parent. induction es as [|e es IH]; intros dist parent Hr;
    simpl in Hr; [by simplify_eq|].
  inv_res. destruct x as [[d1 p1] b1].
  apply relax_edge_cases in H0 as [[_ ->]|(_ & _ & _ & ->)]; eauto.
Qed.

Lemma relax_pass_quiet es dist parent dist' parent' :
  relax_pass idx es (dist, parent, false) = Ok (dist', parent', false) →
  dist' = dist ∧ parent' = parent ∧
  ∀ e, e ∈ es → relaxes idx dist e = Ok false.
Proof.
  induction es as [|e es IH]; intros Hr; simpl in Hr.
  - simplify_eq. repeat split. intros e He. by inversion He.
  - inv_res. destruct x as [[d1 p1] b1].
    apply relax_edge_cases in H0 as [[_ ->]|(Hq & -> & -> & ->)].
    + by apply relax_pass_flag in Hr.
    + destruct (IH Hr) as (-> & -> & Hes). repeat split.
      intros e' [->|?]%elem_of_cons; auto.
Qed.

Lemma scan_quiet back fuel inv dist parent es :
  (∀ e, e ∈ es → relaxes idx dist e = Ok false) →
  scan back fuel idx inv dist parent es = Ok ([], []).
Proof.
  induction es as [|e es IH]; intros Hq; simpl; [done|].
  rewrite (Hq e) by (by left). simpl. apply IH.
  intros e' He'. apply Hq. by right.
Qed.
End Quiet.

Section NoNegativeCycle.
Context {P : Type}.
Context (nodes : list token) (E : list (@edge Z P)).
Hypothesis nodes_NoDup : NoDup nodes.
Hypothesis graph_closed : closed_graph nodes E.

Local Abbreviation idx := (token_to_idx nodes).
Local Abbreviation N := (length nodes).

Lemma arb_relax_loop_bounds n k dist (parent : parent_t P) passes :
  length dist = N → LB nodes E dist → UB nodes E k dist →
  ∃ dist' parent' passes',
    ArbitrageBot.relax_loop n idx E dist parent passes
      = Ok (dist', parent', passes') ∧
    length dist' = N ∧ passes' ≤ passes + n ∧
    (quiet nodes E dist' ∨ (LB nodes E dist' ∧ UB nodes E (k + n) dist')).
Proof.
  revert k dist parent passes.
  induction n as [|n IH]; intros k dist parent passes Hl Hlb Hub;
    cbn [ArbitrageBot.relax_loop].
  - exists dist, parent, passes. rewrite !Nat.add_0_r.
    split; [done|]. split; [done|]. split; [lia|right; by split].
  - destruct (relax_pass_UB nodes E nodes_NoDup graph_closed
                k dist parent false Hl Hlb Hub)
      as (d1 & p1 & b1 & Hr & Hl1 & Hlb1 & Hub1).
    fold idx in Hr. rewrite Hr. cbn [mbind res_bind].
    destruct b1.
    + destruct (IH (S k) d1 p1 (S passes) Hl1 Hlb1 Hub1)
        as (d2 & p2 & k2 & -> & Hl2 & Hk2 & Hfin).
      exists d2, p2, k2. split; [done|]. split; [done|]. split; [lia|].
      by replace (k + S n) with (S k + n) by lia.
    + exists d1, p1, (S passes). split; [done|]. split; [done|].
      split; [lia|]. left.
      apply relax_pass_quiet in Hr as (-> & _ & Hq). exact Hq.
Qed.

Lemma disc_relax_loop_bounds n k dist (parent : parent_t P) passes :
  length dist = N → LB nodes E dist → UB nodes E k dist →
  ∃ dist' parent',
    DiscoveryBot.relax_loop n idx E dist parent passes
      = Ok (dist', parent', passes + n) ∧
    length dist' = N ∧ LB nodes E dist' ∧ UB nodes E (k + n) dist'.
Proof.
  revert k dist parent passes.
  induction n as [|n IH]; intros k dist parent passes Hl Hlb Hub;
    cbn [DiscoveryBot.relax_loop].
  - exists dist, parent. rewrite !Nat.add_0_r. done.
  - destruct (relax_pass_UB nodes E nodes_NoDup graph_closed
                k dist parent false Hl Hlb Hub)
      as (d1 & p1 & b1 & Hr & Hl1 & Hlb1 & Hub1).
    fold idx in Hr. rewrite Hr. cbn [mbind res_bind].
    destruct (IH (S k) d1 p1 (S passes) Hl1 Hlb1 Hub1)
      as (d2 & p2 & Hr2 & Hl2 & Hlb2 & Hub2).
    exists d2, p2.
    replace (passes + S n) with (S passes + n) by lia.
    replace (k + S n) with (S k + n) by lia. done.
Qed.
End NoNegativeCycle.

(** ** The detector on graphs without a negative cycle *)

Lemma nonneg_weights_no_negative_cycle {P : Type} (E : list (@edge Z P)) :
  (∀ e, e ∈ E → (0 ≤ weight e)%Z) → no_negative_cycle E.
Proof.
  intros Hpos a p Hw.
  assert (Hall : ∀ e, e ∈ p → (0 ≤ weight e)%Z)
    by (intros e He; eapply Hpos, walk_edges; eauto).
  clear Hw. induction p as [|e p IH]; simpl; [done|].
  assert (0 ≤ weight e)%Z by (apply Hall; by left).
  assert (0 ≤ wsum p)%Z by (apply IH; intros e' He'; apply Hall; by right).
  lia.
Qed.

Lemma closed_graph_Forall {W P : Type} (nodes : list token)
    (E : list (@edge W P)) :
  Forall (λ e, src e ∈ nodes ∧ dst e ∈ nodes) E → closed_graph nodes E.
Proof. intros HF e He. by eapply Forall_forall in HF. Qed.

Lemma balanced_closed : closed_graph triangle_nodes balanced_edges.
Proof.
  apply closed_graph_Forall. unfold balanced_edges, triangle_nodes, src, dst.
  repeat constructor; simpl; set_solver.
Qed.

Lemma triangle_nodes_NoDup : NoDup triangle_nodes.
Proof. apply (bool_decide_unpack _). by vm_compute. Qed.

Lemma balanced_no_negative_cycle : no_negative_cycle balanced_edges.
Proof.
  apply nonneg_weights_no_negative_cycle. intros e He.
  unfold balanced_edges in He.
  repeat (apply elem_of_cons in He as [->|He]; [by vm_compute|]).
  by inversion He.
Qed.




(** ** The detector when two pools disagree on one pair *)

(** C7 fails on the code: with two pools on the pair U/V quoting different
    prices, the one relaxation pass leaves V without a predecessor while
    the edge U → V of the first pool still relaxes.  The back-walk from V
    has no first step: [arbitrage_discovery_bot.py] raises [TypeError],
    [arbitrage_bot.py] stops at V and answers with the single token V and
    no pool, which is no cycle.  The same happens on the graph built from
    two such pools (reserves 1000/500 and 1000/100) with exact prices. *)
Theorem back_walk_from_node_without_predecessor :
  let idx := token_to_idx two_pool_nodes in
  DiscoveryBot.relax_loop 1 idx two_pool_edges [0%Z; 0%Z] [None; None] 0
    = Ok ([(-2300)%Z; 0%Z], [Some (1, 2); None], 1) ∧
  idx !! tok "V" = Some 1 ∧
  relaxes idx [(-2300)%Z; 0%Z] (tok "U", tok "V", 696%Z, 1) = Ok true ∧
  DiscoveryBot.walk_back 2 [Some (1, 2); None] 1 = Raise TypeError ∧
  DiscoveryBot.find_negative_cycle 2 two_pool_nodes two_pool_edges
    = Raise TypeError ∧
  ArbitrageBot.walk_back 2 [Some (1, 2); None] 1 = Ok 1 ∧
  ArbitrageBot.find_negative_cycle 2 two_pool_nodes two_pool_edges
    = Ok ([tok "V"], []) ∧
  (@DiscoveryBot.tick_detect Q price_weight neg_log_price
     (tick_env two_pool_chain ["P1"; "P2"]%string) []).1 = Raise TypeError.
Proof. vm_compute. repeat split. Qed.

(** ** Shape and reproducibility of the answer *)

(** C10: a non-empty answer of either detector is a closed token sequence,
    one longer than the pool sequence, and pool [i] backs an edge of the
    graph from token [i] to token [i+1]. *)
Theorem nonempty_answer_is_closed_walk {W : Type} `{Weight W} {P : Type}
    (fuel : nat) (nodes : list token) (E : list (@edge W P))
    (toks : list token) (pls : list P) :
  toks ≠ [] →
  ArbitrageBot.find_negative_cycle fuel nodes E = Ok (toks, pls) ∨
  DiscoveryBot.find_negative_cycle fuel nodes E = Ok (toks, pls) →
  head toks = last toks ∧
  length toks = S (length pls) ∧
  ∀ i p, pls !! i = Some p →
    ∃ u v w,
      toks !! i = Some u ∧ toks !! S i = Some v ∧ (u, v, w, p) ∈ E.
Proof.
  intros Hne [Hf|Hf].
  - by eapply arb_find_shape.
  - by eapply disc_find_shape.
Qed.

Lemma nonempty_answer_is_closed_walk_witness :
  head [tok "B"; tok "C"; tok "A"; tok "B"]
    = last [tok "B"; tok "C"; tok "A"; tok "B"] ∧
  length [tok "B"; tok "C"; tok "A"; tok "B"] = S (length [2; 3; 1]) ∧
  ∀ i p, [2; 3; 1] !! i = Some p →
    ∃ u v w, [tok "B"; tok "C"; tok "A"; tok "B"] !! i = Some u ∧
             [tok "B"; tok "C"; tok "A"; tok "B"] !! S i = Some v ∧
             (u, v, w, p) ∈ triangle_edges.
Proof.
  apply (nonempty_answer_is_closed_walk 3 triangle_nodes triangle_edges).
  - discriminate.
  - left. vm_compute. reflexivity.
Defined.

Lemma token_to_idx_determines (nodes1 nodes2 : list token) :
  NoDup nodes1 → NoDup nodes2 →
  token_to_idx nodes1 = token_to_idx nodes2 → nodes1 = nodes2.
Proof.
  intros H1 H2 Heq. apply list_eq. intros i.
  destruct (nodes1 !! i) as [t|] eqn:Hl1, (nodes2 !! i) as [t'|] eqn:Hl2;
    try done.
  - apply (token_to_idx_NoDup _ _ _ H1) in Hl1. rewrite Heq in Hl1.
    apply token_to_idx_nodes in Hl1. congruence.
  - apply (token_to_idx_NoDup _ _ _ H1) in Hl1. rewrite Heq in Hl1.
    apply token_to_idx_nodes in Hl1. congruence.
  - apply (token_to_idx_NoDup _ _ _ H2) in Hl2. rewrite <- Heq in Hl2.
    apply token_to_idx_nodes in Hl2. congruence.
Qed.



(** ** The graph builder *)

Lemma Qpositive_spec (q : Q) : Qpositive q = true ↔ (0 < q)%Q.
Proof.
  unfold Qpositive. rewrite negb_true_iff.
  destruct (Qle_bool q 0) eqn:Hle; split; intros Hq; try done.
  - apply Qle_bool_iff in Hle. exfalso. by eapply Qlt_not_le.
  - apply Qnot_le_lt. intros Hle'. apply Qle_bool_iff in Hle'. congruence.
Qed.

Lemma Qpositive_zero (q : Q) : (q == 0)%Q → Qpositive q = false.
Proof.
  intros Hq. destruct (Qpositive q) eqn:Hp; [|done].
  apply Qpositive_spec in Hp. rewrite Hq in Hp. by apply Qlt_irrefl in Hp.
Qed.

Lemma price_token0_to_token1_zero (p : Pool) :
  (reserve0 p == 0)%Q ∨ (reserve1 p == 0)%Q →
  (price_token0_to_token1 p == 0)%Q.
Proof.
  unfold price_token0_to_token1. intros Hz.
  destruct (Qeq_bool (reserve0 p) 0) eqn:H0; [reflexivity|].
  destruct Hz as [Hz|Hz].
  - apply Qeq_bool_neq in H0. done.
  - rewrite Hz. unfold Qdiv. by rewrite !Qmult_0_l.
Qed.

Lemma price_token1_to_token0_zero (p : Pool) :
  (reserve0 p == 0)%Q ∨ (reserve1 p == 0)%Q →
  (price_token1_to_token0 p == 0)%Q.
Proof.
  unfold price_token1_to_token0. intros Hz.
  destruct (Qeq_bool (reserve1 p) 0) eqn:H0; [reflexivity|].
  destruct Hz as [Hz|Hz].
  - rewrite Hz. unfold Qdiv. by rewrite !Qmult_0_l.
  - apply Qeq_bool_neq in H0. done.
Qed.

Section BuildGraph.
Context {W : Type} (neg_log : Q → W).

(** The graph is a function of the pools as the updates left them. *)
Lemma build_loop_graph update pools nodes edges log nodes' edges' pools' log' :
  build_loop neg_log update pools nodes edges log
    = (Ok (nodes', edges'), pools', log') →
  edges' = edges ++ concat (pool_edges neg_log <$> filter valid pools') ∧
  nodes' = nodes ∪
    ⋃ ((λ p, {[token0 p; token1 p]}) <$> filter valid pools').
Proof.
  revert nodes edges log nodes' edges' pools' log'.
  induction pools as [|p ps IH];
    intros nodes edges log nodes' edges' pools' log' Hb; simpl in Hb.
  - injection Hb as <- <- <- <-. simpl. rewrite app_nil_r.
    split; [done|]. set_solver.
  - destruct (update (p, log)) as [[[]|e|] [p1 log1]];
      [|discriminate Hb..].
    destruct (is_valid p1) eqn:Hv.
    + destruct (build_loop _ _ ps _ _ log1) as [[r ps1] log2] eqn:Hrec.
      simplify_eq. apply IH in Hrec as [-> ->].
      rewrite filter_cons_True by done. simpl.
      rewrite <- app_assoc. split; [done|]. set_solver.
    + destruct (build_loop _ _ ps _ _ log1) as [[r ps1] log2] eqn:Hrec.
      simplify_eq. apply IH in Hrec as [-> ->].
      rewrite filter_cons_False; [done|]. unfold valid. congruence.
Qed.

Lemma pool_edges_by_price (p : Pool) :
  pool_edges neg_log p =
    (if Qlt_le_dec 0 (price_token0_to_token1 p)
     then [(token0 p, token1 p, neg_log (price_token0_to_token1 p), p)]
     else []) ++
    (if Qlt_le_dec 0 (price_token1_to_token0 p)
     then [(token1 p, token0 p, neg_log (price_token1_to_token0 p), p)]
     else []).
Proof.
  unfold pool_edges. f_equal.
  - destruct (Qlt_le_dec 0 (price_token0_to_token1 p)) as [Hlt|Hle].
    + apply Qpositive_spec in Hlt. by rewrite Hlt.
    + destruct (Qpositive _) eqn:Hp; [|done].
      apply Qpositive_spec in Hp. exfalso. by eapply Qlt_not_le.
  - destruct (Qlt_le_dec 0 (price_token1_to_token0 p)) as [Hlt|Hle].
    + apply Qpositive_spec in Hlt. by rewrite Hlt.
    + destruct (Qpositive _) eqn:Hp; [|done].
      apply Qpositive_spec in Hp. exfalso. by eapply Qlt_not_le.
Qed.

Lemma pool_edges_zero_reserve (p : Pool) :
  (reserve0 p == 0)%Q ∨ (reserve1 p == 0)%Q → pool_edges neg_log p = [].
Proof.
  intros Hz. unfold pool_edges.
  rewrite (Qpositive_zero _ (price_token0_to_token1_zero p Hz)).
  by rewrite (Qpositive_zero _ (price_token1_to_token0_zero p Hz)).
Qed.
End BuildGraph.




(** ** An empty pool list *)

(** C9: with an empty pool list either builder returns the empty node set
    and the empty edge list, either detector returns the empty cycle on
    that graph, and the tick ends normally without an event. *)
Theorem empty_pool_list_is_not_an_error {W : Type} `{Weight W}
    (neg_log : Q → W) {G : Type} (exp_neg : W → G) (verbose : bool)
    (chain : Chain) (seen : gset string) (log : list rpc) :
  ArbitrageBot.build_rate_graph neg_log chain [] log
    = (Ok (∅, []), [], log) ∧
  DiscoveryBot.build_graph neg_log chain [] log = (Ok (∅, []), [], log) ∧
  ArbitrageBot.find_negative_cycle 0 (elements (∅ : gset token))
    ([] : list (@edge W Pool)) = Ok ([], []) ∧
  DiscoveryBot.find_negative_cycle 0 (elements (∅ : gset token))
    ([] : list (@edge W Pool)) = Ok ([], []) ∧
  ArbitrageBot.tick neg_log exp_neg chain (mkState [] seen log)
    = (Ok [], mkState [] seen log) ∧
  DiscoveryBot.tick neg_log exp_neg verbose
      (DiscoveryBot.mkEnv chain (Returned [])) (mkState [] seen log)
    = (Ok [], mkState [] seen log).
Proof.
  split; [reflexivity|]. split; [reflexivity|].
  unfold ArbitrageBot.tick, DiscoveryBot.tick, DiscoveryBot.tick_detect,
    DiscoveryBot.tick_build.
  simpl. rewrite elements_empty. repeat split.
Qed.

(** ** Pool methods come back *)

Lemma ret_returns {A : Type} (a : A) : m_returns (ret a).
Proof. by intros s. Qed.

Lemma self_returns : m_returns self.
Proof. by intros s. Qed.

Lemma assign_returns (f : Pool → Pool) : m_returns (assign f).
Proof. by intros s. Qed.

Lemma raise_returns {A : Type} (e : exn) : m_returns (raise (A := A) e).
Proof. by intros s. Qed.

Lemma remote_returns {A : Type} (r : rpc) (x : answer A) :
  m_returns (remote r x).
Proof. intros s. unfold remote. simpl. by destruct x. Qed.

Lemma bind_m_returns {A B : Type} (m : M A) (k : A → M B) :
  m_returns m → (∀ a, m_returns (k a)) → m_returns (bind m k).
Proof.
  intros Hm Hk s. unfold bind. specialize (Hm s).
  destruct (m s) as [[a|e|] s']; simpl in *; [apply Hk|done|done].
Qed.

Lemma try_except_returns {A : Type} (caught : exn → bool)
    (body handler : M A) :
  m_returns body → m_returns handler →
  m_returns (try_except caught body handler).
Proof.
  intros Hb Hh s. unfold try_except. specialize (Hb s).
  destruct (body s) as [[a|e|] s']; simpl in *; [done| |done].
  destruct (caught e); [apply Hh|done].
Qed.

#[local] Hint Resolve ret_returns self_returns assign_returns raise_returns
  remote_returns : returns.

Ltac m_returns_step :=
  repeat first
    [ apply bind_m_returns; [|intros ?]
    | apply try_except_returns
    | progress auto with returns ].

Lemma arb_fetch_token_info_returns chain t :
  m_returns (ArbitrageBot.fetch_token_info chain t).
Proof. unfold ArbitrageBot.fetch_token_info. m_returns_step. Qed.

Lemma arb_decimals_of_returns d : m_returns (ArbitrageBot.decimals_of d).
Proof. destruct d; simpl; auto with returns. Qed.

#[local] Hint Resolve arb_fetch_token_info_returns arb_decimals_of_returns
  : returns.

Lemma arb_update_returns (chain : Chain) :
  m_returns (ArbitrageBot.update_tokens_and_reserves chain).
Proof.
  unfold ArbitrageBot.update_tokens_and_reserves. m_returns_step.
  destruct (negb (is_valid a)); m_returns_step.
  - unfold ArbitrageBot.resolve_tokens. m_returns_step.
    destruct (token0 a0); m_returns_step.
  - destruct a0; m_returns_step.
Qed.

Lemma disc_fetch_token_info_returns chain t :
  m_returns (DiscoveryBot.fetch_token_info chain t).
Proof. unfold DiscoveryBot.fetch_token_info. m_returns_step. Qed.

#[local] Hint Resolve disc_fetch_token_info_returns : returns.

Lemma disc_update_returns (chain : Chain) :
  m_returns (DiscoveryBot.update chain).
Proof.
  unfold DiscoveryBot.update. m_returns_step.
  destruct (negb (is_valid a)); m_returns_step.
  - destruct (token0 a); m_returns_step.
  - destruct a0; m_returns_step.
Qed.

Lemma build_loop_returns {W : Type} (neg_log : Q → W) (update : M unit)
    pools nodes edges log :
  m_returns update →
  (build_loop neg_log update pools nodes edges log).1.1 ≠ OutOfFuel.
Proof.
  intros Hu. revert nodes edges log.
  induction pools as [|p ps IH]; intros nodes edges log; simpl; [done|].
  specialize (Hu (p, log)).
  destruct (update (p, log)) as [[[]|e|] [p1 log1]]; simpl in *; [|done..].
  destruct (is_valid p1).
  - specialize (IH (nodes ∪ {[token0 p1; token1 p1]})
                   (edges ++ pool_edges neg_log p1) log1).
    by destruct (build_loop _ _ ps _ _ log1) as [[r ps1] log2].
  - specialize (IH nodes edges log1).
    by destruct (build_loop _ _ ps _ _ log1) as [[r ps1] log2].
Qed.

Lemma join_returns sep l : join sep l ≠ OutOfFuel.
Proof.
  induction l as [|[t|] l IH]; simpl; [done| |done].
  destruct l as [|t' l]; [done|]. by apply bind_returns.
Qed.

Lemma first_edge_weight_returns {W P : Type} cyc (edges : list (@edge W P)) :
  first_edge_weight cyc edges ≠ OutOfFuel.
Proof.
  induction edges as [|[[[u v] w] p] es IH]; simpl; [done|].
  returns_step. destruct (decide (u = a)); [|done].
  returns_step. by destruct (decide (v = a0)).
Qed.

(** ** The discovery monitor outlives every tick *)

Section DiscoverySurvives.
Context {W : Type} `{Weight W} (neg_log : Q → W).
Context {G : Type} (exp_neg : W → G) (verbose : bool).

Lemma disc_report_returns cyc cycp edges seen :
  (DiscoveryBot.report exp_neg verbose cyc cycp edges seen).1 ≠ OutOfFuel.
Proof.
  unfold DiscoveryBot.report. destruct cyc as [|t cyc]; [done|].
  pose proof (join_returns "→" (t :: cyc)) as Hj.
  destruct (join "→" (t :: cyc)) as [key|e|]; [|done..].
  destruct (negb _ || verbose); [|done].
  unfold emit_opportunity. simpl.
  apply bind_returns; [apply first_edge_weight_returns|done].
Qed.

Lemma disc_tick_returns env st :
  (DiscoveryBot.tick neg_log exp_neg verbose env st).1 ≠ OutOfFuel.
Proof.
  unfold DiscoveryBot.tick, DiscoveryBot.tick_detect.
  destruct (DiscoveryBot.tick_build neg_log env (st_log st))
    as [[g ps] log'] eqn:Hb.
  assert (Hg : g ≠ OutOfFuel).
  { unfold DiscoveryBot.tick_build in Hb.
    destruct (DiscoveryBot.env_addresses env) as [addrs|e]; [|by simplify_eq].
    pose proof (build_loop_returns neg_log
      (DiscoveryBot.update (DiscoveryBot.env_chain env))
      (new_pool <$> addrs) ∅ []
      (st_log st) (disc_update_returns _)) as Hr.
    unfold DiscoveryBot.build_graph in Hb. rewrite Hb in Hr. done. }
  destruct g as [[nodes edges]|e|]; [|done..]. simpl.
  pose proof (disc_find_returns (elements nodes) edges
                (length (elements nodes)) (le_n _)) as Hf.
  destruct (DiscoveryBot.find_negative_cycle _ _ _) as [[cyc cycp]|e|];
    [|done..].
  simpl. pose proof (disc_report_returns cyc cycp edges (st_seen st)) as Hr.
  by destruct (DiscoveryBot.report _ _ _ _ _ _) as [r seen].
Qed.

Lemma sleeps_app (t1 t2 : list (event G)) :
  sleeps (t1 ++ t2) = sleeps t1 + sleeps t2.
Proof. unfold sleeps. by rewrite filter_app, length_app. Qed.

Lemma sleeps_events_of_tick (evs : list (event G)) :
  Forall (λ ev, is_sleep ev = false) evs → sleeps evs = 0.
Proof.
  induction 1 as [|ev evs Hev _ IH]; [done|].
  unfold sleeps in *. rewrite filter_cons_False by congruence. done.
Qed.

Lemma disc_tick_events env st evs st' :
  DiscoveryBot.tick neg_log exp_neg verbose env st = (Ok evs, st') →
  Forall (λ ev, is_sleep ev = false) evs.
Proof.
  unfold DiscoveryBot.tick.
  destruct (DiscoveryBot.tick_detect _ _ _) as [[[[cyc cycp] edges]|e|] log];
    intros Ht; [|by simplify_eq..].
  destruct (DiscoveryBot.report _ _ _ _ _ _) as [r seen] eqn:Hr.
  simplify_eq. unfold DiscoveryBot.report in Hr.
  destruct cyc as [|t cyc]; [by simplify_eq|].
  destruct (join _ _) as [key|e|]; [|by simplify_eq..].
  destruct (negb _ || verbose); [|by simplify_eq].
  unfold emit_opportunity in Hr. simplify_eq.
  destruct (first_edge_weight _ _) as [w|e|]; simpl in *; simplify_eq.
  by repeat constructor.
Qed.

(** Whatever the ticks do, the loop is still running after the last one
    and has slept once per tick. *)
Lemma discovery_monitor_survives envs st trace :
  let r := DiscoveryBot.monitor_loop neg_log exp_neg verbose envs st trace in
  r.2 = Running ∧ sleeps r.1.1 = sleeps trace + length envs.
Proof.
  revert st trace. induction envs as [|env envs IH]; intros st trace; simpl.
  - split; [done|lia].
  - pose proof (disc_tick_returns env st) as Hr.
    destruct (DiscoveryBot.tick neg_log exp_neg verbose env st)
      as [[evs|e|] st'] eqn:Ht; [| |done].
    + destruct (IH st' (trace ++ evs ++ [Sleep])) as [Hs Hn].
      split; [done|]. rewrite Hn, !sleeps_app.
      rewrite (sleeps_events_of_tick evs) by (by eapply disc_tick_events).
      unfold sleeps at 2. simpl. lia.
    + destruct (IH st' (trace ++ [LoggedException e; Sleep])) as [Hs Hn].
      split; [done|]. rewrite Hn, sleeps_app.
      unfold sleeps at 2. simpl. lia.
Qed.
End DiscoverySurvives.

(** ** Invalid pools *)

Lemma arb_update_invalid chain p log :
  is_valid p = false →
  ArbitrageBot.update_tokens_and_reserves chain (p, log) = (Ok tt, (p, log)).
Proof.
  intros Hv. unfold ArbitrageBot.update_tokens_and_reserves, bind, self.
  simpl. by rewrite Hv.
Qed.

Section InvalidPool.
Context {W : Type} (neg_log : Q → W) (update : M unit).
Hypothesis update_invalid :
  ∀ p log, is_valid p = false → update (p, log) = (Ok tt, (p, log)).

(** A pool marked invalid is transparent to the builder: same graph, same
    calls as without it, and the pool itself is left as it was. *)
Lemma invalid_pool_transparent ps1 p ps2 nodes edges log :
  is_valid p = false →
  build_loop neg_log update (ps1 ++ p :: ps2) nodes edges log =
    let '(r, ps', log') :=
      build_loop neg_log update (ps1 ++ ps2) nodes edges log in
    (r, take (length ps1) ps' ++ p :: drop (length ps1) ps', log').
Proof.
  intros Hv. revert nodes edges log.
  induction ps1 as [|a ps1 IH]; intros nodes edges log; simpl.
  - rewrite (update_invalid _ _ Hv), Hv.
    by destruct (build_loop _ _ ps2 _ _ log) as [[r ps'] log'].
  - destruct (update (a, log)) as [[[]|e|] [a' log1]].
    + destruct (is_valid a'); rewrite IH;
        by destruct (build_loop _ _ (ps1 ++ ps2) _ _ log1) as [[r ps'] log'].
    + cbn [take drop]. by rewrite take_app_length, drop_app_length.
    + cbn [take drop]. by rewrite take_app_length, drop_app_length.
Qed.
End InvalidPool.

(** In [arbitrage_bot.py] the pool objects outlive the tick, so a pool
    marked invalid stays out of every later graph and is never called
    again. *)
Lemma arb_invalid_pool_stays_out {W : Type} (neg_log : Q → W) chain
    ps1 p ps2 log :
  is_valid p = false →
  ArbitrageBot.build_rate_graph neg_log chain (ps1 ++ p :: ps2) log =
    let '(r, ps', log') :=
      ArbitrageBot.build_rate_graph neg_log chain (ps1 ++ ps2) log in
    (r, take (length ps1) ps' ++ p :: drop (length ps1) ps', log').
Proof.
  intros Hv. unfold ArbitrageBot.build_rate_graph.
  apply invalid_pool_transparent; [|done].
  intros. by apply arb_update_invalid.
Qed.

(** C2 fails on the code of [arbitrage_discovery_bot.py]: its monitor makes
    new pool objects on every tick, so the invalid mark of tick 1 is gone
    on tick 2.  The pair P does not answer [token0()] on tick 1 and is
    marked invalid; on tick 2 the calls are made again and P contributes
    two nodes and two edges.  [arbitrage_bot.py] on the same answers makes
    no call and builds the empty graph. *)
Theorem discovery_bot_retries_invalid_pool :
  ∃ p1 p2 e1 e2 log2,
    DiscoveryBot.tick_build neg_log_price
        (tick_env silent_chain ["P"%string]) []
      = (Ok (∅, []), [p1], [RpcToken0 "P"]) ∧
    is_valid p1 = false ∧ pool_address p1 = "P"%string ∧
    DiscoveryBot.tick_build neg_log_price (tick_env late_chain ["P"%string])
        [RpcToken0 "P"]
      = (Ok ({[tok "A"; tok "B"]}, [e1; e2]), [p2], RpcToken0 "P" :: log2) ∧
    is_valid p2 = true ∧ pool_address p2 = "P"%string ∧
    RpcToken0 "P" ∈ log2 ∧ RpcGetReserves "P" ∈ log2 ∧
    backing e1 = p2 ∧ backing e2 = p2 ∧
    ArbitrageBot.build_rate_graph neg_log_price late_chain [p1]
        [RpcToken0 "P"]
      = (Ok (∅, []), [p1], [RpcToken0 "P"]).
Proof.
  eexists _, _, _, _, _.
  split; [vm_compute; reflexivity|].
  split; [reflexivity|]. split; [reflexivity|].
  split; [vm_compute; reflexivity|].
  split; [reflexivity|]. split; [reflexivity|].
  split; [apply (bool_decide_unpack _); by vm_compute|].
  split; [apply (bool_decide_unpack _); by vm_compute|].
  split; [reflexivity|]. split; [reflexivity|].
  vm_compute. reflexivity.
Qed.

(** ** Exceptions during a tick *)

(** C3 fails on the code of [arbitrage_bot.py]: nothing in
    [monitor_arbitrage] catches an exception.  With an unreachable provider
    on the first tick the loop ends with [TransportError] before it ever
    sleeps and the second tick never runs; with two pools disagreeing on
    one pair it ends with [IndexError] on [cycle_tokens[1]].
    [arbitrage_discovery_bot.py] on the same ticks logs the exception,
    sleeps and goes on. *)
Theorem arbitrage_bot_monitor_dies_on_exception :
  let addrs := ["P1"; "P2"; "P3"]%string in
  (arb_monitor addrs [down_chain; triangle_chain]).1.1 = [] ∧
  (arb_monitor addrs [down_chain; triangle_chain]).2 = Died TransportError ∧
  (arb_monitor ["P1"; "P2"]%string [two_pool_chain; two_pool_chain]).2
    = Died IndexError ∧
  (∃ key gain pools,
     (disc_monitor false
        [tick_env down_chain addrs; tick_env triangle_chain addrs]).1.1
     = [LoggedException TransportError; Sleep;
        Opportunity key gain pools; Sleep]) ∧
  (disc_monitor false
     [tick_env down_chain addrs; tick_env triangle_chain addrs]).2 = Running.
Proof.
  split; [vm_compute; reflexivity|]. split; [vm_compute; reflexivity|].
  split; [vm_compute; reflexivity|]. split; [|vm_compute; reflexivity].
  eexists _, _, _. vm_compute. reflexivity.
Qed.

(** ** The reported gain *)

(** C1 fails on the code: both monitors take the weight of the first edge
    from [cyc[0]] to [cyc[1]] only.  On scenario A the cycle found is
    B → C → A → B; the gain reported is the fee-adjusted price of the hop
    B → C alone, 1.4955, where the product around the cycle is
    1.994 × 1.4955 × 0.3988, about 1.1892. *)
Theorem reported_gain_is_first_hop_only :
  let addrs := ["P1"; "P2"; "P3"]%string in
  ∃ p2 p3 p1,
    (arb_monitor addrs [triangle_chain]).1.1
      = [Opportunity "B → C → A → B" (2991 # 2000) [p2; p3; p1];
         Sleep] ∧
    (disc_monitor false [tick_env triangle_chain addrs]).1.1
      = [Opportunity "B→C→A→B" (2991 # 2000) [p2; p3; p1]; Sleep] ∧
    (token0 p2, token1 p2) = (tok "B", tok "C") ∧
    (token0 p3, token1 p3) = (tok "C", tok "A") ∧
    (token0 p1, token1 p1) = (tok "A", tok "B") ∧
    (price_token0_to_token1 p2 == 2991 # 2000)%Q ∧
    (price_token0_to_token1 p2 * price_token0_to_token1 p3 *
     price_token0_to_token1 p1 == 2973080919 # 2500000000)%Q ∧
    ¬ (2991 # 2000 == 2973080919 # 2500000000)%Q.
Proof.
  eexists _, _, _.
  split; [vm_compute; reflexivity|]. split; [vm_compute; reflexivity|].
  split; [reflexivity|]. split; [reflexivity|]. split; [reflexivity|].
  split; [reflexivity|]. split; [reflexivity|].
  intros Hq. vm_compute in Hq. discriminate Hq.
Qed.

(** ** Deduplication of findings *)

Section FirstHop.
Context {W : Type} `{Weight W} {P : Type}.
Context (nodes : list token) (E : list (@edge W P)).

Lemma extract_cycle_pools_nonempty fuel (parent : parent_t P) start c
    toks pls :
  1 ≤ c → piter c parent start = Some start →
  extract_cycle fuel (idx_to_token nodes) parent start = Ok (toks, pls) →
  pls ≠ [].
Proof.
  intros Hc Hloop Hx. unfold extract_cycle in Hx. inv_res.
  destruct x as [toks2 pls2]. inv_res. subst toks pls.
  apply collect_spec in H0 as (t2 & p2 & fin & Heq & Hch & Hfin).
  simpl in Heq. simplify_eq. intros Hnil.
  apply (f_equal reverse) in Hnil. rewrite reverse_involutive in Hnil.
  simpl in Hnil. subst p2.
  destruct (pchain_piter _ _ _ _ _ _ Hch) as [Hl _].
  destruct t2; [|done]. inversion Hch; subst.
  destruct Hfin as [[? _]|Hnone]; [done|].
  destruct c as [|c]; [lia|]. simpl in Hloop. unfold pstep in Hloop.
  by rewrite Hnone in Hloop.
Qed.

Lemma disc_find_pools_nonempty fuel toks pls :
  DiscoveryBot.find_negative_cycle fuel nodes E = Ok (toks, pls) →
  toks ≠ [] → pls ≠ [].
Proof.
  unfold DiscoveryBot.find_negative_cycle,
    DiscoveryBot.find_negative_cycle_passes.
  intros Hf Hne. inv_res. destruct x0 as [[dist parent] k]. inv_res.
  subst x. simpl in Hf. subst x0.
  eapply disc_relax_loop_inv in H1 as [_ Hp];
    [|by eapply token_to_idx_lt|by rewrite length_replicate
     |apply parent_ok_init].
  apply scan_spec in H2 as [[-> _]|(vi & start & Hvi & Hb & Hx)]; [done|].
  apply disc_walk_back_spec in Hb.
  destruct (piter_lands_on_loop _ _ _ _ (parent_range nodes E _ Hp) Hvi Hb)
    as (c & Hc & Hloop).
  eapply extract_cycle_pools_nonempty; [|done..]. lia.
Qed.

Lemma first_edge_weight_Ok toks u v w p :
  toks !! 0 = Some u → toks !! 1 = Some v → (u, v, w, p) ∈ E →
  ∃ w', first_edge_weight toks E = Ok w'.
Proof.
  intros H0 H1 Hin. induction E as [|[[[u' v'] w'] p'] es IH];
    [by inversion Hin|].
  simpl. unfold list_get. rewrite H0. simpl.
  destruct (decide (u' = u)) as [->|Hu].
  - rewrite H1. simpl. destruct (decide (v' = v)) as [->|Hv]; [eauto|].
    apply IH. apply elem_of_cons in Hin as [?|?]; [congruence|done].
  - apply IH. apply elem_of_cons in Hin as [?|?]; [congruence|done].
Qed.

(** The gain of a non-empty answer of the discovery detector can always
    be computed. *)
Lemma disc_first_edge_weight fuel toks pls :
  DiscoveryBot.find_negative_cycle fuel nodes E = Ok (toks, pls) →
  toks ≠ [] → ∃ w, first_edge_weight toks E = Ok w.
Proof.
  intros Hf Hne.
  pose proof (disc_find_pools_nonempty _ _ _ Hf Hne) as Hp.
  destruct (disc_find_shape nodes E _ _ _ Hf Hne) as (_ & _ & Hhop).
  destruct pls as [|p pls]; [done|].
  destruct (Hhop 0 p eq_refl) as (u & v & w & Hu & Hv & Hin).
  by eapply first_edge_weight_Ok.
Qed.
End FirstHop.

Section Dedup.
Context {W : Type} `{Weight W} (neg_log : Q → W).
Context {G : Type} (exp_neg : W → G) (verbose : bool).

Lemma opportunities_app key (t1 t2 : list (event G)) :
  opportunities key (t1 ++ t2) = opportunities key t1 + opportunities key t2.
Proof. unfold opportunities. by rewrite filter_app, length_app. Qed.

(** A tick that finds [key] reports it when it is new or when verbose
    reporting is on, and then knows it. *)
Lemma disc_tick_finds env key st :
  finds neg_log env key →
  ∃ evs st',
    DiscoveryBot.tick neg_log exp_neg verbose env st = (Ok evs, st') ∧
    opportunities key (evs ++ [Sleep]) =
      (if negb (bool_decide (key ∈ st_seen st)) || verbose then 1 else 0) ∧
    key ∈ st_seen st'.
Proof.
  intros Hf. destruct (Hf (st_log st))
    as (cyc & cycp & edges & log' & Hd & Hne & Hkey).
  unfold DiscoveryBot.tick. rewrite Hd.
  assert (Hw : ∃ w, first_edge_weight cyc edges = Ok w).
  { unfold DiscoveryBot.tick_detect in Hd.
    destruct (DiscoveryBot.tick_build neg_log env (st_log st))
      as [[g ps] l]. simplify_eq. inv_res. destruct x as [nodes es].
    inv_res. destruct x as [c cp]. inv_res. simplify_eq.
    by eapply disc_first_edge_weight. }
  destruct Hw as [w Hw].
  unfold DiscoveryBot.report. destruct cyc as [|t cyc]; [done|].
  rewrite Hkey.
  destruct (bool_decide (key ∈ st_seen st)) eqn:Hseen; simpl.
  - apply bool_decide_eq_true in Hseen. destruct verbose.
    + unfold emit_opportunity. rewrite Hw. simpl.
      eexists _, _. split; [done|]. simpl. split; [|set_solver].
      unfold opportunities. simpl.
      rewrite filter_cons_True by (simpl; by rewrite bool_decide_eq_true).
      rewrite filter_cons_False by done. done.
    + eexists _, _. split; [done|]. split; [done|]. done.
  - unfold emit_opportunity. rewrite Hw. simpl.
    eexists _, _. split; [done|]. simpl. split; [|set_solver].
    unfold opportunities. simpl.
    rewrite filter_cons_True by (simpl; by rewrite bool_decide_eq_true).
    rewrite filter_cons_False by done. done.
Qed.

Lemma disc_monitor_loop_dedup envs key st trace :
  Forall (λ env, finds neg_log env key) envs →
  opportunities key
    (DiscoveryBot.monitor_loop neg_log exp_neg verbose envs st trace).1.1
  = opportunities key trace +
    (if verbose then length envs
     else if bool_decide (key ∈ st_seen st) then 0
     else Nat.min 1 (length envs)).
Proof.
  intros Hall. revert st trace.
  induction Hall as [|env envs Hf _ IH]; intros st trace; simpl.
  - destruct verbose; [lia|]. destruct (bool_decide _); lia.
  - destruct (disc_tick_finds env key st Hf) as (evs & st' & -> & Hn & Hin).
    rewrite IH. rewrite opportunities_app, Hn.
    rewrite (bool_decide_eq_true_2 _ Hin).
    destruct verbose.
    + rewrite orb_true_r. lia.
    + rewrite orb_false_r. destruct (bool_decide (key ∈ st_seen st));
        simpl; lia.
Qed.
End Dedup.

(** [arbitrage_bot.py] has the non-verbose branch only: a signature already
    seen is not reported, a new one is reported once its gain is computed. *)
Lemma arb_report_dedup {W G : Type} (exp_neg : W → G) cyc cycp
    (edges : list (@edge W Pool)) seen key w :
  cyc ≠ [] → join " → " cyc = Ok key →
  first_edge_weight cyc edges = Ok w →
  ArbitrageBot.report exp_neg cyc cycp edges seen =
    if bool_decide (key ∈ seen) then (Ok [], seen)
    else (Ok [Opportunity key (exp_neg w) cycp], {[key]} ∪ seen).
Proof.
  intros Hne Hkey Hw. unfold ArbitrageBot.report.
  destruct cyc as [|t cyc]; [done|]. rewrite Hkey.
  destruct (bool_decide (key ∈ seen)); [done|].
  unfold emit_opportunity. by rewrite Hw.
Qed.



(** * Further properties of the code *)

(** ** Node indices *)

(** X1: for a duplicate-free enumeration the two index dictionaries of the
    detector are inverse bijections between the nodes and the indices
    below [|nodes|]; a token outside the node set has no index. *)
Theorem node_index_round_trip (nodes : list token) :
  NoDup nodes →
  (∀ t, t ∈ nodes →
     ∃ i, i < length nodes ∧ token_to_idx nodes !! t = Some i ∧
          idx_to_token nodes !! i = Some t) ∧
  (∀ i, i < length nodes →
     ∃ t, nodes !! i = Some t ∧ idx_to_token nodes !! i = Some t ∧
          token_to_idx nodes !! t = Some i) ∧
  (∀ t, t ∉ nodes → token_to_idx nodes !! t = None) ∧
  (∀ i, length nodes ≤ i → idx_to_token nodes !! i = None).
Proof.
  intros Hnd. repeat split.
  - intros t (i & Hi)%list_elem_of_lookup. exists i.
    pose proof (token_to_idx_NoDup _ _ _ Hnd Hi) as Hidx.
    split; [by eapply lookup_lt_Some|]. split; [done|].
    by apply idx_to_token_spec.
  - intros i Hi. destruct (lookup_lt_is_Some_2 nodes i Hi) as [t Ht].
    exists t. pose proof (token_to_idx_NoDup _ _ _ Hnd Ht) as Hidx.
    split; [done|]. split; [by apply idx_to_token_spec|done].
  - intros t Hnin. destruct (token_to_idx nodes !! t) as [i|] eqn:Hl; [|done].
    apply token_to_idx_nodes in Hl. exfalso. apply Hnin.
    by eapply list_elem_of_lookup_2.
  - intros i Hi. destruct (idx_to_token nodes !! i) as [t|] eqn:Hl; [|done].
    apply idx_to_token_spec, token_to_idx_lt in Hl. lia.
Qed.

Lemma node_index_round_trip_witness :
  (∀ t, t ∈ triangle_nodes →
     ∃ i, i < length triangle_nodes ∧
          token_to_idx triangle_nodes !! t = Some i ∧
          idx_to_token triangle_nodes !! i = Some t) ∧
  (∀ i, i < length triangle_nodes →
     ∃ t, triangle_nodes !! i = Some t ∧
          idx_to_token triangle_nodes !! i = Some t ∧
          token_to_idx triangle_nodes !! t = Some i) ∧
  (∀ t, t ∉ triangle_nodes → token_to_idx triangle_nodes !! t = None) ∧
  (∀ i, length triangle_nodes ≤ i → idx_to_token triangle_nodes !! i = None).
Proof.
  apply (node_index_round_trip triangle_nodes).
  apply (bool_decide_unpack _). vm_compute. exact I.
Defined.

(** ** Fuel *)

Section Fuel.
Context {W : Type} `{Weight W} {P : Type}.

Lemma bind_fuel_mono {A B : Type} (m1 m2 : res A) (k1 k2 : A → res B) :
  (m1 ≠ OutOfFuel → m2 = m1) →
  (∀ a, m1 = Ok a → k1 a ≠ OutOfFuel → k2 a = k1 a) →
  m1 ≫= k1 ≠ OutOfFuel → m2 ≫= k2 = m1 ≫= k1.
Proof.
  intros Hm Hk Hr. destruct m1 as [a|e|]; [| |done].
  - rewrite Hm by done. simpl in *. by apply Hk.
  - by rewrite Hm.
Qed.

Lemma collect_fuel_mono fuel k inv (parent : parent_t P) start cur toks pls :
  collect fuel inv parent start cur toks pls ≠ OutOfFuel →
  collect (fuel + k) inv parent start cur toks pls
    = collect fuel inv parent start cur toks pls.
Proof.
  revert cur toks pls.
  induction fuel as [|fuel IH]; intros cur toks pls Hr; [done|].
  simpl in *. destruct (list_get parent cur) as [[[prev pl]|]|e|]; try done.
  simpl in *. destruct (dict_get inv cur) as [t|e|]; try done.
  simpl in *. destruct (decide (prev = start)); [done|]. by apply IH.
Qed.

Lemma extract_cycle_fuel_mono fuel k inv (parent : parent_t P) start :
  extract_cycle fuel inv parent start ≠ OutOfFuel →
  extract_cycle (fuel + k) inv parent start
    = extract_cycle fuel inv parent start.
Proof.
  unfold extract_cycle. intros Hr. apply bind_fuel_mono; [|done..].
  apply collect_fuel_mono.
Qed.

Lemma scan_fuel_mono back fuel k idx inv (dist : list W)
    (parent : parent_t P) (es : list (@edge W P)) :
  scan back fuel idx inv dist parent es ≠ OutOfFuel →
  scan back (fuel + k) idx inv dist parent es
    = scan back fuel idx inv dist parent es.
Proof.
  induction es as [|e es IH]; simpl; [done|].
  destruct (relaxes idx dist e) as [[|]|err|]; simpl; try done.
  destruct (dict_get idx e.1.1.2) as [vi|err|]; simpl; try done.
  destruct (back parent vi) as [s|err|]; simpl; try done.
  apply extract_cycle_fuel_mono.
Qed.

Lemma arb_find_fuel_mono fuel k nodes (E : list (@edge W P)) :
  ArbitrageBot.find_negative_cycle fuel nodes E ≠ OutOfFuel →
  ArbitrageBot.find_negative_cycle (fuel + k) nodes E
    = ArbitrageBot.find_negative_cycle fuel nodes E.
Proof.
  unfold ArbitrageBot.find_negative_cycle,
    ArbitrageBot.find_negative_cycle_passes.
  destruct (ArbitrageBot.relax_loop _ _ _ _ _ _) as [[[dist parent] n]|e|];
    simpl; try done.
  intros Hr.
  rewrite scan_fuel_mono; [done|].
  by destruct (scan _ fuel _ _ _ _ _).
Qed.

Lemma disc_find_fuel_mono fuel k nodes (E : list (@edge W P)) :
  DiscoveryBot.find_negative_cycle fuel nodes E ≠ OutOfFuel →
  DiscoveryBot.find_negative_cycle (fuel + k) nodes E
    = DiscoveryBot.find_negative_cycle fuel nodes E.
Proof.
  unfold DiscoveryBot.find_negative_cycle,
    DiscoveryBot.find_negative_cycle_passes.
  destruct (DiscoveryBot.relax_loop _ _ _ _ _ _) as [[[dist parent] n]|e|];
    simpl; try done.
  intros Hr.
  rewrite scan_fuel_mono; [done|].
  by destruct (scan _ fuel _ _ _ _ _).
Qed.
End Fuel.

(** X2: the [while True] loop that collects the cycle always ends, within
    [|nodes|] rounds: with that much fuel neither detector runs out, on any
    node list and edge list, and more fuel does not change the answer. *)
Theorem detector_terminates {W : Type} `{Weight W} {P : Type}
    (fuel : nat) (nodes : list token) (E : list (@edge W P)) :
  length nodes ≤ fuel →
  ArbitrageBot.find_negative_cycle fuel nodes E ≠ OutOfFuel ∧
  DiscoveryBot.find_negative_cycle fuel nodes E ≠ OutOfFuel ∧
  ArbitrageBot.find_negative_cycle fuel nodes E
    = ArbitrageBot.find_negative_cycle (length nodes) nodes E ∧
  DiscoveryBot.find_negative_cycle fuel nodes E
    = DiscoveryBot.find_negative_cycle (length nodes) nodes E.
Proof.
  intros Hf. split; [by apply arb_find_returns|].
  split; [by apply disc_find_returns|].
  replace fuel with (length nodes + (fuel - length nodes)) by lia.
  split.
  - apply arb_find_fuel_mono. by apply arb_find_returns.
  - apply disc_find_fuel_mono. by apply disc_find_returns.
Qed.

Lemma detector_terminates_witness :
  ArbitrageBot.find_negative_cycle 7 triangle_nodes triangle_edges
    = ArbitrageBot.find_negative_cycle 3 triangle_nodes triangle_edges.
Proof.
  destruct (detector_terminates 7 triangle_nodes triangle_edges)
    as (_ & _ & Heq & _); [simpl; lia|exact Heq].
Defined.

(** ** The early exit of the relaxation loop *)

Section EarlyExit.
Context {W : Type} `{Weight W} {P : Type}.
Context (idx : gmap token nat).
Implicit Types (es E : list (@edge W P)) (parent : parent_t P).

Lemma relax_edge_of_relaxes dist parent b (e : @edge W P) :
  relaxes idx dist e = Ok false →
  relax_edge idx (dist, parent, b) e = Ok (dist, parent, b).
Proof.
  destruct e as [[[u v] w] pool]. simpl. intros Hr.
  destruct (dict_get idx u) as [ui|?|]; simpl in *; try done.
  destruct (dict_get idx v) as [vi|?|]; simpl in *; try done.
  destruct (list_get dist ui) as [du|?|]; simpl in *; try done.
  destruct (list_get dist vi) as [dv|?|]; simpl in *; try done.
  injection Hr as Hr. by rewrite Hr.
Qed.

Lemma relax_pass_fix es dist parent b :
  (∀ e, e ∈ es → relaxes idx dist e = Ok false) →
  relax_pass idx es (dist, parent, b) = Ok (dist, parent, b).
Proof.
  induction es as [|e es IH]; intros Hq; cbn [relax_pass]; [done|].
  rewrite relax_edge_of_relaxes by (apply Hq; by left).
  cbn [mbind res_bind].
  apply IH. intros e' He'. apply Hq. by right.
Qed.

Lemma disc_relax_loop_fix n E dist parent k :
  (∀ e, e ∈ E → relaxes idx dist e = Ok false) →
  DiscoveryBot.relax_loop n idx E dist parent k = Ok (dist, parent, k + n).
Proof.
  intros Hq. revert k.
  induction n as [|n IH]; intros k; cbn [DiscoveryBot.relax_loop].
  - by rewrite Nat.add_0_r.
  - rewrite relax_pass_fix by done. cbn [mbind res_bind].
    rewrite IH. do 2 f_equal. lia.
Qed.

Lemma relax_loops_agree n E dist parent k :
  match ArbitrageBot.relax_loop n idx E dist parent k with
  | Ok (dist', parent', k') =>
      DiscoveryBot.relax_loop n idx E dist parent k
        = Ok (dist', parent', k + n) ∧ k' ≤ k + n
  | Raise e => DiscoveryBot.relax_loop n idx E dist parent k = Raise e
  | OutOfFuel => True
  end.
Proof.
  revert dist parent k. induction n as [|n IH]; intros dist parent k; simpl.
  - rewrite Nat.add_0_r. done.
  - destruct (relax_pass idx E (dist, parent, false))
      as [[[d1 p1] b1]|e|] eqn:Hp; simpl; [|done..].
    destruct b1.
    + specialize (IH d1 p1 (S k)).
      destruct (ArbitrageBot.relax_loop n idx E d1 p1 (S k))
        as [[[d2 p2] k2]|e|]; [|done..].
      destruct IH as [-> Hk]. split; [do 2 f_equal; lia|lia].
    + apply relax_pass_quiet in Hp as (-> & -> & Hq).
      rewrite disc_relax_loop_fix by done. split; [do 2 f_equal; lia|lia].
Qed.

Lemma relax_edge_returns_any st (e : @edge W P) :
  relax_edge idx st e ≠ OutOfFuel.
Proof.
  destruct st as [[dist parent] b], e as [[[u v] w] pool]. simpl.
  returns_step. by destruct (wlt _ _).
Qed.

Lemma relax_pass_returns_any es st : relax_pass idx es st ≠ OutOfFuel.
Proof.
  revert st. induction es as [|e es IH]; intros st; simpl; [done|].
  apply bind_returns; [apply relax_edge_returns_any|auto].
Qed.

Lemma arb_relax_loop_returns_any n E dist parent k :
  ArbitrageBot.relax_loop n idx E dist parent k ≠ OutOfFuel.
Proof.
  revert dist parent k. induction n as [|n IH]; intros; simpl; [done|].
  apply bind_returns; [apply relax_pass_returns_any|].
  intros [[d p] b] _. by destruct b.
Qed.

Lemma disc_walk_back_arb n parent v s :
  DiscoveryBot.walk_back n parent v = Ok s →
  ArbitrageBot.walk_back n parent v = Ok s.
Proof.
  revert v. induction n as [|n IH]; intros v; simpl; [done|].
  destruct (list_get parent v) as [[[j pl]|]|e|]; simpl; try done.
  apply IH.
Qed.

Lemma scan_back_agree n fuel inv (dist : list W) parent es r :
  scan (DiscoveryBot.walk_back n) fuel idx inv dist parent es = Ok r →
  scan (ArbitrageBot.walk_back n) fuel idx inv dist parent es = Ok r.
Proof.
  induction es as [|e es IH]; simpl; [done|].
  destruct (relaxes idx dist e) as [[|]|err|]; simpl; try done.
  destruct (dict_get idx e.1.1.2) as [vi|err|]; simpl; try done.
  destruct (DiscoveryBot.walk_back n parent vi) as [s|err|] eqn:Hw;
    simpl; try done.
  by rewrite (disc_walk_back_arb _ _ _ _ Hw).
Qed.
End EarlyExit.

(** X3: the early exit of [arbitrage_bot.py] is an optimisation only:
    whenever its relaxation loop ends normally, the loop of
    [arbitrage_discovery_bot.py], which always runs all [n] passes, ends
    with the same distances and the same predecessors; and an exception of
    the one is an exception of the other. *)
Theorem early_exit_keeps_distances {W : Type} `{Weight W} {P : Type}
    (n : nat) (idx : gmap token nat) (E : list (@edge W P))
    (dist : list W) (parent : parent_t P) :
  match ArbitrageBot.relax_loop n idx E dist parent 0 with
  | Ok (dist', parent', k') =>
      DiscoveryBot.relax_loop n idx E dist parent 0 = Ok (dist', parent', n) ∧
      k' ≤ n
  | Raise e => DiscoveryBot.relax_loop n idx E dist parent 0 = Raise e
  | OutOfFuel => False
  end.
Proof.
  pose proof (relax_loops_agree idx n E dist parent 0) as Ha.
  pose proof (arb_relax_loop_returns_any idx n E dist parent 0) as Hr.
  by destruct (ArbitrageBot.relax_loop n idx E dist parent 0)
    as [[[d p] k]|e|].
Qed.

(** X4: whenever the detector of [arbitrage_discovery_bot.py] returns, the
    detector of [arbitrage_bot.py] returns the same token sequence and the
    same pool sequence on the same node enumeration and edge list. *)
Theorem detectors_agree {W : Type} `{Weight W} {P : Type} (fuel : nat)
    (nodes : list token) (E : list (@edge W P))
    (toks : list token) (pls : list P) :
  DiscoveryBot.find_negative_cycle fuel nodes E = Ok (toks, pls) →
  ArbitrageBot.find_negative_cycle fuel nodes E = Ok (toks, pls).
Proof.
  unfold DiscoveryBot.find_negative_cycle, ArbitrageBot.find_negative_cycle,
    DiscoveryBot.find_negative_cycle_passes,
    ArbitrageBot.find_negative_cycle_passes.
  intros Hd. inv_res. destruct x0 as [[dist parent] k]. inv_res.
  subst x. simpl in Hd. subst x0.
  pose proof (relax_loops_agree (token_to_idx nodes) (length nodes - 1) E
    (replicate (length nodes) wzero) (replicate (length nodes) None) 0) as Ha.
  pose proof (arb_relax_loop_returns nodes E (length nodes - 1)
    (replicate (length nodes) wzero) (replicate (length nodes) None) 0) as Hr.
  destruct (ArbitrageBot.relax_loop _ _ _ _ _ _) as [[[d p] k']|e|];
    [|congruence|done].
  destruct Ha as [Ha _]. rewrite Ha in H1. simplify_eq. simpl.
  by rewrite (scan_back_agree _ _ _ _ _ _ _ _ H2).
Qed.

Lemma detectors_agree_witness :
  ArbitrageBot.find_negative_cycle 3 triangle_nodes triangle_edges
    = Ok ([tok "B"; tok "C"; tok "A"; tok "B"], [2; 3; 1]).
Proof.
  apply (detectors_agree 3 triangle_nodes triangle_edges).
  vm_compute. reflexivity.
Defined.

(** ** No lookup fails on a closed graph *)

Section NeverRaises.
Context {W : Type} `{Weight W} {P : Type}.
Context (nodes : list token) (E : list (@edge W P)).
Hypothesis nodes_NoDup : NoDup nodes.
Hypothesis graph_closed : closed_graph nodes E.

Local Abbreviation idx := (token_to_idx nodes).
Local Abbreviation inv := (idx_to_token nodes).
Local Abbreviation N := (length nodes).

Lemma edge_lookups (dist : list W) u v w pool :
  (u, v, w, pool) ∈ E → length dist = N →
  ∃ ui vi du dv,
    dict_get idx u = Ok ui ∧ dict_get idx v = Ok vi ∧
    list_get dist ui = Ok du ∧ list_get dist vi = Ok dv.
Proof.
  intros He Hl. destruct (graph_closed _ He) as [Hu Hv].
  apply (idx_defined _ nodes_NoDup) in Hu as (ui & Hui & Hlu).
  apply (idx_defined _ nodes_NoDup) in Hv as (vi & Hvi & Hlv).
  unfold src, dst in Hui, Hvi. simpl in Hui, Hvi.
  destruct (lookup_lt_is_Some_2 dist ui) as [du Hdu]; [lia|].
  destruct (lookup_lt_is_Some_2 dist vi) as [dv Hdv]; [lia|].
  exists ui, vi, du, dv. unfold dict_get, list_get.
  by rewrite Hui, Hvi, Hdu, Hdv.
Qed.

Lemma relax_edge_Ok dist (parent : parent_t P) b e :
  e ∈ E → length dist = N → ∃ st', relax_edge idx (dist, parent, b) e = Ok st'.
Proof.
  destruct e as [[[u v] w] pool]. intros He Hl.
  destruct (edge_lookups dist _ _ _ _ He Hl)
    as (ui & vi & du & dv & Hui & Hvi & Hdu & Hdv).
  simpl. rewrite Hui. simpl. rewrite Hvi. simpl. rewrite Hdu. simpl.
  rewrite Hdv. simpl. destruct (wlt _ _); eauto.
Qed.

Lemma relaxes_Ok dist e :
  e ∈ E → length dist = N → ∃ b, relaxes idx dist e = Ok b.
Proof.
  destruct e as [[[u v] w] pool]. intros He Hl.
  destruct (edge_lookups dist _ _ _ _ He Hl)
    as (ui & vi & du & dv & Hui & Hvi & Hdu & Hdv).
  simpl. rewrite Hui. simpl. rewrite Hvi. simpl. rewrite Hdu. simpl.
  rewrite Hdv. simpl. eauto.
Qed.

Lemma idx_lt_N t i : idx !! t = Some i → i < N.
Proof. apply token_to_idx_lt. Qed.

Lemma relax_pass_Ok es dist (parent : parent_t P) b :
  (∀ e, e ∈ es → e ∈ E) → length dist = N → parent_ok idx E N parent →
  ∃ dist' parent' b',
    relax_pass idx es (dist, parent, b) = Ok (dist', parent', b') ∧
    length dist' = N ∧ parent_ok idx E N parent'.
Proof.
  revert dist parent b.
  induction es as [|e es IH]; intros dist parent b Hsub Hl Hp;
    cbn [relax_pass].
  - eauto 10.
  - destruct (relax_edge_Ok dist parent b e) as [[[d1 p1] b1] Hr];
      [apply Hsub; by left|done|].
    rewrite Hr. cbn [mbind res_bind].
    destruct (relax_edge_inv idx E N idx_lt_N _ _ _ _ _ _ _
                (Hsub e ltac:(left)) Hl Hp Hr) as [Hl1 Hp1].
    apply IH; [|done..]. intros e' He'. apply Hsub. by right.
Qed.

Lemma arb_relax_loop_Ok n dist (parent : parent_t P) k :
  length dist = N → parent_ok idx E N parent →
  ∃ dist' parent' k',
    ArbitrageBot.relax_loop n idx E dist parent k = Ok (dist', parent', k') ∧
    length dist' = N ∧ parent_ok idx E N parent'.
Proof.
  revert dist parent k.
  induction n as [|n IH]; intros dist parent k Hl Hp;
    cbn [ArbitrageBot.relax_loop]; [eauto 10|].
  destruct (relax_pass_Ok E dist parent false) as (d1 & p1 & b1 & -> & ? & ?);
    [done..|].
  cbn [mbind res_bind]. destruct b1; [by apply IH|eauto 10].
Qed.

Lemma disc_relax_loop_Ok n dist (parent : parent_t P) k :
  length dist = N → parent_ok idx E N parent →
  ∃ dist' parent' k',
    DiscoveryBot.relax_loop n idx E dist parent k = Ok (dist', parent', k') ∧
    length dist' = N ∧ parent_ok idx E N parent'.
Proof.
  revert dist parent k.
  induction n as [|n IH]; intros dist parent k Hl Hp;
    cbn [DiscoveryBot.relax_loop]; [eauto 10|].
  destruct (relax_pass_Ok E dist parent false) as (d1 & p1 & b1 & -> & ? & ?);
    [done..|].
  cbn [mbind res_bind]. by apply IH.
Qed.

Lemma parent_lookup_Ok (parent : parent_t P) i :
  parent_ok idx E N parent → i < N → ∃ o, list_get parent i = Ok o.
Proof.
  intros [Hl _] Hi. destruct (lookup_lt_is_Some_2 parent i) as [o Ho]; [lia|].
  exists o. unfold list_get. by rewrite Ho.
Qed.

Lemma parent_entry_lt (parent : parent_t P) i j pl :
  parent_ok idx E N parent → list_get parent i = Ok (Some (j, pl)) → j < N.
Proof.
  intros Hp Hg%list_get_Ok. apply (parent_range nodes E parent Hp i j).
  unfold pstep. by rewrite Hg.
Qed.

Lemma arb_walk_back_Ok n (parent : parent_t P) v :
  parent_ok idx E N parent → v < N →
  ∃ s, ArbitrageBot.walk_back n parent v = Ok s ∧ s < N.
Proof.
  intros Hp. revert v. induction n as [|n IH]; intros v Hv; simpl; [eauto|].
  destruct (parent_lookup_Ok parent v Hp Hv) as [[[j pl]|] Ho]; rewrite Ho;
    simpl; [|eauto].
  apply IH. by eapply parent_entry_lt.
Qed.

Lemma disc_walk_back_cases n (parent : parent_t P) v :
  parent_ok idx E N parent → v < N →
  (∃ s, DiscoveryBot.walk_back n parent v = Ok s ∧ s < N) ∨
  DiscoveryBot.walk_back n parent v = Raise TypeError.
Proof.
  intros Hp. revert v. induction n as [|n IH]; intros v Hv; simpl; [eauto|].
  destruct (parent_lookup_Ok parent v Hp Hv) as [[[j pl]|] Ho]; rewrite Ho;
    simpl; [|by right].
  apply IH. by eapply parent_entry_lt.
Qed.

Lemma inv_lookup_Ok i : i < N → ∃ t, dict_get inv i = Ok t.
Proof.
  intros Hi. destruct (lookup_lt_is_Some_2 nodes i Hi) as [t Ht].
  exists t. apply dict_get_Ok, idx_to_token_spec.
  by apply token_to_idx_NoDup.
Qed.

Lemma collect_no_raise fuel (parent : parent_t P) start cur toks pls e :
  parent_ok idx E N parent → cur < N →
  collect fuel inv parent start cur toks pls ≠ Raise e.
Proof.
  intros Hp. revert cur toks pls.
  induction fuel as [|fuel IH]; intros cur toks pls Hc; simpl; [done|].
  destruct (parent_lookup_Ok parent cur Hp Hc) as [[[j pl]|] Ho]; rewrite Ho;
    simpl; [|done].
  destruct (inv_lookup_Ok cur Hc) as [t ->]. simpl.
  destruct (decide (j = start)); [done|].
  apply IH. by eapply parent_entry_lt.
Qed.

Lemma extract_cycle_Ok fuel (parent : parent_t P) start :
  parent_ok idx E N parent → start < N → N ≤ fuel →
  landing_ok nodes parent start →
  ∃ r, extract_cycle fuel inv parent start = Ok r.
Proof.
  intros Hp Hs Hf Hland.
  pose proof (extract_cycle_returns nodes fuel parent start
                ltac:(lia) Hland) as Hret.
  unfold extract_cycle in *.
  pose proof (collect_no_raise fuel parent start start [] []) as Hnr.
  destruct (collect fuel inv parent start start [] []) as [[t p]|e|].
  - simpl. destruct (inv_lookup_Ok start Hs) as [ts ->]. simpl. eauto.
  - by destruct (Hnr e Hp Hs).
  - done.
Qed.

Lemma arb_scan_Ok fuel dist (parent : parent_t P) es :
  (∀ e, e ∈ es → e ∈ E) → length dist = N → parent_ok idx E N parent →
  N ≤ fuel →
  ∃ r, scan (ArbitrageBot.walk_back N) fuel idx inv dist parent es = Ok r.
Proof.
  intros Hsub Hl Hp Hf. induction es as [|e es IH]; simpl; [eauto|].
  destruct (relaxes_Ok dist e) as [b ->]; [apply Hsub; by left|done|].
  simpl. destruct b; [|apply IH; intros e' He'; apply Hsub; by right].
  destruct (graph_closed e) as [_ Hv]; [apply Hsub; by left|].
  apply (idx_defined _ nodes_NoDup) in Hv as (vi & Hvi & Hlv).
  unfold dst in Hvi. rewrite !(proj2 (dict_get_Ok _ _ _) Hvi). simpl.
  destruct (arb_walk_back_Ok N parent vi Hp Hlv) as (s & Hw & Hs).
  rewrite Hw. simpl. apply extract_cycle_Ok; try done.
  exact (arb_landing nodes E parent vi s Hp Hlv Hw).
Qed.

Lemma disc_scan_cases fuel dist (parent : parent_t P) es :
  (∀ e, e ∈ es → e ∈ E) → length dist = N → parent_ok idx E N parent →
  N ≤ fuel →
  (∃ r, scan (DiscoveryBot.walk_back N) fuel idx inv dist parent es = Ok r) ∨
  scan (DiscoveryBot.walk_back N) fuel idx inv dist parent es
    = Raise TypeError.
Proof.
  intros Hsub Hl Hp Hf. induction es as [|e es IH]; simpl; [eauto|].
  destruct (relaxes_Ok dist e) as [b ->]; [apply Hsub; by left|done|].
  simpl. destruct b; [|apply IH; intros e' He'; apply Hsub; by right].
  destruct (graph_closed e) as [_ Hv]; [apply Hsub; by left|].
  apply (idx_defined _ nodes_NoDup) in Hv as (vi & Hvi & Hlv).
  unfold dst in Hvi. rewrite !(proj2 (dict_get_Ok _ _ _) Hvi). simpl.
  destruct (disc_walk_back_cases N parent vi Hp Hlv) as [(s & Hw & Hs)|Hw];
    rewrite Hw; simpl; [|right; reflexivity].
  left. apply extract_cycle_Ok; try done.
  exact (disc_landing nodes E parent vi s Hp Hlv Hw).
Qed.

Lemma arb_find_Ok fuel :
  N ≤ fuel → ∃ r, ArbitrageBot.find_negative_cycle fuel nodes E = Ok r.
Proof.
  intros Hf. unfold ArbitrageBot.find_negative_cycle,
    ArbitrageBot.find_negative_cycle_passes.
  destruct (arb_relax_loop_Ok (N - 1) (replicate N wzero)
              (replicate N None) 0)
    as (dist & parent & k & -> & Hl & Hp);
    [by rewrite length_replicate|apply parent_ok_init|].
  simpl. destruct (arb_scan_Ok fuel dist parent E) as [r ->]; try done.
  simpl. eauto.
Qed.

Lemma disc_find_cases fuel :
  N ≤ fuel →
  (∃ r, DiscoveryBot.find_negative_cycle fuel nodes E = Ok r) ∨
  DiscoveryBot.find_negative_cycle fuel nodes E = Raise TypeError.
Proof.
  intros Hf. unfold DiscoveryBot.find_negative_cycle,
    DiscoveryBot.find_negative_cycle_passes.
  destruct (disc_relax_loop_Ok (N - 1) (replicate N wzero)
              (replicate N None) 0)
    as (dist & parent & k & -> & Hl & Hp);
    [by rewrite length_replicate|apply parent_ok_init|].
  simpl. destruct (disc_scan_cases fuel dist parent E) as [[r ->]| ->];
    try done; simpl; eauto.
Qed.
End NeverRaises.

(** X5: on a graph whose edges join nodes of a duplicate-free node
    enumeration the detector of [arbitrage_bot.py] never raises: every
    dictionary and list lookup succeeds and it returns a pair of lists.
    The detector of [arbitrage_discovery_bot.py] returns as well, or raises
    [TypeError] from the unguarded back-walk, and nothing else. *)
Theorem detector_lookups_never_fail {W : Type} `{Weight W} {P : Type}
    (fuel : nat) (nodes : list token) (E : list (@edge W P)) :
  NoDup nodes → closed_graph nodes E → length nodes ≤ fuel →
  (∃ toks pls, ArbitrageBot.find_negative_cycle fuel nodes E = Ok (toks, pls)) ∧
  ((∃ toks pls,
      DiscoveryBot.find_negative_cycle fuel nodes E = Ok (toks, pls)) ∨
   DiscoveryBot.find_negative_cycle fuel nodes E = Raise TypeError).
Proof.
  intros Hnd Hcl Hf. split.
  - destruct (arb_find_Ok nodes E Hnd Hcl fuel Hf) as [[toks pls] Hr]. eauto.
  - destruct (disc_find_cases nodes E Hnd Hcl fuel Hf) as [[[toks pls] Hr]|Hr];
      eauto.
Qed.

Lemma two_pool_nodes_NoDup : NoDup two_pool_nodes.
Proof. apply (bool_decide_unpack _). by vm_compute. Qed.

Lemma two_pool_closed : closed_graph two_pool_nodes two_pool_edges.
Proof.
  apply closed_graph_Forall. unfold two_pool_edges, two_pool_nodes, src, dst.
  repeat constructor; simpl; set_solver.
Qed.

Lemma detector_lookups_never_fail_witness :
  (∃ toks pls,
     ArbitrageBot.find_negative_cycle 2 two_pool_nodes two_pool_edges
       = Ok (toks, pls)) ∧
  ((∃ toks pls,
      DiscoveryBot.find_negative_cycle 2 two_pool_nodes two_pool_edges
        = Ok (toks, pls)) ∨
   DiscoveryBot.find_negative_cycle 2 two_pool_nodes two_pool_edges
     = Raise TypeError).
Proof.
  apply (detector_lookups_never_fail 2 two_pool_nodes two_pool_edges).
  - apply two_pool_nodes_NoDup.
  - apply two_pool_closed.
  - simpl. lia.
Defined.

(** ** An empty answer means there is no negative cycle *)

Section Completeness.
Context {P : Type}.
Context (nodes : list token) (E : list (@edge Z P)).
Hypothesis nodes_NoDup : NoDup nodes.
Hypothesis graph_closed : closed_graph nodes E.

Local Abbreviation idx := (token_to_idx nodes).
Local Abbreviation N := (length nodes).

(** Once nothing relaxes, the distances are a potential: along any walk
    they grow by at most the weight of the walk. *)
Lemma quiet_walk_potential dist a p b :
  length dist = N → quiet nodes E dist → walk E a p b → a ∈ nodes →
  ∃ ia ib da db,
    idx !! a = Some ia ∧ idx !! b = Some ib ∧
    dist !! ia = Some da ∧ dist !! ib = Some db ∧ (db ≤ da + wsum p)%Z.
Proof.
  intros Hl Hq Hw. induction Hw as [a|e p b He Hw IH]; intros Ha.
  - apply (idx_defined _ nodes_NoDup) in Ha as (ia & Hia & Hlt).
    destruct (lookup_lt_is_Some_2 dist ia) as [da Hda]; [lia|].
    exists ia, ia, da, da. simpl. repeat split; try done. lia.
  - destruct (graph_closed e He) as [_ Hd].
    destruct (IH Hd) as (iv & ib & dv & db & Hiv & Hib & Hdv & Hdb & Hle).
    destruct e as [[[u v] w] pool].
    destruct (relax_edge_eq nodes E nodes_NoDup graph_closed dist [] false
                _ _ _ _ He Hl)
      as (ui & vi & du & dv' & Hui & Hvi & Hdu & Hdv' & _ & Hrel).
    rewrite (Hq _ He) in Hrel. injection Hrel as Hrel.
    symmetry in Hrel. apply Z.ltb_ge in Hrel.
    unfold src, dst in *. simpl in *. simplify_eq.
    exists ui, ib, du, db. repeat split; try done.
    unfold weight. simpl. lia.
Qed.

Lemma quiet_no_negative_cycle dist :
  length dist = N → quiet nodes E dist → no_negative_cycle E.
Proof.
  intros Hl Hq a p Hw.
  destruct p as [|e p]; [simpl; lia|].
  assert (Ha : a ∈ nodes).
  { inversion Hw as [|e0 p0 ? He0 ?]; subst. apply (graph_closed e). done. }
  destruct (quiet_walk_potential dist a (e :: p) a Hl Hq Hw Ha)
    as (ia & ib & da & db & Hia & Hib & Hda & Hdb & Hle).
  simplify_eq. lia.
Qed.

Lemma scan_empty_quiet back fuel inv dist (parent : parent_t P)
    (es : list (@edge Z P)) pls :
  scan back fuel idx inv dist parent es = Ok ([], pls) →
  ∀ e, e ∈ es → relaxes idx dist e = Ok false.
Proof.
  induction es as [|e es IH]; simpl; intros Hs e' He'; [by inversion He'|].
  inv_res. destruct x.
  - exfalso. inv_res. unfold extract_cycle in Hs. inv_res.
    destruct x1 as [t p]. inv_res.
    apply (f_equal reverse) in Hs. rewrite reverse_involutive in Hs.
    simpl in Hs. by destruct t.
  - apply elem_of_cons in He' as [->|He']; [done|]. by apply IH.
Qed.
End Completeness.



(** ** A reported cycle is a negative cycle *)

Section PredecessorLoops.
Context {P : Type}.
Implicit Types (parent : parent_t P) (pw : nat → Z).

Lemma chainw_add a b parent pw x y :
  piter a parent x = Some y →
  chainw (a + b) parent pw x
    = (chainw a parent pw x + chainw b parent pw y)%Z.
Proof.
  revert x. induction a as [|a IH]; intros x Hit; simpl in *.
  - by simplify_eq.
  - destruct (pstep parent x) as [j|]; [|done]. simpl in Hit.
    rewrite (IH j Hit). lia.
Qed.

Lemma pstep_insert parent vi ui pl x :
  vi < length parent →
  pstep (<[vi := Some (ui, pl)]> parent) x
    = if decide (x = vi) then Some ui else pstep parent x.
Proof.
  intros Hlt. unfold pstep. destruct (decide (x = vi)) as [->|Hne].
  - by rewrite list_lookup_insert_eq.
  - by rewrite list_lookup_insert_ne.
Qed.

(** Along predecessor links the distances can only fall by the weights
    met. *)
Lemma pw_ok_telescope idx (E : list (@edge Z P)) dist parent pw n x y dx :
  pw_ok idx E dist parent pw →
  piter n parent x = Some y → dist !! x = Some dx →
  ∃ dy, dist !! y = Some dy ∧ (dy + chainw n parent pw x ≤ dx)%Z.
Proof.
  intros Hok. revert x dx.
  induction n as [|n IH]; intros x dx Hit Hdx; simpl in *.
  - simplify_eq. exists dx. split; [done|lia].
  - unfold pstep in *. destruct (parent !! x) as [[[j pl]|]|] eqn:Hp;
      simpl in *; try done.
    destruct (Hok _ _ _ Hp) as (u & v & du & dv & _ & _ & _ & Hdu & Hdv & Hle).
    simplify_eq. destruct (IH j du Hit Hdu) as (dy & Hdy & Hle').
    exists dy. split; [done|lia].
Qed.

Section Update.
Context (parent : parent_t P) (pw : nat → Z) (vi ui : nat) (pl : P) (w : Z).
Hypothesis vi_lt : vi < length parent.

Let parent' : parent_t P := <[vi := Some (ui, pl)]> parent.
Let pw' : nat → Z := λ i, if decide (i = vi) then w else pw i.

Lemma pstep_upd_ne s : s ≠ vi → pstep parent' s = pstep parent s.
Proof.
  intros Hne. unfold parent'. rewrite pstep_insert by done.
  by destruct (decide (s = vi)).
Qed.

Lemma pstep_upd_eq : pstep parent' vi = Some ui.
Proof.
  unfold parent'. rewrite pstep_insert by done.
  by destruct (decide (vi = vi)).
Qed.

Lemma pw_upd_ne s : s ≠ vi → pw' s = pw s.
Proof. intros Hne. unfold pw'. by destruct (decide (s = vi)). Qed.

Lemma pw_upd_eq : pw' vi = w.
Proof. unfold pw'. by destruct (decide (vi = vi)). Qed.

(** A chain that does not meet the updated node is an old chain. *)
Lemma chain_avoiding c s :
  (∀ j, j < c → piter j parent' s ≠ Some vi) →
  piter c parent' s = piter c parent s ∧
  chainw c parent' pw' s = chainw c parent pw s.
Proof.
  revert s. induction c as [|c IH]; intros s Hav; cbn [piter chainw];
    [done|].
  assert (Hs : s ≠ vi).
  { intros ->. by apply (Hav 0); [lia|]. }
  rewrite (pstep_upd_ne s Hs), (pw_upd_ne s Hs).
  destruct (pstep parent s) as [j|] eqn:Hj; cbn [mbind option_bind];
    [|done].
  destruct (IH j) as [H1 H2].
  - intros k Hk Hit. apply (Hav (S k)); [lia|]. cbn [piter].
    rewrite (pstep_upd_ne s Hs), Hj. done.
  - split; [done|]. by rewrite H2.
Qed.

(** A chain that reaches the updated node gets there along old links. *)
Lemma chain_first_hit n x :
  piter n parent' x = Some vi →
  ∃ m, m ≤ n ∧ piter m parent x = Some vi ∧ piter m parent' x = Some vi ∧
       chainw m parent' pw' x = chainw m parent pw x.
Proof.
  revert x. induction n as [|n IH]; intros x Hit.
  - exists 0. cbn [piter chainw] in *. done.
  - destruct (decide (x = vi)) as [->|Hne].
    { exists 0. split; [lia|]. done. }
    cbn [piter] in Hit. rewrite (pstep_upd_ne x Hne) in Hit.
    destruct (pstep parent x) as [j|] eqn:Hj; [|done].
    cbn [mbind option_bind] in Hit.
    destruct (IH j Hit) as (m & Hm & H1 & H2 & H3).
    exists (S m). split; [lia|]. cbn [piter chainw].
    rewrite (pstep_upd_ne x Hne), (pw_upd_ne x Hne), Hj.
    cbn [mbind option_bind]. split; [done|]. split; [done|]. by rewrite H3.
Qed.

Context (idx : gmap token nat) (E : list (@edge Z P)) (dist : list Z).
Context (du dv : Z).
Hypothesis old_ok : pw_ok idx E dist parent pw.
Hypothesis old_neg : loops_negative parent pw.
Hypothesis dist_ui : dist !! ui = Some du.
Hypothesis dist_vi : dist !! vi = Some dv.
Hypothesis relaxing : (du + w < dv)%Z.

(** Loops through the updated node are negative. *)
Lemma loop_through_update c :
  1 ≤ c → piter c parent' vi = Some vi → (chainw c parent' pw' vi < 0)%Z.
Proof.
  induction (lt_wf c) as [c _ IH]. intros Hc Hloop.
  destruct c as [|n]; [lia|].
  assert (Hn : piter n parent' ui = Some vi).
  { cbn [piter] in Hloop. by rewrite pstep_upd_eq in Hloop. }
  destruct (chain_first_hit n ui Hn) as (m & Hm & Hold & Hnew & Hw).
  destruct (pw_ok_telescope idx E dist parent pw m ui vi du old_ok Hold dist_ui)
    as (dv' & Hdv' & Hle).
  rewrite dist_vi in Hdv'. injection Hdv' as <-.
  assert (Hfirst : (chainw (S m) parent' pw' vi < 0)%Z).
  { cbn [chainw]. rewrite pstep_upd_eq, pw_upd_eq, Hw. lia. }
  assert (Hback : piter (S m) parent' vi = Some vi).
  { cbn [piter]. by rewrite pstep_upd_eq. }
  destruct (decide (n = m)) as [->|Hne]; [done|].
  assert (Hsplit : S n = S m + (n - m)) by lia.
  rewrite Hsplit in Hloop |- *.
  rewrite (chainw_add _ _ _ _ _ _ Hback).
  rewrite piter_add, Hback in Hloop. cbn [mbind option_bind] in Hloop.
  assert ((chainw (n - m) parent' pw' vi < 0)%Z); [|lia].
  apply IH; [lia|lia|done].
Qed.

Lemma loops_negative_update : loops_negative parent' pw'.
Proof.
  intros s c Hc Hloop.
  destruct (decide (Exists (λ j, piter j parent' s = Some vi) (seq 0 c)))
    as [Hex|Hno].
  - apply Exists_exists in Hex as (j & Hj%elem_of_seq & Hhit).
    assert (Hrot : piter c parent' vi = Some vi).
    { assert (H1 : piter (j + c) parent' s = piter c parent' vi)
        by (by rewrite piter_add, Hhit).
      assert (H2 : piter (c + j) parent' s = Some vi)
        by (by rewrite piter_add, Hloop).
      rewrite <- H1, Nat.add_comm. done. }
    pose proof (chainw_add j c parent' pw' s vi Hhit) as H1.
    pose proof (chainw_add c j parent' pw' s s Hloop) as H2.
    rewrite Nat.add_comm in H2.
    pose proof (loop_through_update c Hc Hrot). lia.
  - destruct (chain_avoiding c s) as [H1 H2].
    { intros j Hj Hhit. apply Hno, Exists_exists. exists j.
      split; [apply elem_of_seq; lia|done]. }
    rewrite H2. apply old_neg; [done|]. by rewrite <- H1.
Qed.
End Update.

(** A relaxing edge keeps every predecessor link justified. *)
Lemma pw_ok_update idx (E : list (@edge Z P)) dist parent pw
    u v w pl ui vi du dv :
  (u, v, w, pl) ∈ E → idx !! u = Some ui → idx !! v = Some vi →
  dist !! ui = Some du → dist !! vi = Some dv → (du + w < dv)%Z →
  pw_ok idx E dist parent pw →
  pw_ok idx E (<[vi := (du + w)%Z]> dist) (<[vi := Some (ui, pl)]> parent)
    (λ i, if decide (i = vi) then w else pw i).
Proof.
  intros HE Hu Hv Hdu Hdv Hlt Hok vi' ui' p Hl.
  assert (Hvd : vi < length dist) by (by eapply lookup_lt_Some).
  destruct (decide (vi' = vi)) as [->|Hne].
  - assert (Hvp : vi < length parent).
    { apply lookup_lt_Some in Hl. by rewrite length_insert in Hl. }
    rewrite list_lookup_insert_eq in Hl by done. simplify_eq.
    exists u, v, (if decide (ui' = vi) then du + w else du)%Z, (du + w)%Z.
    repeat split; try done.
    + destruct (decide (ui' = vi)) as [->|Hne].
      * by rewrite list_lookup_insert_eq.
      * by rewrite list_lookup_insert_ne.
    + by rewrite list_lookup_insert_eq.
    + destruct (decide (ui' = vi)) as [->|Hne]; [|lia].
      simplify_eq. lia.
  - rewrite list_lookup_insert_ne in Hl by done.
    destruct (Hok _ _ _ Hl)
      as (u' & v' & du' & dv' & HE' & Hu' & Hv' & Hdu' & Hdv' & Hle).
    exists u', v', (if decide (ui' = vi) then du + w else du')%Z, dv'.
    destruct (decide (vi' = vi)) as [?|_]; [done|].
    repeat split; try done.
    + destruct (decide (ui' = vi)) as [->|Hne'].
      * by rewrite list_lookup_insert_eq.
      * by rewrite list_lookup_insert_ne.
    + by rewrite list_lookup_insert_ne.
    + destruct (decide (ui' = vi)) as [->|Hne']; [|lia].
      simplify_eq. lia.
Qed.

Section Invariant.
Context (idx : gmap token nat) (E : list (@edge Z P)) (N : nat).

Lemma bf_inv_init : bf_inv idx E N (replicate N 0%Z) (replicate N None).
Proof.
  split; [by rewrite length_replicate|].
  split; [by rewrite length_replicate|].
  exists (λ _, 0%Z). split.
  - intros vi ui p [Hl _]%lookup_replicate. discriminate.
  - intros s c Hc Hit. destruct c as [|c]; [lia|].
    cbn [piter] in Hit. unfold pstep in Hit.
    destruct (replicate N None !! s) as [o|] eqn:Hl; [|done].
    apply lookup_replicate in Hl as [-> _]. done.
Qed.

Lemma relax_edge_bf dist parent b e dist' parent' b' :
  e ∈ E → bf_inv idx E N dist parent →
  relax_edge idx (dist, parent, b) e = Ok (dist', parent', b') →
  bf_inv idx E N dist' parent'.
Proof.
  intros He (Hd & Hp & pw & Hok & Hneg) Hr.
  destruct e as [[[u v] w] pool]. simpl in Hr. inv_res.
  destruct (Z.ltb_spec (x1 + w) x2) as [Hlt|Hge];
    injection Hr as <- <- <-; [|by repeat split; eauto].
  split; [by rewrite length_insert|]. split; [by rewrite length_insert|].
  exists (λ i, if decide (i = x0) then w else pw i). split.
  - by eapply pw_ok_update.
  - eapply (loops_negative_update parent pw x0 x pool w); eauto.
    rewrite Hp, <- Hd. by eapply lookup_lt_Some.
Qed.

Lemma relax_pass_bf es dist parent b dist' parent' b' :
  (∀ e, e ∈ es → e ∈ E) → bf_inv idx E N dist parent →
  relax_pass idx es (dist, parent, b) = Ok (dist', parent', b') →
  bf_inv idx E N dist' parent'.
Proof.
  revert dist parent b.
  induction es as [|e es IH]; intros dist parent b Hsub Hinv Hr;
    cbn [relax_pass] in Hr.
  - by simplify_eq.
  - inv_res. destruct x as [[d1 p1] b1].
    eapply IH; [|eapply relax_edge_bf; [|done|done]|done].
    + intros e' He'. apply Hsub. by right.
    + apply Hsub. by left.
Qed.

Lemma arb_relax_loop_bf n dist parent k dist' parent' k' :
  bf_inv idx E N dist parent →
  ArbitrageBot.relax_loop n idx E dist parent k = Ok (dist', parent', k') →
  bf_inv idx E N dist' parent'.
Proof.
  revert dist parent k.
  induction n as [|n IH]; intros dist parent k Hinv Hr;
    cbn [ArbitrageBot.relax_loop] in Hr.
  - by simplify_eq.
  - inv_res. destruct x as [[d1 p1] b1].
    eapply relax_pass_bf in H as Hinv1; [|done..].
    destruct b1; [by eapply IH|by simplify_eq].
Qed.

Lemma disc_relax_loop_bf n dist parent k dist' parent' k' :
  bf_inv idx E N dist parent →
  DiscoveryBot.relax_loop n idx E dist parent k = Ok (dist', parent', k') →
  bf_inv idx E N dist' parent'.
Proof.
  revert dist parent k.
  induction n as [|n IH]; intros dist parent k Hinv Hr;
    cbn [DiscoveryBot.relax_loop] in Hr.
  - by simplify_eq.
  - inv_res. destruct x as [[d1 p1] b1].
    eapply relax_pass_bf in H as Hinv1; [|done..].
    by eapply IH.
Qed.
End Invariant.

Section Reported.
Context (nodes : list token) (E : list (@edge Z P)).

(** A chain of predecessor links, read backwards, is a walk of the graph
    whose weight is the weight collected along the links. *)
Lemma pchain_walk dist parent pw cur toks pls fin tf :
  pw_ok (token_to_idx nodes) E dist parent pw →
  pchain (idx_to_token nodes) parent cur toks pls fin →
  idx_to_token nodes !! fin = Some tf →
  ∃ es tc,
    idx_to_token nodes !! cur = Some tc ∧ walk E tf es tc ∧
    visited tf es = reverse (toks ++ [tf]) ∧
    backing <$> es = reverse pls ∧
    wsum es = chainw (length toks) parent pw cur.
Proof.
  intros Hok Hch Hf.
  induction Hch as [cur|cur prev pl t toks pls fin Hp Hi Hch IH].
  - exists [], tf. repeat split; [done|constructor].
  - destruct (IH Hf) as (es & tp & Htp & Hw & Hvis & Hback & Hsum).
    destruct (Hok _ _ _ Hp) as (u & v & du & dv & HE & Hu & Hv & _).
    pose proof (proj1 (idx_to_token_spec _ _ _) Htp) as Htp'.
    pose proof (proj1 (idx_to_token_spec _ _ _) Hi) as Hi'.
    assert (u = tp) by (eapply token_to_idx_inj; eauto).
    assert (v = t) by (eapply token_to_idx_inj; eauto).
    subst u v.
    exists (es ++ [(tp, t, pw cur, pl)]), t.
    split; [done|]. split.
    { by apply (walk_snoc E tf es (tp, t, pw cur, pl)). }
    split.
    { unfold visited in *. rewrite fmap_app. cbn [fmap list_fmap app].
      rewrite reverse_cons, <- Hvis. done. }
    split.
    { rewrite fmap_app, reverse_cons, Hback. done. }
    rewrite wsum_app, Hsum. cbn [length chainw wsum foldr].
    unfold pstep. rewrite Hp. unfold weight. simpl. lia.
Qed.

(** With at least one pool in the answer, the extraction went once round
    a loop of predecessor links. *)
Lemma extract_cycle_chain fuel parent start toks pls :
  landing_ok nodes parent start →
  extract_cycle fuel (idx_to_token nodes) parent start = Ok (toks, pls) →
  pls ≠ [] →
  ∃ toks2 pls2 ts,
    pchain (idx_to_token nodes) parent start toks2 pls2 start ∧
    idx_to_token nodes !! start = Some ts ∧
    toks = reverse (toks2 ++ [ts]) ∧ pls = reverse pls2 ∧
    1 ≤ length toks2.
Proof.
  intros Hland Hx Hne. unfold extract_cycle in Hx. inv_res.
  destruct x as [toks2 pls2]. inv_res. subst toks pls.
  apply collect_spec in H as (t2 & p2 & fin & Heq & Hch & Hfin).
  simpl in Heq. simplify_eq.
  destruct (pchain_piter _ _ _ _ _ _ Hch) as [Hl Hit].
  assert (Hlen : 1 ≤ length t2).
  { destruct p2; [done|]. simpl in Hl. lia. }
  assert (fin = start) as ->.
  { destruct Hfin as [[_ ?]|Hnone]; [done|]. exfalso.
    destruct Hland as [Hs|(c & Hc & Hloop)].
    - inversion Hch; simplify_eq.
    - destruct (piter_loop_defined c parent start (S (length t2)))
        as [z Hz]; [lia|done|].
      replace (S (length t2)) with (length t2 + 1) in Hz by lia.
      rewrite piter_add, Hit in Hz. simpl in Hz.
      unfold pstep in Hz. rewrite Hnone in Hz. done. }
  eauto 10.
Qed.

Lemma scan_negative back fuel dist parent es toks pls :
  bf_inv (token_to_idx nodes) E (length nodes) dist parent →
  (∀ vi s, vi < length nodes → back parent vi = Ok s →
           landing_ok nodes parent s) →
  scan back fuel (token_to_idx nodes) (idx_to_token nodes) dist parent es
    = Ok (toks, pls) →
  pls ≠ [] →
  ∃ a cyc, walk E a cyc a ∧ visited a cyc = toks ∧
           backing <$> cyc = pls ∧ (wsum cyc < 0)%Z.
Proof.
  intros (_ & _ & pw & Hok & Hneg) Hland Hs Hne.
  apply scan_spec in Hs as [[_ ->]|(vi & start & Hvi & Hb & Hx)]; [done|].
  destruct (extract_cycle_chain _ _ _ _ _ (Hland _ _ Hvi Hb) Hx Hne)
    as (toks2 & pls2 & ts & Hch & Hts & -> & -> & Hlen).
  destruct (pchain_walk _ _ _ _ _ _ _ _ Hok Hch Hts)
    as (cyc & tc & Htc & Hw & Hvis & Hback & Hsum).
  assert (tc = ts) as -> by congruence.
  exists ts, cyc. split; [done|]. split; [done|]. split; [done|].
  rewrite Hsum. apply Hneg; [done|].
  by destruct (pchain_piter _ _ _ _ _ _ Hch).
Qed.
End Reported.
End PredecessorLoops.



(** ** The graph handed from the builder to the detector *)

Lemma elem_of_concat {A : Type} (x : A) (ls : list (list A)) :
  x ∈ concat ls ↔ ∃ l, x ∈ l ∧ l ∈ ls.
Proof.
  induction ls as [|l ls IH]; simpl.
  - split; [by inversion 1|]. intros (l & _ & Hl). by inversion Hl.
  - rewrite elem_of_app, IH. split.
    + intros [Hx|(l' & Hx & Hl')]; [exists l|exists l'];
        (split; [done|]); [by left|by right].
    + intros (l' & Hx & [->|Hl']%elem_of_cons); [by left|right; eauto].
Qed.

Section BuilderGraph.
Context {W : Type} (neg_log : Q → W).

Lemma pool_edges_ends (p : Pool) (e : @edge W Pool) :
  e ∈ pool_edges neg_log p →
  backing e = p ∧
  ((src e = token0 p ∧ dst e = token1 p) ∨
   (src e = token1 p ∧ dst e = token0 p)).
Proof.
  unfold pool_edges. intros [He|He]%elem_of_app.
  - destruct (Qpositive (price_token0_to_token1 p)); [|by inversion He].
    apply list_elem_of_singleton in He as ->. split; [done|by left].
  - destruct (Qpositive (price_token1_to_token0 p)); [|by inversion He].
    apply list_elem_of_singleton in He as ->. split; [done|by right].
Qed.

Lemma build_loop_well_formed update pools log nodes edges pools' log' :
  build_loop neg_log update pools ∅ [] log
    = (Ok (nodes, edges), pools', log') →
  closed_graph (elements nodes) edges ∧
  (∀ t, t ∈ nodes ↔
        ∃ p, p ∈ pools' ∧ valid p ∧ (t = token0 p ∨ t = token1 p)) ∧
  (∀ e, e ∈ edges → backing e ∈ pools' ∧ valid (backing e)).
Proof.
  intros Hb. apply build_loop_graph in Hb as [-> ->].
  assert (Hnodes : ∀ t,
    t ∈ (∅ ∪ ⋃ ((λ p, {[token0 p; token1 p]}) <$> filter valid pools')
          : gset token) ↔
    ∃ p, p ∈ pools' ∧ valid p ∧ (t = token0 p ∨ t = token1 p)).
  { intros t. rewrite elem_of_union, elem_of_union_list. split.
    - intros [Ht|(X & HX & Ht)]; [set_solver|].
      apply list_elem_of_fmap in HX as (p & -> & Hp).
      apply list_elem_of_filter in Hp as [Hv Hp].
      exists p. split; [done|]. split; [done|]. set_solver.
    - intros (p & Hp & Hv & Ht). right.
      exists {[token0 p; token1 p]}. split; [|set_solver].
      apply list_elem_of_fmap. exists p. split; [done|].
      by apply list_elem_of_filter. }
  assert (Hedges : ∀ e,
    e ∈ [] ++ concat (pool_edges neg_log <$> filter valid pools') →
    ∃ p, p ∈ pools' ∧ valid p ∧ e ∈ pool_edges neg_log p).
  { intros e He. simpl in He. apply elem_of_concat in He as (l & He & Hl).
    apply list_elem_of_fmap in Hl as (p & -> & Hp).
    apply list_elem_of_filter in Hp as [Hv Hp]. eauto. }
  split; [|split; [done|]].
  - intros e (p & Hp & Hv & He)%Hedges.
    apply pool_edges_ends in He as [_ Hends].
    rewrite !elem_of_elements, !Hnodes.
    destruct Hends as [[-> ->]|[-> ->]]; split; eauto 10.
  - intros e (p & Hp & Hv & He)%Hedges.
    apply pool_edges_ends in He as [-> _]. done.
Qed.
End BuilderGraph.

(** X8: the graph either builder returns is fit for the detector: every
    edge joins two members of the node set, the node set holds the two
    tokens of the pools that are valid after their update and nothing
    else, and every edge is backed by one of these pools. *)
Theorem builder_graph_well_formed {W : Type} (neg_log : Q → W)
    (update : M unit) (pools : list Pool) (log : list rpc)
    (nodes : gset token) (edges : list (@edge W Pool))
    (pools' : list Pool) (log' : list rpc) :
  build_loop neg_log update pools ∅ [] log
    = (Ok (nodes, edges), pools', log') →
  closed_graph (elements nodes) edges ∧
  (∀ t, t ∈ nodes ↔
        ∃ p, p ∈ pools' ∧ valid p ∧ (t = token0 p ∨ t = token1 p)) ∧
  (∀ e, e ∈ edges → backing e ∈ pools' ∧ valid (backing e)).
Proof. apply build_loop_well_formed. Qed.

Lemma builder_graph_well_formed_witness :
  ∃ nodes edges pools' log',
    DiscoveryBot.build_graph neg_log_price triangle_chain
      (new_pool <$> ["P1"; "P2"; "P3"]%string) []
      = (Ok (nodes, edges), pools', log') ∧
    closed_graph (elements nodes) edges ∧
    (∀ t, t ∈ nodes ↔
          ∃ p, p ∈ pools' ∧ valid p ∧ (t = token0 p ∨ t = token1 p)) ∧
    (∀ e, e ∈ edges → backing e ∈ pools' ∧ valid (backing e)).
Proof.
  eexists _, _, _, _. split; [vm_compute; reflexivity|].
  eapply (builder_graph_well_formed neg_log_price
            (DiscoveryBot.update triangle_chain)
            (new_pool <$> ["P1"; "P2"; "P3"]%string) []).
  vm_compute. reflexivity.
Defined.

(** X9: the detector step of a tick cannot fail on a lookup.  On the graph
    a builder has just returned, with the node set enumerated as the tick
    does, [find_negative_cycle] of [arbitrage_bot.py] returns a pair of
    lists; that of [arbitrage_discovery_bot.py] returns one too or raises
    [TypeError] in its back-walk, never [KeyError] or [IndexError]. *)
Theorem detector_accepts_builder_graph {W : Type} `{Weight W}
    (neg_log : Q → W) (update : M unit) (pools : list Pool)
    (log : list rpc) (nodes : gset token) (edges : list (@edge W Pool))
    (pools' : list Pool) (log' : list rpc) :
  build_loop neg_log update pools ∅ [] log
    = (Ok (nodes, edges), pools', log') →
  let ns := elements nodes in
  (∃ toks pls,
     ArbitrageBot.find_negative_cycle (length ns) ns edges = Ok (toks, pls)) ∧
  ((∃ toks pls,
      DiscoveryBot.find_negative_cycle (length ns) ns edges
        = Ok (toks, pls)) ∨
   DiscoveryBot.find_negative_cycle (length ns) ns edges = Raise TypeError).
Proof.
  intros Hb ns.
  destruct (build_loop_well_formed neg_log _ _ _ _ _ _ _ Hb) as (Hcl & _).
  assert (Hnd : NoDup ns) by apply NoDup_elements.
  split.
  - destruct (arb_find_Ok ns edges Hnd Hcl (length ns) (le_n _))
      as [[toks pls] Hr]. eauto.
  - destruct (disc_find_cases ns edges Hnd Hcl (length ns) (le_n _))
      as [[[toks pls] Hr]|Hr]; eauto.
Qed.

Lemma detector_accepts_builder_graph_witness :
  ∃ nodes edges pools' log',
    ArbitrageBot.build_rate_graph neg_log_price two_pool_chain
      (new_pool <$> ["P1"; "P2"]%string) []
      = (Ok (nodes, edges), pools', log') ∧
    let ns := elements nodes in
    (∃ toks pls,
       @ArbitrageBot.find_negative_cycle Q price_weight Pool
         (length ns) ns edges = Ok (toks, pls)) ∧
    ((∃ toks pls,
        @DiscoveryBot.find_negative_cycle Q price_weight Pool
          (length ns) ns edges = Ok (toks, pls)) ∨
     @DiscoveryBot.find_negative_cycle Q price_weight Pool
       (length ns) ns edges = Raise TypeError).
Proof.
  eexists _, _, _, _. split; [vm_compute; reflexivity|].
  eapply (@detector_accepts_builder_graph Q price_weight neg_log_price
            (ArbitrageBot.update_tokens_and_reserves two_pool_chain)
            (new_pool <$> ["P1"; "P2"]%string) []).
  vm_compute. reflexivity.
Defined.

(** ** One pool, there and back *)

Lemma price_token0_to_token1_eq (p : Pool) :
  ¬ (reserve0 p == 0)%Q →
  price_token0_to_token1 p = ((reserve1 p / reserve0 p) * fee)%Q.
Proof.
  intros Hne. unfold price_token0_to_token1.
  destruct (Qeq_bool (reserve0 p) 0) eqn:Hz; [|done].
  by apply Qeq_bool_iff in Hz.
Qed.

Lemma price_token1_to_token0_eq (p : Pool) :
  ¬ (reserve1 p == 0)%Q →
  price_token1_to_token0 p = ((reserve0 p / reserve1 p) * fee)%Q.
Proof.
  intros Hne. unfold price_token1_to_token0.
  destruct (Qeq_bool (reserve1 p) 0) eqn:Hz; [|done].
  by apply Qeq_bool_iff in Hz.
Qed.

Lemma Qpos_neq (q : Q) : (0 < q)%Q → ¬ (q == 0)%Q.
Proof. intros Hq Hz. rewrite Hz in Hq. by apply Qlt_irrefl in Hq. Qed.

Lemma ratio_fee_positive (a b : Q) :
  (0 < a)%Q → (0 < b)%Q → (0 < (a / b) * fee)%Q.
Proof.
  intros Ha Hb. apply Qmult_lt_0_compat; [|reflexivity].
  apply Qlt_shift_div_l; [done|]. by rewrite Qmult_0_l.
Qed.

(** X10: a pool with two positive reserves puts both directions in the
    graph, and the two prices multiply to the square of the fee factor,
    [0.997² < 1], whatever the reserves: going through one pool and
    straight back always loses, so with product-of-prices weights the
    two-hop loop through one pool is never a negative cycle. *)
Theorem pool_round_trip_pays_fee_twice {W : Type} (neg_log : Q → W)
    (p : Pool) :
  (0 < reserve0 p)%Q → (0 < reserve1 p)%Q →
  pool_edges neg_log p =
    [(token0 p, token1 p, neg_log (price_token0_to_token1 p), p);
     (token1 p, token0 p, neg_log (price_token1_to_token0 p), p)] ∧
  (price_token0_to_token1 p * price_token1_to_token0 p == fee * fee)%Q ∧
  (price_token0_to_token1 p * price_token1_to_token0 p < 1)%Q ∧
  @wlt Q price_weight
    (@wadd Q price_weight (neg_log_price (price_token0_to_token1 p))
                          (neg_log_price (price_token1_to_token0 p)))
    (@wzero Q price_weight) = false.
Proof.
  intros H0 H1.
  pose proof (Qpos_neq _ H0) as Hn0. pose proof (Qpos_neq _ H1) as Hn1.
  assert (Hprod : (price_token0_to_token1 p * price_token1_to_token0 p
                   == fee * fee)%Q).
  { rewrite price_token0_to_token1_eq, price_token1_to_token0_eq by done.
    field. done. }
  assert (Hlt : (price_token0_to_token1 p * price_token1_to_token0 p < 1)%Q).
  { rewrite Hprod. reflexivity. }
  split; [|split; [done|split; [done|]]].
  - unfold pool_edges.
    rewrite (proj2 (Qpositive_spec (price_token0_to_token1 p))),
      (proj2 (Qpositive_spec (price_token1_to_token0 p))); [done|..].
    + rewrite price_token1_to_token0_eq by done. by apply ratio_fee_positive.
    + rewrite price_token0_to_token1_eq by done. by apply ratio_fee_positive.
  - cbn [wlt wadd wzero price_weight]. unfold Qltb, neg_log_price.
    apply negb_false_iff, Qle_bool_iff.
    rewrite !Qred_correct. by apply Qlt_le_weak.
Qed.

Lemma pool_round_trip_pays_fee_twice_witness :
  let p := mkPool "P1" (tok "A") (tok "B") (Some 0%N) (Some 0%N)
             (Some "A"%string) (Some "B"%string) 1000 2000 true in
  pool_edges neg_log_price p =
    [(token0 p, token1 p, neg_log_price (price_token0_to_token1 p), p);
     (token1 p, token0 p, neg_log_price (price_token1_to_token0 p), p)] ∧
  (price_token0_to_token1 p * price_token1_to_token0 p == fee * fee)%Q ∧
  (price_token0_to_token1 p * price_token1_to_token0 p < 1)%Q ∧
  @wlt Q price_weight
    (@wadd Q price_weight (neg_log_price (price_token0_to_token1 p))
                          (neg_log_price (price_token1_to_token0 p)))
    (@wzero Q price_weight) = false.
Proof.
  intros p. apply (pool_round_trip_pays_fee_twice neg_log_price p);
    reflexivity.
Defined.

(** ** What a pool update lets out and what it keeps *)

Section Contains.
Context (caught : exn → bool).

Lemma contains_ret {A : Type} (a : A) : contains caught (ret a).
Proof. by intros s e. Qed.

Lemma contains_self : contains caught self.
Proof. by intros s e. Qed.

Lemma contains_assign (f : Pool → Pool) : contains caught (assign f).
Proof. by intros s e. Qed.

Lemma contains_bind {A B : Type} (m : M A) (k : A → M B) :
  contains caught m → (∀ a, contains caught (k a)) →
  contains caught (bind m k).
Proof.
  intros Hm Hk s e. unfold bind. specialize (Hm s).
  destruct (m s) as [[a|e'|] s']; simpl in *; [apply Hk| |done].
  intros [= <-]. by apply Hm.
Qed.

(** Whatever the body does, a [try] whose handler is quiet lets nothing of
    the caught class out. *)
Lemma contains_try {A : Type} (body handler : M A) :
  contains caught handler → contains caught (try_except caught body handler).
Proof.
  intros Hh s e. unfold try_except.
  destruct (body s) as [[a|e'|] s'] eqn:Hb; simpl; [done| |done].
  destruct (caught e') eqn:Hc; [apply Hh|].
  simpl. intros [= ->]. done.
Qed.
End Contains.

Lemma arb_update_contains chain :
  contains ArbitrageBot.caught (ArbitrageBot.update_tokens_and_reserves chain).
Proof.
  unfold ArbitrageBot.update_tokens_and_reserves.
  apply contains_bind; [apply contains_self|]. intros p.
  destruct (negb (is_valid p)); [apply contains_ret|].
  apply contains_bind.
  - apply contains_try, contains_bind; [apply contains_assign|].
    intros _. apply contains_ret.
  - intros [|]; [|apply contains_ret].
    apply contains_try, contains_assign.
Qed.

Lemma disc_update_contains chain :
  contains DiscoveryBot.caught (DiscoveryBot.update chain).
Proof.
  unfold DiscoveryBot.update.
  apply contains_bind; [apply contains_self|]. intros p.
  destruct (negb (is_valid p)); [apply contains_ret|].
  apply contains_bind.
  - destruct (token0 p); [apply contains_ret|].
    apply contains_try, contains_bind; [apply contains_assign|].
    intros _. apply contains_ret.
  - intros [|]; [|apply contains_ret].
    apply contains_try, contains_assign.
Qed.

(** X11: the exceptions a pool update catches never leave it.  Whatever
    the chain answers, [Pool.update_tokens_and_reserves] of
    [arbitrage_bot.py] does not raise [BadFunctionCallOutput], and
    [Pool.update] of [arbitrage_discovery_bot.py] raises neither
    [BadFunctionCallOutput] nor [ContractLogicError]. *)
Theorem caught_exceptions_never_leave_update (chain : Chain) (p : Pool)
    (log : list rpc) :
  (ArbitrageBot.update_tokens_and_reserves chain (p, log)).1
    ≠ Raise BadFunctionCallOutput ∧
  (DiscoveryBot.update chain (p, log)).1 ≠ Raise BadFunctionCallOutput ∧
  (DiscoveryBot.update chain (p, log)).1 ≠ Raise ContractLogicError.
Proof.
  split; [|split]; intros Hr.
  - by apply arb_update_contains in Hr.
  - by apply disc_update_contains in Hr.
  - by apply disc_update_contains in Hr.
Qed.

Section Keeps.

Lemma keeps_ret {A : Type} (a : A) : keeps (ret a).
Proof. by intros s. Qed.

Lemma keeps_self : keeps self.
Proof. by intros s. Qed.

Lemma keeps_raise {A : Type} (e : exn) : keeps (raise (A := A) e).
Proof. by intros s. Qed.

Lemma keeps_remote {A : Type} (r : rpc) (x : answer A) : keeps (remote r x).
Proof.
  intros s. unfold remote. simpl. split; [done|]. split; [done|].
  by apply prefix_app_r.
Qed.

Lemma keeps_assign (f : Pool → Pool) :
  (∀ p, pool_address (f p) = pool_address p) →
  (∀ p, is_valid (f p) = true → is_valid p = true) →
  keeps (assign f).
Proof. intros Ha Hv s. unfold assign. simpl. eauto. Qed.

Lemma keeps_bind {A B : Type} (m : M A) (k : A → M B) :
  keeps m → (∀ a, keeps (k a)) → keeps (bind m k).
Proof.
  intros Hm Hk s. unfold bind. destruct (Hm s) as (Ha & Hv & Hl).
  destruct (m s) as [[a|e|] s'] eqn:Hms; simpl in *; [|done..].
  destruct (Hk a s') as (Ha' & Hv' & Hl').
  split; [congruence|]. split; [auto|]. by etrans.
Qed.

Lemma keeps_try {A : Type} (caught : exn → bool) (body handler : M A) :
  keeps body → keeps handler → keeps (try_except caught body handler).
Proof.
  intros Hb Hh s. unfold try_except. destruct (Hb s) as (Ha & Hv & Hl).
  destruct (body s) as [[a|e|] s'] eqn:Hbs; simpl in *; [done| |done].
  destruct (caught e); [|done].
  destruct (Hh s') as (Ha' & Hv' & Hl').
  split; [congruence|]. split; [auto|]. by etrans.
Qed.
End Keeps.

Ltac keeps_step :=
  repeat first
    [ apply keeps_ret | apply keeps_self | apply keeps_raise
    | apply keeps_remote
    | apply keeps_assign; [by intros []|by intros []]
    | apply keeps_bind; [|intros ?]
    | apply keeps_try
    | match goal with
      | |- keeps (match ?x with _ => _ end) => destruct x
      end ].

Lemma arb_update_keeps chain :
  keeps (ArbitrageBot.update_tokens_and_reserves chain).
Proof.
  unfold ArbitrageBot.update_tokens_and_reserves,
    ArbitrageBot.resolve_tokens, ArbitrageBot.fetch_reserves,
    ArbitrageBot.fetch_token_info, ArbitrageBot.decimals_of.
  keeps_step.
Qed.

Lemma disc_update_keeps chain : keeps (DiscoveryBot.update chain).
Proof.
  unfold DiscoveryBot.update, DiscoveryBot.resolve_tokens,
    DiscoveryBot.fetch_reserves, DiscoveryBot.fetch_token_info.
  keeps_step.
Qed.

(** X12: whatever the chain answers and however the update ends, a pool
    update of either file keeps the address of the pool, never turns an
    invalid pool valid again, and only adds calls at the end of the call
    log. *)
Theorem update_never_revalidates (chain : Chain) (p : Pool)
    (log : list rpc) :
  let a := ArbitrageBot.update_tokens_and_reserves chain (p, log) in
  let d := DiscoveryBot.update chain (p, log) in
  (pool_address a.2.1 = pool_address p ∧
   (is_valid a.2.1 = true → is_valid p = true) ∧
   log `prefix_of` a.2.2) ∧
  (pool_address d.2.1 = pool_address p ∧
   (is_valid d.2.1 = true → is_valid p = true) ∧
   log `prefix_of` d.2.2).
Proof.
  split; [apply (arb_update_keeps chain (p, log))
         |apply (disc_update_keeps chain (p, log))].
Qed.

(** X13: token metadata is fetched once.  Updating a valid pool whose
    tokens are already resolved makes exactly one remote call,
    [getReserves()] of the pair, in either file, however that call ends;
    afterwards the pool differs from what it was in its reserves and its
    validity at most. *)
Theorem resolved_pool_only_reads_reserves (chain : Chain) (p : Pool)
    (log : list rpc) (t0 : string) :
  token0 p = Some t0 → is_valid p = true →
  let a := ArbitrageBot.update_tokens_and_reserves chain (p, log) in
  let d := DiscoveryBot.update chain (p, log) in
  a.2.2 = log ++ [RpcGetReserves (pool_address p)] ∧
  d.2.2 = log ++ [RpcGetReserves (pool_address p)] ∧
  (∃ r0 r1 v,
     a.2.1 = mkPool (pool_address p) (token0 p) (token1 p)
               (token0_decimals p) (token1_decimals p)
               (token0_symbol p) (token1_symbol p) r0 r1 v) ∧
  (∃ r0 r1 v,
     d.2.1 = mkPool (pool_address p) (token0 p) (token1 p)
               (token0_decimals p) (token1_decimals p)
               (token0_symbol p) (token1_symbol p) r0 r1 v).
Proof.
  intros Ht Hv. destruct p as [ad tk0 tk1 d0 d1 s0 s1 r0 r1 v].
  simpl in Ht, Hv. subst tk0 v.
  unfold ArbitrageBot.update_tokens_and_reserves, DiscoveryBot.update,
    ArbitrageBot.resolve_tokens, ArbitrageBot.fetch_reserves,
    DiscoveryBot.fetch_reserves, ArbitrageBot.decimals_of,
    bind, self, assign, remote, ret, raise, try_except. simpl.
  destruct (getReserves_call chain ad) as [[n0 n1]|e]; simpl.
  - destruct d0 as [k0|], d1 as [k1|]; simpl; eauto 10.
  - destruct e; simpl; eauto 10.
Qed.

Lemma resolved_pool_only_reads_reserves_witness :
  let p := mkPool "P1" (tok "A") (tok "B") (Some 0%N) (Some 0%N)
             (Some "A"%string) (Some "B"%string) 1 1 true in
  let a := ArbitrageBot.update_tokens_and_reserves triangle_chain (p, []) in
  let d := DiscoveryBot.update triangle_chain (p, []) in
  a.2.2 = [] ++ [RpcGetReserves (pool_address p)] ∧
  d.2.2 = [] ++ [RpcGetReserves (pool_address p)] ∧
  (∃ r0 r1 v,
     a.2.1 = mkPool (pool_address p) (token0 p) (token1 p)
               (token0_decimals p) (token1_decimals p)
               (token0_symbol p) (token1_symbol p) r0 r1 v) ∧
  (∃ r0 r1 v,
     d.2.1 = mkPool (pool_address p) (token0 p) (token1 p)
               (token0_decimals p) (token1_decimals p)
               (token0_symbol p) (token1_symbol p) r0 r1 v).
Proof.
  intros p.
  apply (resolved_pool_only_reads_reserves triangle_chain p [] "A");
    reflexivity.
Defined.

(** ** A token without [decimals()] *)

(** X14: the two files part ways when [decimals()] of the first token
    fails with one of the caught contract errors while everything else
    answers.  [arbitrage_bot.py] gives up the pool: it is invalid after
    the update and [getReserves()] is not called.
    [arbitrage_discovery_bot.py] keeps the pool valid without decimals for
    that token and stores its raw reserve, unscaled. *)
Theorem missing_decimals_handled_differently (chain : Chain) (a : address)
    (log : list rpc) (t0 t1 s0 s1 : string) (r0 r1 : N) :
  token0_call chain a = Returned t0 →
  token1_call chain a = Returned t1 →
  symbol_call chain t0 = Returned s0 →
  symbol_call chain t1 = Returned s1 →
  (∀ t, decimals_call chain t = Failed BadFunctionCallOutput) →
  getReserves_call chain a = Returned (r0, r1) →
  (∃ p',
     ArbitrageBot.update_tokens_and_reserves chain (new_pool a, log)
       = (Ok tt, (p', log ++ [RpcToken0 a; RpcToken1 a;
                              RpcSymbol t0; RpcDecimals t0])) ∧
     is_valid p' = false) ∧
  (∃ p',
     DiscoveryBot.update chain (new_pool a, log)
       = (Ok tt, (p', log ++ [RpcToken0 a; RpcToken1 a;
                              RpcSymbol t0; RpcDecimals t0;
                              RpcSymbol t1; RpcDecimals t1;
                              RpcGetReserves a])) ∧
     is_valid p' = true ∧
     token0_decimals p' = None ∧ token1_decimals p' = None ∧
     reserve0 p' = inject_Z (Z.of_N r0) ∧
     reserve1 p' = inject_Z (Z.of_N r1)).
Proof.
  intros H0 H1 Hs0 Hs1 Hd Hr. split.
  - unfold ArbitrageBot.update_tokens_and_reserves,
      ArbitrageBot.resolve_tokens, ArbitrageBot.fetch_token_info,
      bind, self, assign, remote, ret, try_except. simpl.
    rewrite H0. simpl. rewrite H1. simpl. rewrite Hs0. simpl.
    rewrite Hd. simpl. rewrite <- !app_assoc. simpl. eauto.
  - unfold DiscoveryBot.update, DiscoveryBot.resolve_tokens,
      DiscoveryBot.fetch_token_info, DiscoveryBot.fetch_reserves,
      bind, self, assign, remote, ret, try_except. simpl.
    rewrite H0. simpl. rewrite H1. simpl. rewrite Hs0. simpl.
    rewrite Hd. simpl. rewrite Hs1. simpl. rewrite Hd. simpl.
    rewrite Hr. simpl. rewrite <- !app_assoc. simpl.
    eexists. split; [reflexivity|]. simpl. done.
Qed.

Lemma missing_decimals_handled_differently_witness :
  (∃ p',
     ArbitrageBot.update_tokens_and_reserves no_decimals_chain
         (new_pool "P1", [])
       = (Ok tt, (p', [] ++ [RpcToken0 "P1"; RpcToken1 "P1";
                             RpcSymbol "A"; RpcDecimals "A"])) ∧
     is_valid p' = false) ∧
  (∃ p',
     DiscoveryBot.update no_decimals_chain (new_pool "P1", [])
       = (Ok tt, (p', [] ++ [RpcToken0 "P1"; RpcToken1 "P1";
                             RpcSymbol "A"; RpcDecimals "A";
                             RpcSymbol "B"; RpcDecimals "B";
                             RpcGetReserves "P1"])) ∧
     is_valid p' = true ∧
     token0_decimals p' = None ∧ token1_decimals p' = None ∧
     reserve0 p' = inject_Z (Z.of_N 1000) ∧
     reserve1 p' = inject_Z (Z.of_N 2000)).
Proof.
  apply (missing_decimals_handled_differently no_decimals_chain "P1" []
           "A" "B" "A" "B" 1000 2000); reflexivity.
Defined.

(** ** The monitors over a whole run *)

(** X15: the monitor of [arbitrage_discovery_bot.py] outlives every tick.
    Whatever the pool file and the chain do on each tick, after any number
    of ticks the loop is still running and has slept exactly once per
    tick. *)
Theorem discovery_monitor_outlives_every_tick {W : Type} `{Weight W}
    (neg_log : Q → W) {G : Type} (exp_neg : W → G) (verbose : bool)
    (envs : list DiscoveryBot.Env) :
  (DiscoveryBot.monitor neg_log exp_neg verbose envs).2 = Running ∧
  sleeps (DiscoveryBot.monitor neg_log exp_neg verbose envs).1.1
    = length envs.
Proof.
  unfold DiscoveryBot.monitor.
  destruct (discovery_monitor_survives neg_log exp_neg verbose envs
              (mkState [] ∅ []) []) as [Hs Hn].
  split; [done|]. rewrite Hn. done.
Qed.

(** X16: in [arbitrage_bot.py] the pool objects outlive the tick, and a
    pool marked invalid is passed over by the builder: the graph and the
    calls made are those of the pool list without it, and the pool is
    handed on unchanged, still invalid, at its place in the list. *)
Theorem arbitrage_bot_skips_invalid_pool {W : Type} (neg_log : Q → W)
    (chain : Chain) (ps1 : list Pool) (p : Pool) (ps2 : list Pool)
    (log : list rpc) :
  is_valid p = false →
  ArbitrageBot.build_rate_graph neg_log chain (ps1 ++ p :: ps2) log =
    let '(r, ps', log') :=
      ArbitrageBot.build_rate_graph neg_log chain (ps1 ++ ps2) log in
    (r, take (length ps1) ps' ++ p :: drop (length ps1) ps', log').
Proof. apply arb_invalid_pool_stays_out. Qed.

Lemma arbitrage_bot_skips_invalid_pool_witness :
  let p := set_is_valid false (new_pool "P2") in
  ArbitrageBot.build_rate_graph neg_log_price triangle_chain
      ([new_pool "P1"] ++ p :: [new_pool "P3"]) [] =
    let '(r, ps', log') :=
      ArbitrageBot.build_rate_graph neg_log_price triangle_chain
        ([new_pool "P1"] ++ [new_pool "P3"]) [] in
    (r, take (length [new_pool "P1"]) ps' ++
        p :: drop (length [new_pool "P1"]) ps', log').
Proof.
  intros p.
  apply (arbitrage_bot_skips_invalid_pool neg_log_price triangle_chain
           [new_pool "P1"] p [new_pool "P3"] []).
  reflexivity.
Defined.

Section ReportedOnce.
Context {W : Type} `{Weight W} (neg_log : Q → W).
Context {G : Type} (exp_neg : W → G).

Lemma emit_opportunity_shape key cyc cycp (edges : list (@edge W Pool))
    seen r seen' :
  key ∉ seen →
  emit_opportunity exp_neg key cyc cycp edges seen = (r, seen') →
  seen ⊆ seen' ∧
  ∀ evs, r = Ok evs →
    ∃ k g ps, evs = [Opportunity k g ps] ∧ (k ∉ seen) ∧ k ∈ seen'.
Proof.
  unfold emit_opportunity. intros Hnew [= <- <-]. split; [set_solver|].
  intros evs Hr. destruct (first_edge_weight cyc edges) as [w|e|];
    simpl in Hr; simplify_eq.
  eexists _, _, _. split; [done|]. split; [done|]. set_solver.
Qed.

Lemma arb_report_shape cyc cycp (edges : list (@edge W Pool)) seen r seen' :
  ArbitrageBot.report exp_neg cyc cycp edges seen = (r, seen') →
  seen ⊆ seen' ∧
  ∀ evs, r = Ok evs →
    (evs = [] ∧ seen' = seen) ∨
    ∃ k g ps, evs = [Opportunity k g ps] ∧ (k ∉ seen) ∧ k ∈ seen'.
Proof.
  unfold ArbitrageBot.report. destruct cyc as [|t cyc].
  { intros [= <- <-]. split; [done|]. intros evs [= <-]. by left. }
  destruct (join " → " (t :: cyc)) as [key|e|].
  - destruct (bool_decide (key ∈ seen)) eqn:Hk.
    + intros [= <- <-]. split; [done|]. intros evs [= <-]. by left.
    + apply bool_decide_eq_false in Hk. intros He.
      destruct (emit_opportunity_shape _ _ _ _ _ _ _ Hk He) as [Hsub Hev].
      split; [done|]. intros evs Hr. right. by apply Hev.
  - intros [= <- <-]. split; [done|]. intros evs [=].
  - intros [= <- <-]. split; [done|]. intros evs [=].
Qed.

Lemma disc_report_shape cyc cycp (edges : list (@edge W Pool)) seen r seen' :
  DiscoveryBot.report exp_neg false cyc cycp edges seen = (r, seen') →
  seen ⊆ seen' ∧
  ∀ evs, r = Ok evs →
    (evs = [] ∧ seen' = seen) ∨
    ∃ k g ps, evs = [Opportunity k g ps] ∧ (k ∉ seen) ∧ k ∈ seen'.
Proof.
  unfold DiscoveryBot.report. destruct cyc as [|t cyc].
  { intros [= <- <-]. split; [done|]. intros evs [= <-]. by left. }
  destruct (join "→" (t :: cyc)) as [key|e|].
  - rewrite orb_false_r.
    destruct (bool_decide (key ∈ seen)) eqn:Hk; simpl.
    + intros [= <- <-]. split; [done|]. intros evs [= <-]. by left.
    + apply bool_decide_eq_false in Hk. intros He.
      destruct (emit_opportunity_shape _ _ _ _ _ _ _ Hk He) as [Hsub Hev].
      split; [done|]. intros evs Hr. right. by apply Hev.
  - intros [= <- <-]. split; [done|]. intros evs [=].
  - intros [= <- <-]. split; [done|]. intros evs [=].
Qed.

Lemma arb_tick_shape chain st r st' :
  ArbitrageBot.tick neg_log exp_neg chain st = (r, st') →
  st_seen st ⊆ st_seen st' ∧
  ∀ evs, r = Ok evs →
    (evs = [] ∧ st_seen st' = st_seen st) ∨
    ∃ k g ps, evs = [Opportunity k g ps] ∧
              (k ∉ st_seen st) ∧ k ∈ st_seen st'.
Proof.
  unfold ArbitrageBot.tick.
  destruct (ArbitrageBot.build_rate_graph _ _ _ _) as [[g ps] log].
  destruct g as [[nodes edges]|e|];
    [|intros [= <- <-]; simpl; split; [done|intros evs [=]]..].
  simpl.
  destruct (ArbitrageBot.find_negative_cycle _ _ _) as [[cyc cycp]|e|];
    [|intros [= <- <-]; simpl; split; [done|intros evs [=]]..].
  destruct (ArbitrageBot.report _ _ _ _ _) as [r0 seen'] eqn:Hrep.
  intros [= <- <-]. simpl. by eapply arb_report_shape.
Qed.

Lemma disc_tick_shape env st r st' :
  DiscoveryBot.tick neg_log exp_neg false env st = (r, st') →
  st_seen st ⊆ st_seen st' ∧
  ∀ evs, r = Ok evs →
    (evs = [] ∧ st_seen st' = st_seen st) ∨
    ∃ k g ps, evs = [Opportunity k g ps] ∧
              (k ∉ st_seen st) ∧ k ∈ st_seen st'.
Proof.
  unfold DiscoveryBot.tick.
  destruct (DiscoveryBot.tick_detect _ _ _) as [[[[cyc cycp] edges]|e|] log];
    [|intros [= <- <-]; simpl; split; [done|intros evs [=]]..].
  destruct (DiscoveryBot.report _ _ _ _ _ _) as [r0 seen'] eqn:Hrep.
  intros [= <- <-]. simpl. by eapply disc_report_shape.
Qed.

Lemma opportunities_one key k (g : G) ps :
  opportunities key [Opportunity k g ps] = if decide (k = key) then 1 else 0.
Proof.
  unfold opportunities. destruct (decide (k = key)) as [->|Hne].
  - rewrite filter_cons_True by (simpl; by rewrite bool_decide_eq_true).
    done.
  - rewrite filter_cons_False
      by (simpl; by rewrite bool_decide_eq_false_2).
    done.
Qed.

Lemma opportunities_tick key (evs : list (event G)) (seen seen' : gset string) :
  seen ⊆ seen' →
  (evs = [] ∧ seen' = seen) ∨
  (∃ k g ps, evs = [Opportunity k g ps] ∧ (k ∉ seen) ∧ k ∈ seen') →
  opportunities key (evs ++ [Sleep]) +
    (if bool_decide (key ∈ seen') then 0 else 1)
  ≤ (if bool_decide (key ∈ seen) then 0 else 1).
Proof.
  intros Hsub [[-> ->]|(k & g & ps & -> & Hk & Hk')];
    rewrite opportunities_app.
  - change (opportunities key ([] : list (event G))) with 0.
    change (opportunities key ([Sleep] : list (event G))) with 0. lia.
  - change (opportunities key ([Sleep] : list (event G))) with 0.
    rewrite opportunities_one.
    destruct (decide (k = key)) as [->|Hne].
    + rewrite (bool_decide_eq_true_2 _ Hk'),
        (bool_decide_eq_false_2 _ Hk). lia.
    + destruct (bool_decide (key ∈ seen)) eqn:Hs.
      * apply bool_decide_eq_true in Hs.
        rewrite bool_decide_eq_true_2 by set_solver. lia.
      * destruct (bool_decide (key ∈ seen')); lia.
Qed.

Lemma arb_monitor_loop_once chains key st trace :
  opportunities key
    (ArbitrageBot.monitor_loop neg_log exp_neg chains st trace).1.1
  ≤ opportunities key trace +
    (if bool_decide (key ∈ st_seen st) then 0 else 1).
Proof.
  revert st trace. induction chains as [|c cs IH]; intros st trace; simpl.
  - lia.
  - destruct (ArbitrageBot.tick neg_log exp_neg c st) as [[evs|e|] st']
      eqn:Ht; simpl; [|lia..].
    destruct (arb_tick_shape _ _ _ _ Ht) as [Hsub Hev].
    pose proof (opportunities_tick key evs _ _ Hsub (Hev evs eq_refl)) as Hle.
    etrans; [apply IH|]. rewrite opportunities_app. lia.
Qed.

Lemma disc_monitor_loop_once envs key st trace :
  opportunities key
    (DiscoveryBot.monitor_loop neg_log exp_neg false envs st trace).1.1
  ≤ opportunities key trace +
    (if bool_decide (key ∈ st_seen st) then 0 else 1).
Proof.
  revert st trace. induction envs as [|env envs IH]; intros st trace; simpl.
  - lia.
  - destruct (DiscoveryBot.tick neg_log exp_neg false env st)
      as [[evs|e|] st'] eqn:Ht; simpl; [| |lia].
    + destruct (disc_tick_shape _ _ _ _ Ht) as [Hsub Hev].
      pose proof (opportunities_tick key evs _ _ Hsub (Hev evs eq_refl))
        as Hle.
      etrans; [apply IH|]. rewrite opportunities_app. lia.
    + destruct (disc_tick_shape _ _ _ _ Ht) as [Hsub _].
      etrans; [apply IH|]. rewrite opportunities_app.
      change (opportunities key [LoggedException e; Sleep]) with 0.
      destruct (bool_decide (key ∈ st_seen st)) eqn:Hs.
      * apply bool_decide_eq_true in Hs.
        rewrite bool_decide_eq_true_2 by set_solver. lia.
      * destruct (bool_decide (key ∈ st_seen st')); lia.
Qed.
End ReportedOnce.

(** X17: no cycle signature is reported twice in one run.  Whatever the
    chain answers on each tick, the trace of [monitor_arbitrage], and that
    of [monitor] of [arbitrage_discovery_bot.py] with [LOG_ARBITRAGE] off,
    holds at most one opportunity event for any given signature. *)
Theorem no_signature_reported_twice {W : Type} `{Weight W}
    (neg_log : Q → W) {G : Type} (exp_neg : W → G) (key : string)
    (addrs : list address) (chains : list Chain)
    (envs : list DiscoveryBot.Env) :
  opportunities key
    (ArbitrageBot.monitor_arbitrage neg_log exp_neg addrs chains).1.1 ≤ 1 ∧
  opportunities key
    (DiscoveryBot.monitor neg_log exp_neg false envs).1.1 ≤ 1.
Proof.
  split.
  - exact (arb_monitor_loop_once neg_log exp_neg chains key
             (mkState (new_pool <$> addrs) ∅ []) []).
  - exact (disc_monitor_loop_once neg_log exp_neg envs key
             (mkState [] ∅ []) []).
Qed.

(** ** What can end a tick *)

Section TickFailures.
Context {W : Type} `{Weight W} (neg_log : Q → W).
Context {G : Type} (exp_neg : W → G).

Lemma join_raises sep l e : join sep l = Raise e → e = TypeError.
Proof.
  induction l as [|[t|] l IH]; simpl; [done| |by intros [= <-]].
  destruct l as [|t' l]; [done|].
  destruct (join sep (t' :: l)) as [s|e'|]; simpl; [done| |done].
  intros [= ->]. by apply IH.
Qed.

Lemma first_edge_weight_raises {P : Type} cyc (edges : list (@edge W P)) e :
  first_edge_weight cyc edges = Raise e → e = IndexError ∨ e = StopIteration.
Proof.
  induction edges as [|[[[u v] w] p] es IH]; simpl.
  - intros [= <-]. by right.
  - unfold list_get. destruct (cyc !! 0) as [c0|]; simpl;
      [|intros [= <-]; by left].
    destruct (decide (u = c0)); [|done].
    destruct (cyc !! 1) as [c1|]; simpl; [|intros [= <-]; by left].
    by destruct (decide (v = c1)).
Qed.

Lemma build_loop_raises (update : M unit) pools nodes
    (edges : list (@edge W Pool)) log e pools' log' :
  build_loop neg_log update pools nodes edges log = (Raise e, pools', log') →
  ∃ p l, (update (p, l)).1 = Raise e.
Proof.
  revert nodes edges log pools' log'.
  induction pools as [|p ps IH]; intros nodes edges log pools' log' Hb;
    simpl in Hb; [done|].
  destruct (update (p, log)) as [[[]|e'|] [p1 log1]] eqn:Hu;
    [| |done].
  - destruct (is_valid p1).
    + destruct (build_loop _ _ ps _ _ log1) as [[r ps1] log2] eqn:Hrec.
      simplify_eq. eauto.
    + destruct (build_loop _ _ ps _ _ log1) as [[r ps1] log2] eqn:Hrec.
      simplify_eq. eauto.
  - simplify_eq. exists p, log. by rewrite Hu.
Qed.
End TickFailures.

Lemma extract_cycle_tokens {W P : Type} fuel inv (parent : parent_t P)
    start toks pls :
  extract_cycle (P := P) fuel inv parent start = Ok (toks, pls) → toks ≠ [].
Proof.
  unfold extract_cycle. intros Hx. inv_res. destruct x as [t2 p2]. inv_res.
  subst toks. intros Hnil. apply (f_equal length) in Hnil.
  rewrite length_reverse, length_app in Hnil. simpl in Hnil. lia.
Qed.

Lemma scan_pools_tokens {W : Type} `{Weight W} {P : Type} back fuel
    (nodes : list token) (dist : list W) (parent : parent_t P)
    (es : list (@edge W P)) toks pls :
  scan back fuel (token_to_idx nodes) (idx_to_token nodes) dist parent es
    = Ok (toks, pls) →
  pls ≠ [] → toks ≠ [].
Proof.
  intros [[_ ->]|(vi & start & _ & _ & Hx)]%scan_spec Hne; [done|].
  by eapply (extract_cycle_tokens (W := W)).
Qed.

(** X18: the gain lookup cannot fail on a cycle with a pool.  Whenever
    either detector returns tokens with a non-empty pool sequence, the
    search [next(w for u, v, w, _ in edges if u == cyc[0] and v == cyc[1])]
    of the monitors finds an edge: it raises neither [StopIteration] nor
    [IndexError], and what it returns is the weight of an edge of the graph
    from the first token of the cycle to the second. *)
Theorem gain_lookup_succeeds {W : Type} `{Weight W} {P : Type} (fuel : nat)
    (nodes : list token) (E : list (@edge W P))
    (toks : list token) (pls : list P) :
  ArbitrageBot.find_negative_cycle fuel nodes E = Ok (toks, pls) ∨
  DiscoveryBot.find_negative_cycle fuel nodes E = Ok (toks, pls) →
  pls ≠ [] →
  ∃ u v w p, toks !! 0 = Some u ∧ toks !! 1 = Some v ∧
             (u, v, w, p) ∈ E ∧ first_edge_weight toks E = Ok w.
Proof.
  intros Hf Hne.
  assert (Hshape : cycle_shape E toks pls).
  { destruct Hf as [Hf|Hf].
    - eapply arb_find_shape; [done|].
      unfold ArbitrageBot.find_negative_cycle,
        ArbitrageBot.find_negative_cycle_passes in Hf.
      inv_res. destruct x0 as [[dist parent] k]. inv_res.
      subst x. simpl in Hf. subst x0. by eapply scan_pools_tokens.
    - eapply disc_find_shape; [done|].
      unfold DiscoveryBot.find_negative_cycle,
        DiscoveryBot.find_negative_cycle_passes in Hf.
      inv_res. destruct x0 as [[dist parent] k]. inv_res.
      subst x. simpl in Hf. subst x0. by eapply scan_pools_tokens. }
  destruct Hshape as (_ & _ & Hhop).
  destruct pls as [|p pls]; [done|].
  destruct (Hhop 0 p eq_refl) as (u & v & w & Hu & Hv & Hin).
  assert (Hfirst : ∀ es : list (@edge W P), (u, v, w, p) ∈ es →
    ∃ w' p', (u, v, w', p') ∈ es ∧ first_edge_weight toks es = Ok w').
  { induction es as [|[[[u' v'] w'] p'] es IH]; intros Hes;
      [by inversion Hes|].
    simpl. unfold list_get. rewrite Hu. simpl.
    destruct (decide (u' = u)) as [->|Hnu].
    - rewrite Hv. simpl. destruct (decide (v' = v)) as [->|Hnv].
      + exists w', p'. split; [by left|done].
      + apply elem_of_cons in Hes as [?|Hes]; [congruence|].
        destruct (IH Hes) as (w2 & p2 & Hin2 & Hw2).
        exists w2, p2. split; [by right|done].
    - apply elem_of_cons in Hes as [?|Hes]; [congruence|].
      destruct (IH Hes) as (w2 & p2 & Hin2 & Hw2).
      exists w2, p2. split; [by right|done]. }
  destruct (Hfirst E Hin) as (w' & p' & Hin' & Hw').
  exists u, v, w', p'. done.
Qed.

Lemma gain_lookup_succeeds_witness :
  ∃ u v w p,
    [tok "B"; tok "C"; tok "A"; tok "B"] !! 0 = Some u ∧
    [tok "B"; tok "C"; tok "A"; tok "B"] !! 1 = Some v ∧
    (u, v, w, p) ∈ triangle_edges ∧
    first_edge_weight [tok "B"; tok "C"; tok "A"; tok "B"] triangle_edges
      = Ok w.
Proof.
  apply (gain_lookup_succeeds 3 triangle_nodes triangle_edges
           [tok "B"; tok "C"; tok "A"; tok "B"] [2; 3; 1]).
  - left. vm_compute. reflexivity.
  - discriminate.
Defined.

(** X19: what can end the monitor of [arbitrage_bot.py].  An exception
    that leaves a tick is one that a pool update let through (so not
    [BadFunctionCallOutput]), or it comes from the report: [TypeError]
    from joining the tokens, [IndexError] or [StopIteration] from the gain
    lookup.  The graph builder itself and the detector raise nothing of
    their own. *)
Theorem arbitrage_bot_tick_failure_causes {W : Type} `{Weight W}
    (neg_log : Q → W) {G : Type} (exp_neg : W → G) (chain : Chain)
    (st : mstate) (e : exn) :
  (ArbitrageBot.tick neg_log exp_neg chain st).1 = Raise e →
  (∃ p log,
     (ArbitrageBot.update_tokens_and_reserves chain (p, log)).1 = Raise e ∧
     e ≠ BadFunctionCallOutput) ∨
  e = TypeError ∨ e = IndexError ∨ e = StopIteration.
Proof.
  unfold ArbitrageBot.tick, ArbitrageBot.build_rate_graph.
  destruct (build_loop _ _ _ _ _ _) as [[g ps] log] eqn:Hb.
  destruct g as [[nodes edges]|e'|]; simpl; [| |done].
  - destruct (build_loop_well_formed neg_log _ _ _ _ _ _ _ Hb) as (Hcl & _).
    destruct (arb_find_Ok (elements nodes) edges (NoDup_elements _) Hcl
                (length (elements nodes)) (le_n _)) as [[cyc cycp] ->].
    destruct (ArbitrageBot.report _ _ _ _ _) as [r seen] eqn:Hrep.
    simpl. intros ->. right. unfold ArbitrageBot.report in Hrep.
    destruct cyc as [|t cyc]; [by simplify_eq|].
    destruct (join _ _) as [key|e'|] eqn:Hj; [| |by simplify_eq].
    + destruct (bool_decide _); [by simplify_eq|].
      unfold emit_opportunity in Hrep.
      destruct (first_edge_weight _ _) as [w|e'|] eqn:Hw;
        simpl in Hrep; simplify_eq.
      right. by eapply first_edge_weight_raises.
    + simplify_eq. left. by eapply join_raises.
  - intros [= ->]. left.
    destruct (build_loop_raises neg_log _ _ _ _ _ _ _ _ Hb) as (p & l & Hu).
    exists p, l. split; [done|]. intros ->.
    by apply arb_update_contains in Hu.
Qed.

Lemma arbitrage_bot_tick_failure_causes_witness :
  (∃ p log,
     (ArbitrageBot.update_tokens_and_reserves down_chain (p, log)).1
       = Raise TransportError ∧
     TransportError ≠ BadFunctionCallOutput) ∨
  TransportError = TypeError ∨ TransportError = IndexError ∨
  TransportError = StopIteration.
Proof.
  apply (@arbitrage_bot_tick_failure_causes Q price_weight neg_log_price
           Q exp_neg_price down_chain (mkState [new_pool "P1"] ∅ [])).
  vm_compute. reflexivity.
Defined.

(** X20: what the monitor of [arbitrage_discovery_bot.py] can have to
    log.  An exception raised during a tick is the one reading the pool
    file raised, or one a pool update let through (so neither
    [BadFunctionCallOutput] nor [ContractLogicError]), or [TypeError],
    from the back-walk of the detector or from joining the tokens.  The
    gain lookup never fails there. *)
Theorem discovery_tick_failure_causes {W : Type} `{Weight W}
    (neg_log : Q → W) {G : Type} (exp_neg : W → G) (verbose : bool)
    (env : DiscoveryBot.Env) (st : mstate) (e : exn) :
  (DiscoveryBot.tick neg_log exp_neg verbose env st).1 = Raise e →
  DiscoveryBot.env_addresses env = Failed e ∨
  (∃ p log,
     (DiscoveryBot.update (DiscoveryBot.env_chain env) (p, log)).1 = Raise e ∧
     DiscoveryBot.caught e = false) ∨
  e = TypeError.
Proof.
  unfold DiscoveryBot.tick, DiscoveryBot.tick_detect,
    DiscoveryBot.tick_build.
  destruct (DiscoveryBot.env_addresses env) as [addrs|e'];
    [|simpl; intros [= ->]; by left].
  unfold DiscoveryBot.build_graph.
  destruct (build_loop _ _ _ _ _ _) as [[g ps] log] eqn:Hb.
  destruct g as [[nodes edges]|e'|]; simpl; [| |done].
  - destruct (build_loop_well_formed neg_log _ _ _ _ _ _ _ Hb) as (Hcl & _).
    destruct (disc_find_cases (elements nodes) edges (NoDup_elements _) Hcl
                (length (elements nodes)) (le_n _)) as [[[cyc cycp] Hf]| ->];
      [|simpl; intros [= <-]; by right; right].
    rewrite Hf. simpl.
    destruct (DiscoveryBot.report _ _ _ _ _ _) as [r seen] eqn:Hrep.
    simpl. intros ->. right. right. unfold DiscoveryBot.report in Hrep.
    destruct cyc as [|t cyc]; [by simplify_eq|].
    destruct (join _ _) as [key|e'|] eqn:Hj; [| |by simplify_eq].
    + destruct (negb _ || verbose); [|by simplify_eq].
      unfold emit_opportunity in Hrep.
      destruct (disc_first_edge_weight (elements nodes) edges _ _ _ Hf)
        as [w Hw]; [done|].
      rewrite Hw in Hrep. by simplify_eq.
    + simplify_eq. by eapply join_raises.
  - intros [= ->]. right. left.
    destruct (build_loop_raises neg_log _ _ _ _ _ _ _ _ Hb) as (p & l & Hu).
    exists p, l. split; [done|]. by apply disc_update_contains in Hu.
Qed.

Lemma discovery_tick_failure_causes_witness :
  DiscoveryBot.env_addresses
    (tick_env two_pool_chain ["P1"; "P2"]%string) = Failed TypeError ∨
  (∃ p log,
     (DiscoveryBot.update
        (DiscoveryBot.env_chain (tick_env two_pool_chain ["P1"; "P2"]%string))
        (p, log)).1 = Raise TypeError ∧
     DiscoveryBot.caught TypeError = false) ∨
  TypeError = TypeError.
Proof.
  apply (@discovery_tick_failure_causes Q price_weight neg_log_price
           Q exp_neg_price false
           (tick_env two_pool_chain ["P1"; "P2"]%string)
           (mkState [] ∅ [])).
  vm_compute. reflexivity.
Defined.
